(** * qutip_qip.circuit: decomposition passes and the circuit simulator

    A shallow embedding of [src/qutip_qip/circuit.py]:
    - [QubitCircuit.resolve_gates] with its per-gate rules [_gate_*], the
      two-qubit basis transformer [_basis_*] and the final one-qubit pass;
    - [QubitCircuit.adjacent_gates];
    - [CircuitResult] and [CircuitSimulator] ([initialize], [step], [run],
      [run_statistics], [_apply_measurement]).

    Python exceptions are values of [PyErr] carried by the [result] monad.
    Rotation angles ([float] in the source) are real numbers.  The
    linear-algebra services the simulator calls (qutip's [Qobj] arithmetic,
    [expand_operator], [measurement_statistics], numpy's random choice) are
    the fields of the class [LinAlg]. *)

From Stdlib Require Import List ZArith String Ascii Bool Lia Reals Lra QArith.
Import ListNotations.
Local Open Scope string_scope.
Local Open Scope list_scope.
Local Open Scope Z_scope.

Set Implicit Arguments.

(* ================================================================== *)
(** * Part I.  Definitions *)
(* ================================================================== *)

(** ** Exceptions *)

(** The text of an exception raised by an explicit [raise] of the source. *)
Inductive ErrMsg : Type :=
| MeasurementsPresent
    (* "adjacent_gates must be called before measurements are added ..." *)
| NotValidBasisGate (tok : string)      (* "%s is not a valid basis gate" *)
| InsufficientSingleQubit
    (* "Not sufficient single-qubit gates in basis" *)
| NotValidTwoQubitBasis (tok : string)
    (* "%s is not a valid two-qubit basis gate" *)
| CannotBeResolved (gname : string)     (* "Gate {name} cannot be resolved." *)
| CannotResolveInBasis                  (* "Cannot be resolved in this basis" *)
| AdjacentNotDefined (gname : string)
    (* "`adjacent_gates` is not defined for gate {}." *)
| ModeNotAvailable (mode : string)      (* "mode {} is not available." *)
| TargetNotValid                        (* "target is not valid" *)
| InvalidLiteral                        (* int() of a non-digit character *)
| InvalidProbabilities.                 (* numpy rejects the arguments *)

Inductive PyErr : Type :=
| NotImplementedError (m : ErrMsg)
| ValueError (m : ErrMsg)
| TypeError
| IndexError
| AttributeError.

Inductive result (A : Type) : Type :=
| Ok (a : A)
| Raise (e : PyErr).

Arguments Ok {A} a.
Arguments Raise {A} e.

Definition bind {A B : Type} (r : result A) (k : A -> result B) : result B :=
  match r with
  | Ok a => k a
  | Raise e => Raise e
  end.

Notation "x <- r ;; k" := (bind r (fun x => k))
  (at level 61, r at next level, right associativity).
Notation "' p <- r ;; k" := (bind r (fun p => k))
  (at level 61, p pattern, r at next level, right associativity).

(** The error classes of the specification (its section 7). *)
Inductive SpecError : Type :=
| SequencingError
| InvalidBasisError
| UnsupportedGateError
| ConfigurationError
| OtherError.

Definition spec_error (e : PyErr) : SpecError :=
  match e with
  | NotImplementedError MeasurementsPresent => SequencingError
  | NotImplementedError (NotValidBasisGate _) => InvalidBasisError
  | ValueError InsufficientSingleQubit => InvalidBasisError
  | ValueError (NotValidTwoQubitBasis _) => InvalidBasisError
  | NotImplementedError (CannotBeResolved _) => UnsupportedGateError
  | NotImplementedError CannotResolveInBasis => UnsupportedGateError
  | NotImplementedError (AdjacentNotDefined _) => UnsupportedGateError
  | NotImplementedError (ModeNotAvailable _) => ConfigurationError
  | _ => OtherError
  end.

(** ** Python lists *)

(** [x in l] for a list of strings. *)
Definition inb (x : string) (l : list string) : bool :=
  existsb (String.eqb x) l.

(** [l[i]]: a negative index counts from the end; out of range raises. *)
Definition py_index {A : Type} (l : list A) (i : Z) : result A :=
  let n := Z.of_nat (List.length l) in
  let j := if i <? 0 then i + n else i in
  if (j <? 0) || (n <=? j) then Raise IndexError
  else match nth_error l (Z.to_nat j) with
       | Some a => Ok a
       | None => Raise IndexError
       end.

Fixpoint list_set {A : Type} (l : list A) (n : nat) (v : A) : list A :=
  match l, n with
  | [], _ => []
  | _ :: t, O => v :: t
  | h :: t, S m => h :: list_set t m v
  end.

(** [l[i] = v] *)
Definition py_setitem {A : Type} (l : list A) (i : Z) (v : A)
  : result (list A) :=
  let n := Z.of_nat (List.length l) in
  let j := if i <? 0 then i + n else i in
  if (j <? 0) || (n <=? j) then Raise IndexError
  else Ok (list_set l (Z.to_nat j) v).

(** [x[i]] where [x] may be [None]. *)
Definition subscript {A : Type} (x : option (list A)) (i : Z) : result A :=
  match x with
  | None => Raise TypeError
  | Some l => py_index l i
  end.

(** ** Gates, measurements, circuits *)

(** Modelled from the spec: the class [Gate] of [qutip_qip.operations],
    which the sources at hand only import.  Its attributes are those of the
    data model (section 3) and of the calls of this module: name, targets,
    controls, rotation angle, classical controls and the two control
    values that [add_gate] passes on.  [arg_label] and [latex_str] only serve
    rendering and are left out.  An index given as a bare integer is stored
    as a one-element list, as [Measurement.__init__] does for its
    targets. *)
Record Gate : Type := Build_Gate {
  name : string;
  targets : option (list Z);
  controls : option (list Z);
  arg_value : option R;
  classical_controls : option (list Z);
  control_value : option Z;
  classical_control_value : option Z
}.

(** [Gate(name, targets, controls, arg_value)] *)
Definition mkGate (nm : string) (tg ct : option (list Z)) (arg : option R)
  : Gate :=
  Build_Gate nm tg ct arg None None None.

Record Measurement : Type := Build_Measurement {
  m_name : string;
  m_targets : option (list Z);
  classical_store : option Z
}.

(** An entry of [QubitCircuit.gates]. *)
Inductive CircuitOp : Type :=
| G (g : Gate)
| M (m : Measurement).

Definition is_measurement (o : CircuitOp) : bool :=
  match o with
  | M _ => true
  | G _ => false
  end.

(** [len(list(filter(lambda x: isinstance(x, Measurement), gates)))] *)
Definition num_measurements (gates : list CircuitOp) : nat :=
  List.length (filter is_measurement gates).

Record QubitCircuit : Type := Build_QubitCircuit {
  N : Z;
  num_cbits : Z;
  gates : list CircuitOp
}.

(** ** The universal basis resolver: rules [_gate_*] *)

Definition half_pi : R := (PI / 2)%R.
Definition quarter_pi : R := (PI / 4)%R.

Definition GLOBALPHASE (a : R) : Gate := mkGate "GLOBALPHASE" None None (Some a).

(** A rotation on the index list [tg]. *)
Definition rot (nm : string) (tg : option (list Z)) (a : R) : Gate :=
  mkGate nm tg None (Some a).

(** [Gate("CNOT", t, c)] *)
Definition cnot (tg ct : option (list Z)) : Gate := mkGate "CNOT" tg ct None.

Definition _gate_IGNORED (gate : Gate) : result (list Gate) := Ok [gate].

Definition _gate_SQRTNOT (gate : Gate) : result (list Gate) :=
  Ok [GLOBALPHASE (PI / 4)%R; rot "RX" (targets gate) (PI / 2)%R].

Definition _gate_SNOT (gate : Gate) : result (list Gate) :=
  Ok [GLOBALPHASE half_pi; rot "RY" (targets gate) half_pi;
      rot "RX" (targets gate) PI].

Definition _gate_PHASEGATE (gate : Gate) : result (list Gate) :=
  match arg_value gate with
  | None => Raise TypeError
  | Some a => Ok [GLOBALPHASE (a / 2)%R; rot "RZ" (targets gate) a]
  end.

Definition _gate_NOTIMPLEMENTED (gate : Gate) : result (list Gate) :=
  Raise (NotImplementedError CannotResolveInBasis).

Definition _gate_CSIGN (gate : Gate) : result (list Gate) :=
  Ok [rot "RY" (targets gate) half_pi; rot "RX" (targets gate) PI;
      cnot (targets gate) (controls gate);
      rot "RY" (targets gate) half_pi; rot "RX" (targets gate) PI;
      GLOBALPHASE PI].

Definition _gate_SWAP (gate : Gate) : result (list Gate) :=
  t0 <- subscript (targets gate) 0 ;;
  t1 <- subscript (targets gate) 1 ;;
  Ok [cnot (Some [t0]) (Some [t1]); cnot (Some [t1]) (Some [t0]);
      cnot (Some [t0]) (Some [t1])].

Definition _gate_ISWAP (gate : Gate) : result (list Gate) :=
  t0 <- subscript (targets gate) 0 ;;
  t1 <- subscript (targets gate) 1 ;;
  Ok [cnot (Some [t0]) (Some [t1]); cnot (Some [t1]) (Some [t0]);
      cnot (Some [t0]) (Some [t1]);
      rot "RZ" (Some [t0]) half_pi; rot "RZ" (Some [t1]) half_pi;
      rot "RY" (Some [t0]) half_pi; rot "RX" (Some [t0]) PI;
      cnot (Some [t0]) (Some [t1]);
      rot "RY" (Some [t0]) half_pi; rot "RX" (Some [t0]) PI;
      GLOBALPHASE PI; GLOBALPHASE half_pi].

Definition _gate_FREDKIN (gate : Gate) : result (list Gate) :=
  t1 <- subscript (targets gate) 1 ;;
  t0 <- subscript (targets gate) 0 ;;
  let c := controls gate in
  let T0 := Some [t0] in
  let T1 := Some [t1] in
  Ok [cnot T0 T1;
      rot "RZ" T1 PI; rot "RX" T1 (PI / 2)%R; rot "RZ" T1 (- PI / 2)%R;
      rot "RX" T1 (PI / 2)%R; rot "RZ" T1 PI;
      cnot T1 T0;
      rot "RZ" T1 (- PI / 4)%R;
      cnot T1 c;
      rot "RZ" T1 (PI / 4)%R;
      cnot T1 T0;
      rot "RZ" T0 (PI / 4)%R; rot "RZ" T1 (- PI / 4)%R;
      cnot T1 c; cnot T0 c;
      rot "RZ" c (PI / 4)%R; rot "RZ" T0 (- PI / 4)%R;
      cnot T0 c;
      rot "RZ" T1 (-3 * PI / 4)%R; rot "RX" T1 (PI / 2)%R;
      rot "RZ" T1 (- PI / 2)%R; rot "RX" T1 (PI / 2)%R; rot "RZ" T1 PI;
      cnot T0 T1;
      GLOBALPHASE (PI / 8)%R].

Definition _gate_TOFFOLI (gate : Gate) : result (list Gate) :=
  c1 <- subscript (controls gate) 1 ;;
  c0 <- subscript (controls gate) 0 ;;
  let t := targets gate in
  let C0 := Some [c0] in
  let C1 := Some [c1] in
  Ok [GLOBALPHASE (PI / 8)%R;
      rot "RZ" C1 half_pi; rot "RZ" C0 quarter_pi;
      cnot C1 C0;
      rot "RZ" C1 (- quarter_pi)%R;
      cnot C1 C0;
      GLOBALPHASE half_pi;
      rot "RY" t half_pi; rot "RX" t PI;
      rot "RZ" C1 (- quarter_pi)%R; rot "RZ" t quarter_pi;
      cnot t C0;
      rot "RZ" t (- quarter_pi)%R;
      cnot t C1;
      rot "RZ" t quarter_pi;
      cnot t C0;
      rot "RZ" t (- quarter_pi)%R;
      cnot t C1;
      GLOBALPHASE half_pi;
      rot "RY" t half_pi; rot "RX" t PI].

Definition _gate_GLOBALPHASE (gate : Gate) : result (list Gate) :=
  Ok [mkGate (name gate) (targets gate) (controls gate) (arg_value gate)].

(** [getattr(self, "_gate_" + str(gate.name))]: the methods the class
    defines; a missing one raises [AttributeError]. *)
Definition gate_method (nm : string) : result (Gate -> result (list Gate)) :=
  if inb nm ["IGNORED"; "RY"; "RZ"; "basis_2q"; "IDLE"; "CNOT"; "RX"]
  then Ok _gate_IGNORED
  else if String.eqb nm "SQRTNOT" then Ok _gate_SQRTNOT
  else if String.eqb nm "SNOT" then Ok _gate_SNOT
  else if String.eqb nm "PHASEGATE" then Ok _gate_PHASEGATE
  else if inb nm ["NOTIMPLEMENTED"; "BERKELEY"; "SWAPalpha"; "SQRTSWAP";
                  "SQRTISWAP"]
  then Ok _gate_NOTIMPLEMENTED
  else if String.eqb nm "CSIGN" then Ok _gate_CSIGN
  else if String.eqb nm "SWAP" then Ok _gate_SWAP
  else if String.eqb nm "ISWAP" then Ok _gate_ISWAP
  else if String.eqb nm "FREDKIN" then Ok _gate_FREDKIN
  else if String.eqb nm "TOFFOLI" then Ok _gate_TOFFOLI
  else if String.eqb nm "GLOBALPHASE" then Ok _gate_GLOBALPHASE
  else Raise AttributeError.

(** [_resolve_to_universal]: the gates the rule appends to
    [temp_resolved]. *)
Definition _resolve_to_universal (gate : Gate) (basis_1q basis_2q : list string)
  : result (list Gate) :=
  if inb (name gate) basis_2q then _gate_IGNORED gate
  else if String.eqb (name gate) "SWAP" && inb "ISWAP" basis_2q
       then _gate_IGNORED gate
       else method <- gate_method (name gate) ;; method gate.

(** ** The two-qubit basis transformer: rules [_basis_*] *)

(** [for gate in gates: out.append(...)]: each gate appends the gates its
    rule emits. *)
Fixpoint for_gates (rule : Gate -> result (list Gate)) (gs out : list Gate)
  : result (list Gate) :=
  match gs with
  | [] => Ok out
  | gate :: tl => emitted <- rule gate ;; for_gates rule tl (out ++ emitted)
  end.

Definition _basis_CSIGN_gate (gate : Gate) : result (list Gate) :=
  if String.eqb (name gate) "CNOT" then
    Ok [rot "RY" (targets gate) (- half_pi)%R;
        mkGate "CSIGN" (targets gate) (controls gate) None;
        rot "RY" (targets gate) half_pi]
  else Ok [gate].

Definition _basis_ISWAP_gate (gate : Gate) : result (list Gate) :=
  if String.eqb (name gate) "CNOT" then
    c0 <- subscript (controls gate) 0 ;;
    t0 <- subscript (targets gate) 0 ;;
    Ok [GLOBALPHASE quarter_pi;
        mkGate "ISWAP" (Some [c0; t0]) None None;
        rot "RZ" (targets gate) (- half_pi)%R;
        rot "RY" (controls gate) (- half_pi)%R;
        rot "RZ" (controls gate) half_pi;
        mkGate "ISWAP" (Some [c0; t0]) None None;
        rot "RY" (targets gate) (- half_pi)%R;
        rot "RZ" (targets gate) half_pi]
  else if String.eqb (name gate) "SWAP" then
    t0 <- subscript (targets gate) 0 ;;
    t1 <- subscript (targets gate) 1 ;;
    Ok [GLOBALPHASE quarter_pi;
        mkGate "ISWAP" (targets gate) None None;
        rot "RX" (Some [t0]) (- half_pi)%R;
        mkGate "ISWAP" (targets gate) None None;
        rot "RX" (Some [t1]) (- half_pi)%R;
        mkGate "ISWAP" (Some [t1; t0]) None None;
        rot "RX" (Some [t0]) (- half_pi)%R]
  else Ok [gate].

Definition _basis_SQRTSWAP_gate (gate : Gate) : result (list Gate) :=
  if String.eqb (name gate) "CNOT" then
    c0 <- subscript (controls gate) 0 ;;
    t0 <- subscript (targets gate) 0 ;;
    Ok [rot "RY" (targets gate) half_pi;
        mkGate "SQRTSWAP" (Some [c0; t0]) None None;
        rot "RZ" (controls gate) PI;
        mkGate "SQRTSWAP" (Some [c0; t0]) None None;
        rot "RZ" (targets gate) (- half_pi)%R;
        rot "RY" (targets gate) (- half_pi)%R;
        rot "RZ" (controls gate) (- half_pi)%R]
  else Ok [gate].

Definition _basis_SQRTISWAP_gate (gate : Gate) : result (list Gate) :=
  if String.eqb (name gate) "CNOT" then
    c0 <- subscript (controls gate) 0 ;;
    t0 <- subscript (targets gate) 0 ;;
    Ok [rot "RY" (controls gate) (- half_pi)%R;
        rot "RX" (controls gate) half_pi;
        rot "RX" (targets gate) (- half_pi)%R;
        mkGate "SQRTISWAP" (Some [c0; t0]) None None;
        rot "RX" (controls gate) PI;
        mkGate "SQRTISWAP" (Some [c0; t0]) None None;
        rot "RY" (controls gate) half_pi;
        GLOBALPHASE quarter_pi;
        rot "RZ" (controls gate) PI;
        GLOBALPHASE (3 * half_pi)%R]
  else Ok [gate].

(** [_resolve_2q_basis(basis, qc_temp, temp_resolved)] for the four names
    [resolve_gates] calls it with: the new value of [qc_temp.gates]. *)
Definition _resolve_2q_basis (basis : string) (qc_gates temp_resolved : list Gate)
  : result (list Gate) :=
  if String.eqb basis "CSIGN" then
    for_gates _basis_CSIGN_gate temp_resolved qc_gates
  else if String.eqb basis "ISWAP" then
    for_gates _basis_ISWAP_gate temp_resolved qc_gates
  else if String.eqb basis "SQRTSWAP" then
    for_gates _basis_SQRTSWAP_gate temp_resolved qc_gates
  else if String.eqb basis "SQRTISWAP" then
    for_gates _basis_SQRTISWAP_gate temp_resolved qc_gates
  else Raise TypeError.

(** ** [resolve_gates] *)

Inductive BasisArg : Type :=
| BasisList (l : list string)      (* [isinstance(basis, list)] *)
| BasisName (s : string).          (* one two-qubit gate name *)

Definition default_basis : BasisArg := BasisList ["CNOT"; "RX"; "RY"; "RZ"].

Definition basis_1q_valid : list string := ["RX"; "RY"; "RZ"; "IDLE"].
Definition basis_2q_valid : list string :=
  ["CNOT"; "CSIGN"; "ISWAP"; "SQRTSWAP"; "SQRTISWAP"].

(** The loop that sorts the tokens of a list-shaped request. *)
Fixpoint split_basis (basis basis_1q basis_2q : list string)
  : result (list string * list string) :=
  match basis with
  | [] => Ok (basis_1q, basis_2q)
  | gate :: tl =>
      if inb gate basis_2q_valid then
        split_basis tl basis_1q (basis_2q ++ [gate])
      else if inb gate basis_1q_valid then
        split_basis tl (basis_1q ++ [gate]) basis_2q
      else Raise (NotImplementedError (NotValidBasisGate gate))
  end.

(** The basis request as the pair [(basis_1q, basis_2q)]. *)
Definition parse_basis (basis : BasisArg) : result (list string * list string) :=
  match basis with
  | BasisList l =>
      '(basis_1q, basis_2q) <- split_basis l [] [] ;;
      if Nat.eqb (List.length basis_1q) 1 then
        Raise (ValueError InsufficientSingleQubit)
      else if Nat.eqb (List.length basis_1q) 0 then
        Ok (["RX"; "RY"; "RZ"], basis_2q)
      else Ok (basis_1q, basis_2q)
  | BasisName s =>
      if inb s basis_2q_valid then Ok (["RX"; "RY"; "RZ"], [s])
      else Raise (ValueError (NotValidTwoQubitBasis s))
  end.

(** The gates of a program (used once no [Measurement] is left). *)
Fixpoint gates_of (ops : list CircuitOp) : list Gate :=
  match ops with
  | [] => []
  | G g :: tl => g :: gates_of tl
  | M _ :: tl => gates_of tl
  end.

(** The per-gate loop of [resolve_gates]; the state is
    [(qc_temp.gates, temp_resolved)].  The phase of an [X], [Y] or [Z] gate
    is appended to [qc_temp.gates], its rotation goes through the rules. *)
Fixpoint resolve_loop (gs : list Gate) (basis_1q basis_2q : list string)
    (qc_gates temp_resolved : list Gate) : result (list Gate * list Gate) :=
  match gs with
  | [] => Ok (qc_gates, temp_resolved)
  | gate0 :: tl =>
      let '(qc_gates', gate) :=
        if inb (name gate0) ["X"; "Y"; "Z"] then
          (qc_gates ++ [GLOBALPHASE (PI / 2)%R],
           mkGate (String.append "R" (name gate0)) (targets gate0) None (Some PI))
        else (qc_gates, gate0) in
      match _resolve_to_universal gate basis_1q basis_2q with
      | Ok emitted =>
          resolve_loop tl basis_1q basis_2q qc_gates' (temp_resolved ++ emitted)
      | Raise AttributeError =>
          Raise (NotImplementedError (CannotBeResolved (name gate)))
      | Raise e => Raise e
      end
  end.

(** The first of CSIGN, ISWAP, SQRTSWAP, SQRTISWAP in [basis_2q]. *)
Definition basis_unit_match (basis_2q : list string) : option string :=
  find (fun basis_unit => inb basis_unit basis_2q)
       ["CSIGN"; "ISWAP"; "SQRTSWAP"; "SQRTISWAP"].

(** After the per-gate loop: either the transformer appends to
    [qc_temp.gates], or [qc_temp.gates] is replaced by [temp_resolved]. *)
Definition resolve_2q_stage (basis_2q : list string)
    (qc_gates temp_resolved : list Gate) : result (list Gate) :=
  match basis_unit_match basis_2q with
  | Some basis_unit => _resolve_2q_basis basis_unit qc_gates temp_resolved
  | None => Ok temp_resolved
  end.

(** The substitution of the final pass for one gate. *)
Definition final_1q_gate (basis_1q : list string) (gate : Gate) : list Gate :=
  if String.eqb (name gate) "RX" && negb (inb "RX" basis_1q) then
    [rot "RY" (targets gate) (- half_pi)%R;
     mkGate "RZ" (targets gate) None (arg_value gate);
     rot "RY" (targets gate) half_pi]
  else if String.eqb (name gate) "RY" && negb (inb "RY" basis_1q) then
    [rot "RZ" (targets gate) (- half_pi)%R;
     mkGate "RX" (targets gate) None (arg_value gate);
     rot "RZ" (targets gate) half_pi]
  else if String.eqb (name gate) "RZ" && negb (inb "RZ" basis_1q) then
    [rot "RX" (targets gate) (- half_pi)%R;
     mkGate "RY" (targets gate) None (arg_value gate);
     rot "RX" (targets gate) half_pi]
  else [gate].

(** [if len(basis_1q) == 2: ...] *)
Definition final_1q_stage (basis_1q : list string) (qc_gates : list Gate)
  : list Gate :=
  if Nat.eqb (List.length basis_1q) 2 then
    flat_map (final_1q_gate basis_1q) qc_gates
  else qc_gates.

(** What [resolve_gates] does once the request is parsed. *)
Definition resolve_body (gs : list Gate) (basis_1q basis_2q : list string)
  : result (list Gate) :=
  '(qc_gates, temp_resolved) <- resolve_loop gs basis_1q basis_2q [] [] ;;
  qc_gates' <- resolve_2q_stage basis_2q qc_gates temp_resolved ;;
  Ok (final_1q_stage basis_1q qc_gates').

(** [QubitCircuit.resolve_gates(basis)]: the gates of the returned circuit
    (its [N] and [num_cbits] are those of [self]). *)
Definition resolve_gates (qc : QubitCircuit) (basis : BasisArg)
  : result (list Gate) :=
  if (0 <? num_measurements (gates qc))%nat then
    Raise (NotImplementedError MeasurementsPresent)
  else
    '(basis_1q, basis_2q) <- parse_basis basis ;;
    resolve_body (gates_of (gates qc)) basis_1q basis_2q.

(** ** [adjacent_gates] *)

Definition swap_gates : list string :=
  ["SWAP"; "ISWAP"; "SQRTISWAP"; "SQRTSWAP"; "BERKELEY"; "SWAPalpha"].

Definition SWAP_ (a b : Z) : Gate := mkGate "SWAP" (Some [a; b]) None None.

(** The [while i < end] loop of the CNOT/CSIGN branch; [ctrl] is
    [gate.controls[0]].  [None] when [fuel] iterations do not reach the
    exit. *)
Fixpoint adjacent_ctrl_loop (fuel : nat) (gname : string) (ctrl start end_ i : Z)
    (out : list Gate) : option (list Gate) :=
  match fuel with
  | O => None
  | S fuel' =>
      if i <? end_ then
        if (start + end_ - i - i =? 1) && ((end_ - start + 1) mod 2 =? 0) then
          let g := if end_ =? ctrl
                   then mkGate gname (Some [i]) (Some [i + 1]) None
                   else mkGate gname (Some [i + 1]) (Some [i]) None in
          adjacent_ctrl_loop fuel' gname ctrl start end_ (i + 1) (out ++ [g])
        else if (start + end_ - i - i =? 2) && ((end_ - start + 1) mod 2 =? 1)
        then
          let g := if end_ =? ctrl
                   then mkGate gname (Some [i + 1]) (Some [i + 2]) None
                   else mkGate gname (Some [i + 2]) (Some [i + 1]) None in
          adjacent_ctrl_loop fuel' gname ctrl start end_ (i + 1 + 1)
            (out ++ [SWAP_ i (i + 1); g; SWAP_ i (i + 1)])
        else
          adjacent_ctrl_loop fuel' gname ctrl start end_ (i + 1)
            (out ++ [SWAP_ i (i + 1);
                     SWAP_ (start + end_ - i - 1) (start + end_ - i)])
      else Some out
  end.

(** The loop of the branch of the swap-like gates. *)
Fixpoint adjacent_swap_loop (fuel : nat) (gname : string) (start end_ i : Z)
    (out : list Gate) : option (list Gate) :=
  match fuel with
  | O => None
  | S fuel' =>
      if i <? end_ then
        if (start + end_ - i - i =? 1) && ((end_ - start + 1) mod 2 =? 0) then
          adjacent_swap_loop fuel' gname start end_ (i + 1)
            (out ++ [mkGate gname (Some [i; i + 1]) None None])
        else if (start + end_ - i - i =? 2) && ((end_ - start + 1) mod 2 =? 1)
        then
          adjacent_swap_loop fuel' gname start end_ (i + 1 + 1)
            (out ++ [SWAP_ i (i + 1);
                     mkGate gname (Some [i + 1; i + 2]) None None;
                     SWAP_ i (i + 1)])
        else
          adjacent_swap_loop fuel' gname start end_ (i + 1)
            (out ++ [SWAP_ i (i + 1);
                     SWAP_ (start + end_ - i - 1) (start + end_ - i)])
      else Some out
  end.

(** Iterations that always reach the exit of a loop over [start, end_). *)
Definition span_fuel (start end_ : Z) : nat := S (Z.to_nat (end_ - start)).

(** The body of [for gate in self.gates] on [temp.gates = out]. *)
Definition adjacent_gate (gate : Gate) (out : list Gate)
  : option (result (list Gate)) :=
  if String.eqb (name gate) "CNOT" || String.eqb (name gate) "CSIGN" then
    match subscript (targets gate) 0, subscript (controls gate) 0 with
    | Ok t0, Ok c0 =>
        let start := Z.min t0 c0 in
        let end_ := Z.max t0 c0 in
        option_map Ok
          (adjacent_ctrl_loop (span_fuel start end_) (name gate) c0
             start end_ start out)
    | Raise e, _ => Some (Raise e)
    | Ok _, Raise e => Some (Raise e)
    end
  else if inb (name gate) swap_gates then
    match subscript (targets gate) 0, subscript (targets gate) 1 with
    | Ok t0, Ok t1 =>
        let start := Z.min t0 t1 in
        let end_ := Z.max t0 t1 in
        option_map Ok
          (adjacent_swap_loop (span_fuel start end_) (name gate)
             start end_ start out)
    | Raise e, _ => Some (Raise e)
    | Ok _, Raise e => Some (Raise e)
    end
  else Some (Raise (NotImplementedError (AdjacentNotDefined (name gate)))).

Fixpoint adjacent_loop (gs : list Gate) (out : list Gate)
  : option (result (list Gate)) :=
  match gs with
  | [] => Some (Ok out)
  | gate :: tl =>
      match adjacent_gate gate out with
      | Some (Ok out') => adjacent_loop tl out'
      | other => other
      end
  end.

(** [QubitCircuit.adjacent_gates()]: the gates of the returned circuit;
    [None] only if a [while] loop did not finish. *)
Definition adjacent_gates (qc : QubitCircuit) : option (result (list Gate)) :=
  if (0 <? num_measurements (gates qc))%nat then
    Some (Raise (NotImplementedError MeasurementsPresent))
  else adjacent_loop (gates_of (gates qc)) [].

(** ** The services of the linear-algebra engine *)

(** What the simulator asks of qutip and numpy.  [Qobj] is the type of
    states and operators, [P] the type of probabilities ([float] in the
    source), [Rng] the state of the process-wide random source. *)
Class LinAlg (Qobj P Rng : Type) : Type := {
  isket : Qobj -> bool;                       (* [state.isket] *)
  ket2dm : Qobj -> Qobj;
  qmul : Qobj -> Qobj -> Qobj;                (* [A * B] *)
  dag : Qobj -> Qobj;                         (* [A.dag()] *)
  qscale : P -> Qobj -> Qobj;                 (* [p * A] *)
  qadd : Qobj -> Qobj -> Qobj;                (* [A + B] *)
  log2_dim : Qobj -> Z;                       (* [int(np.log2(A.shape[0]))] *)
  basis_proj : Z -> Qobj;          (* [basis(2, k) * basis(2, k).dag()] *)
  expand_operator : Qobj -> Z -> list Z -> Qobj;
  measurement_statistics : Qobj -> list Qobj -> list (option Qobj) * list P;
  p_of_Z : Z -> P;                            (* an [int] used as a number *)
  padd : P -> P -> P;
  pmul : P -> P -> P;
  pdiv : P -> P -> P;
  p_is_zero : P -> bool;                      (* [x == 0] *)
  random_choice : Rng -> list P -> result (Z * Rng)
    (* [np.random.choice([0, 1], p=probabilities)] *)
}.

(** ** Values of the simulator *)

(** A value of [self.state]: [None], the integer [0] (what [sum] returns on
    an empty sequence) or a [Qobj]. *)
Inductive PyState (Qobj : Type) : Type :=
| SNone
| SZero
| SObj (q : Qobj).

Arguments SNone {Qobj}.
Arguments SZero {Qobj}.
Arguments SObj {Qobj} q.

Definition is_none {Qobj : Type} (s : PyState Qobj) : bool :=
  match s with
  | SNone => true
  | _ => false
  end.

(** An element of [self.ops]. *)
Inductive Op (Qobj : Type) : Type :=
| OpMeasure (m : Measurement)
| OpCtrl (operation : Gate) (U : Qobj)   (* the tuple [(operation, U)] *)
| OpU (U : Qobj).

Arguments OpMeasure {Qobj} m.
Arguments OpCtrl {Qobj} operation U.
Arguments OpU {Qobj} U.

(** An element of [measure_results]: an [int], or a character of the strings
    [itertools.product("01", ...)] yields. *)
Inductive Tok : Type :=
| TInt (z : Z)
| TChr (c : ascii).

(** [int(tok)] *)
Definition py_int (t : Tok) : result Z :=
  match t with
  | TInt z => Ok z
  | TChr c =>
      let n := Z.of_nat (nat_of_ascii c) in
      if (48 <=? n) && (n <=? 57) then Ok (n - 48)
      else Raise (ValueError InvalidLiteral)
  end.

(** Truth value of an optional list: [None] and [[]] are false. *)
Definition truthy {A : Type} (x : option (list A)) : bool :=
  match x with
  | Some (_ :: _) => true
  | _ => false
  end.

(** [[f(x) for x in l]] where [f] may raise. *)
Fixpoint map_result {A B : Type} (f : A -> result B) (l : list A)
  : result (list B) :=
  match l with
  | [] => Ok []
  | x :: tl => y <- f x ;; ys <- map_result f tl ;; Ok (y :: ys)
  end.

(** [CircuitResult]; [result_cbits] is [None] when the attribute [cbits]
    was not set. *)
Record CircuitResult (Qobj P : Type) : Type := Build_CircuitResult {
  final_states : list (PyState Qobj);
  probabilities : list P;
  result_cbits : option (list (option (list Z)))
}.

(** The session of a [CircuitSimulator].  [cbits_shared] records that
    [self.cbits] is the very list object the caller passed, the one that a
    measurement then updates in place. *)
Record CircuitSimulator (Qobj P : Type) : Type := Build_CircuitSimulator {
  qc : QubitCircuit;
  mode : string;
  precompute_unitary : bool;
  ops : list (Op Qobj);
  state : PyState Qobj;
  probability : P;
  cbits : option (list Z);
  cbits_shared : bool;
  op_index : Z;
  measure_results : option (list Tok);
  measure_ind : Z
}.

(** Modelled from the spec: [Gate.get_all_qubits] of
    [qutip_qip.operations], the operand set of a gate (section 6): its
    controls followed by its targets. *)
Definition get_all_qubits (g : Gate) : list Z :=
  match controls g, targets g with
  | Some c, Some t => c ++ t
  | Some c, None => c
  | None, Some t => t
  | None, None => []
  end.

Section Simulator.

Context {Qobj P Rng : Type} {LA : LinAlg Qobj P Rng}.

Local Notation "'Sim'" := (CircuitSimulator Qobj P).
Local Notation "'Res'" := (CircuitResult Qobj P).

Definition set_state (sim : Sim) (s : PyState Qobj) : Sim :=
  Build_CircuitSimulator (qc sim) (mode sim) (precompute_unitary sim) (ops sim)
    s (probability sim) (cbits sim) (cbits_shared sim) (op_index sim)
    (measure_results sim) (measure_ind sim).

Definition set_probability (sim : Sim) (p : P) : Sim :=
  Build_CircuitSimulator (qc sim) (mode sim) (precompute_unitary sim) (ops sim)
    (state sim) p (cbits sim) (cbits_shared sim) (op_index sim)
    (measure_results sim) (measure_ind sim).

Definition set_cbits (sim : Sim) (c : option (list Z)) : Sim :=
  Build_CircuitSimulator (qc sim) (mode sim) (precompute_unitary sim) (ops sim)
    (state sim) (probability sim) c (cbits_shared sim) (op_index sim)
    (measure_results sim) (measure_ind sim).

Definition set_op_index (sim : Sim) (i : Z) : Sim :=
  Build_CircuitSimulator (qc sim) (mode sim) (precompute_unitary sim) (ops sim)
    (state sim) (probability sim) (cbits sim) (cbits_shared sim) i
    (measure_results sim) (measure_ind sim).

Definition set_measure_ind (sim : Sim) (i : Z) : Sim :=
  Build_CircuitSimulator (qc sim) (mode sim) (precompute_unitary sim) (ops sim)
    (state sim) (probability sim) (cbits sim) (cbits_shared sim) (op_index sim)
    (measure_results sim) i.

(** [CircuitResult.__init__], the branch of a single [Qobj] or [None].
    The integer [0] is neither: it reaches [len(final_states)] of the other
    branch, which raises. *)
Definition CircuitResult_one (final_state : PyState Qobj) (p : P)
    (cb : option (list Z)) : result Res :=
  match final_state with
  | SZero => Raise TypeError
  | _ => Ok (Build_CircuitResult [final_state] [p]
               (if truthy cb then Some [cb] else None))
  end.

(** [CircuitResult.__init__], the branch of lists: the indices whose state
    is not [None] select the entries of the three lists. *)
Definition CircuitResult_many (states : list (PyState Qobj)) (probs : list P)
    (cbs : list (option (list Z))) : result Res :=
  let inds :=
    filter (fun x => match py_index states x with
                     | Ok s => negb (is_none s)
                     | Raise _ => false
                     end)
           (map Z.of_nat (seq 0 (List.length states))) in
  fs <- map_result (py_index states) inds ;;
  ps <- map_result (py_index probs) inds ;;
  match cbs with
  | [] => Ok (Build_CircuitResult fs ps None)
  | _ :: _ =>
      cs <- map_result (py_index cbs) inds ;;
      Ok (Build_CircuitResult fs ps (Some cs))
  end.

(** [Measurement.measurement_comp_basis(state)] *)
Definition measurement_comp_basis (m : Measurement) (st : PyState Qobj)
  : result (list (option Qobj) * list P) :=
  match st with
  | SObj q =>
      let n := log2_dim q in
      match m_targets m with
      | None => Raise TypeError
      | Some tg =>
          target <- py_index tg 0 ;;
          if target <? n then
            Ok (measurement_statistics q
                  [expand_operator (basis_proj 0) n tg;
                   expand_operator (basis_proj 1) n tg])
          else Raise (ValueError TargetNotValid)
      end
  | _ => Raise AttributeError
  end.

(** [CircuitSimulator.initialize(state, cbits, measure_results)] *)
Definition initialize (sim : Sim) (st : option Qobj) (cb : option (list Z))
    (mr : option (list Tok)) : Sim :=
  let '(cb', shared) :=
    match cb with
    | Some l =>
        if truthy cb && (Z.of_nat (List.length l) =? num_cbits (qc sim))
        then (cb, true)
        else if 0 <? num_cbits (qc sim)
             then (Some (repeat 0 (Z.to_nat (num_cbits (qc sim)))), false)
             else (None, false)
    | None =>
        if 0 <? num_cbits (qc sim)
        then (Some (repeat 0 (Z.to_nat (num_cbits (qc sim)))), false)
        else (None, false)
    end in
  let st' :=
    match st with
    | None => SNone
    | Some q =>
        if String.eqb (mode sim) "density_matrix_simulator" && isket q
        then SObj (ket2dm q)
        else SObj q
    end in
  Build_CircuitSimulator (qc sim) (mode sim) (precompute_unitary sim) (ops sim)
    st' (p_of_Z 1) cb' shared 0 mr 0.

(** [self.state = U * self.state] *)
Definition _evolve_ket (sim : Sim) (U : Qobj) : result Sim :=
  match state sim with
  | SObj q => Ok (set_state sim (SObj (qmul U q)))
  | SZero => Ok (set_state sim (SObj (qscale (p_of_Z 0) U)))
  | SNone => Raise TypeError
  end.

(** [self.state = U * self.state * U.dag()] *)
Definition _evolve_dm (sim : Sim) (U : Qobj) : result Sim :=
  match state sim with
  | SObj q => Ok (set_state sim (SObj (qmul (qmul U q) (dag U))))
  | SZero =>
      Ok (set_state sim (SObj (qmul (qscale (p_of_Z 0) U) (dag U))))
  | SNone => Raise TypeError
  end.

Definition _evolve_state (sim : Sim) (U : Qobj) : result Sim :=
  if String.eqb (mode sim) "state_vector_simulator" then _evolve_ket sim U
  else if String.eqb (mode sim) "density_matrix_simulator" then _evolve_dm sim U
  else Raise (NotImplementedError (ModeNotAvailable (mode sim))).

(** [sum(...)] of Python: starts from the integer [0]. *)
Definition py_sum_P (l : list P) : P := fold_left padd l (p_of_Z 0).

Definition py_sum_states (l : list Qobj) : PyState Qobj :=
  fold_left (fun acc x => match acc with
                          | SObj a => SObj (qadd a x)
                          | _ => SObj x
                          end) l SZero.

(** The states that are not [None]. *)
Fixpoint filter_not_none (l : list (option Qobj)) : list Qobj :=
  match l with
  | [] => []
  | Some q :: tl => q :: filter_not_none tl
  | None :: tl => filter_not_none tl
  end.

(** [CircuitSimulator._apply_measurement(operation)] *)
Definition _apply_measurement (sim : Sim) (operation : Measurement) (rng : Rng)
  : result (Sim * Rng) :=
  '(states, probs) <- measurement_comp_basis operation (state sim) ;;
  if String.eqb (mode sim) "state_vector_simulator" then
    '(i, probs', sim1, rng') <-
      (if truthy (measure_results sim) then
         tok <- subscript (measure_results sim) (measure_ind sim) ;;
         i <- py_int tok ;;
         Ok (i, probs, set_measure_ind sim (measure_ind sim + 1), rng)
       else
         let probs' := map (fun p => pdiv p (py_sum_P probs)) probs in
         '(i, rng') <- random_choice rng probs' ;;
         Ok (i, probs', sim, rng')) ;;
    p <- py_index probs' i ;;
    let sim2 := set_probability sim1 (pmul (probability sim1) p) in
    s <- py_index states i ;;
    let sim3 := set_state sim2 (match s with
                                | Some q => SObj q
                                | None => SNone
                                end) in
    match classical_store operation with
    | None => Ok (sim3, rng')
    | Some store =>
        match cbits sim3 with
        | None => Raise TypeError
        | Some l =>
            l' <- py_setitem l store i ;;
            Ok (set_cbits sim3 (Some l'), rng')
        end
    end
  else if String.eqb (mode sim) "density_matrix_simulator" then
    let states' := filter_not_none states in
    let probs' := filter (fun x => negb (p_is_zero x)) probs in
    Ok (set_state sim
          (py_sum_states
             (map (fun sp => qscale (snd sp) (fst sp)) (combine states' probs'))),
        rng)
  else Raise (NotImplementedError (ModeNotAvailable (mode sim))).

(** [all([self.cbits[i] for i in operation.classical_controls])] *)
Definition classical_control_holds (sim : Sim) (operation : Gate)
  : result bool :=
  match classical_controls operation with
  | None => Raise TypeError
  | Some cc =>
      bits <- map_result (subscript (cbits sim)) cc ;;
      Ok (forallb (fun b => negb (b =? 0)) bits)
  end.

(** [CircuitSimulator.step()]; the returned [self.state] is the [state] of
    the new session. *)
Definition step (sim : Sim) (rng : Rng) : result (Sim * Rng) :=
  op <- py_index (ops sim) (op_index sim) ;;
  '(sim', rng') <-
    match op with
    | OpMeasure m => _apply_measurement sim m rng
    | OpCtrl operation U =>
        apply_gate <- classical_control_holds sim operation ;;
        if apply_gate then
          let U' := if precompute_unitary sim
                    then expand_operator U (N (qc sim)) (get_all_qubits operation)
                    else U in
          sim' <- _evolve_state sim U' ;; Ok (sim', rng)
        else Ok (sim, rng)
    | OpU U => sim' <- _evolve_state sim U ;; Ok (sim', rng)
    end ;;
  Ok (set_op_index sim' (op_index sim' + 1), rng').

(** [for _ in range(n): if self.step() is None: break] *)
Fixpoint run_loop (n : nat) (sim : Sim) (rng : Rng) : result (Sim * Rng) :=
  match n with
  | O => Ok (sim, rng)
  | S n' =>
      '(sim', rng') <- step sim rng ;;
      if is_none (state sim') then Ok (sim', rng')
      else run_loop n' sim' rng'
  end.

(** [CircuitSimulator.run(state, cbits, measure_results)]: the result, the
    session it leaves and the random source. *)
Definition run (sim : Sim) (st : option Qobj) (cb : option (list Z))
    (mr : option (list Tok)) (rng : Rng) : result (Res * Sim * Rng) :=
  let sim0 := initialize sim st cb mr in
  '(sim', rng') <- run_loop (List.length (ops sim0)) sim0 rng ;;
  r <- CircuitResult_one (state sim') (probability sim') (cbits sim') ;;
  Ok (r, sim', rng').

(** [itertools.product("01", repeat=n)] *)
Fixpoint product01 (n : nat) : list (list Tok) :=
  match n with
  | O => [[]]
  | S n' =>
      flat_map (fun c => map (cons (TChr c)) (product01 n')) ["0"; "1"]%char
  end.

(** An element of [cbits_results]: a reference to the caller's list object,
    or a list that [initialize] created for one replay. *)
Inductive CbRef : Type :=
| RefCaller
| RefOwn (v : option (list Z)).

Definition deref (caller : option (list Z)) (r : CbRef) : option (list Z) :=
  match r with
  | RefCaller => caller
  | RefOwn v => v
  end.

(** The accumulators of [run_statistics]. *)
Record StatAcc : Type := Build_StatAcc {
  acc_sim : Sim;
  acc_caller : option (list Z);    (* the content of the caller's [cbits] *)
  acc_rng : Rng;
  acc_states : list (PyState Qobj);
  acc_probabilities : list P;
  acc_cbits_results : list CbRef
}.

(** [for results in product("01", repeat=num_measurements): ...] *)
Fixpoint run_statistics_loop (combos : list (list Tok)) (st : option Qobj)
    (a : StatAcc) : result StatAcc :=
  match combos with
  | [] => Ok a
  | results :: tl =>
      '(run_result, sim', rng') <-
        run (acc_sim a) st (acc_caller a) (Some results) (acc_rng a) ;;
      final_state <- py_index (final_states run_result) 0 ;;
      p <- py_index (probabilities run_result) 0 ;;
      run_statistics_loop tl st
        (Build_StatAcc sim'
           (if cbits_shared sim' then cbits sim' else acc_caller a)
           rng'
           (acc_states a ++ [final_state])
           (acc_probabilities a ++ [p])
           (acc_cbits_results a ++
              [if cbits_shared sim' then RefCaller else RefOwn (cbits sim')]))
  end.

(** [CircuitSimulator.run_statistics(state, cbits)] *)
Definition run_statistics (sim : Sim) (st : option Qobj) (cb : option (list Z))
    (rng : Rng) : result (Res * Sim * Rng) :=
  a <- run_statistics_loop (product01 (num_measurements (gates (qc sim)))) st
         (Build_StatAcc sim cb rng [] [] []) ;;
  r <- CircuitResult_many (acc_states a) (acc_probabilities a)
         (map (deref (acc_caller a)) (acc_cbits_results a)) ;;
  Ok (r, acc_sim a, acc_rng a).

(** [CircuitSimulator._process_ops()]: the operation list of a program and
    the list of its unitaries. *)
Fixpoint _process_ops (gs : list CircuitOp) (U_list : list Qobj)
    (U_list_index : Z) : result (list (Op Qobj)) :=
  match gs with
  | [] => Ok []
  | M m :: tl =>
      rest <- _process_ops tl U_list U_list_index ;;
      Ok (OpMeasure m :: rest)
  | G g :: tl =>
      U <- py_index U_list U_list_index ;;
      rest <- _process_ops tl U_list (U_list_index + 1) ;;
      Ok ((if truthy (classical_controls g) then OpCtrl g U else OpU U) :: rest)
  end.

(** [CircuitSimulator(qc, state, cbits, U_list, measure_results, mode)]
    with [precompute_unitary=False] and the unitaries [U_list] of the
    program. *)
Definition CircuitSimulator_init (c : QubitCircuit) (st : option Qobj)
    (cb : option (list Z)) (U_list : list Qobj) (mr : option (list Tok))
    (md : string) : result Sim :=
  os <- _process_ops (gates c) U_list 0 ;;
  Ok (initialize
        (Build_CircuitSimulator c md false os SNone (p_of_Z 1) None false 0
           None 0)
        st cb mr).

End Simulator.

(** ** Gate matrices on a one-qubit register *)

(** Complex numbers as pairs of reals and 2x2 complex matrices, enough to
    multiply out what the resolver emits for a one-qubit gate. *)
Module C2.

Definition C : Type := (R * R)%type.

Definition Cadd (a b : C) : C := (fst a + fst b, snd a + snd b)%R.
Definition Cmul (a b : C) : C :=
  (fst a * fst b - snd a * snd b, fst a * snd b + snd a * fst b)%R.
Definition C0 : C := (0, 0)%R.
Definition C1 : C := (1, 0)%R.
Definition Ci : C := (0, 1)%R.
Definition Cre (x : R) : C := (x, 0)%R.
(** [exp(1j * a)] *)
Definition Cexp (a : R) : C := (cos a, sin a).

(** Rows [(m00, m01)] and [(m10, m11)]. *)
Record M2 : Type := Build_M2 { m00 : C; m01 : C; m10 : C; m11 : C }.

Definition I2 : M2 := Build_M2 C1 C0 C0 C1.

Definition mmul (a b : M2) : M2 :=
  Build_M2 (Cadd (Cmul (m00 a) (m00 b)) (Cmul (m01 a) (m10 b)))
           (Cadd (Cmul (m00 a) (m01 b)) (Cmul (m01 a) (m11 b)))
           (Cadd (Cmul (m10 a) (m00 b)) (Cmul (m11 a) (m10 b)))
           (Cadd (Cmul (m10 a) (m01 b)) (Cmul (m11 a) (m11 b))).

Definition mscale (c : C) (a : M2) : M2 :=
  Build_M2 (Cmul c (m00 a)) (Cmul c (m01 a)) (Cmul c (m10 a)) (Cmul c (m11 a)).

(** Modelled from the spec: the matrices that the linear-algebra engine
    (section 6; [qutip_qip.operations], which is not part of the sources at
    hand) supplies for the one-qubit gates: the Pauli matrices, the
    rotations [exp(-i a/2 P)], the phase gate, the Hadamard gate and the
    square root of NOT. *)
Definition x_gate : M2 := Build_M2 C0 C1 C1 C0.
Definition y_gate : M2 := Build_M2 C0 (0, -1)%R Ci C0.
Definition z_gate : M2 := Build_M2 C1 C0 C0 (-1, 0)%R.
Definition rx (a : R) : M2 :=
  Build_M2 (Cre (cos (a / 2))) (0, - sin (a / 2))%R
           (0, - sin (a / 2))%R (Cre (cos (a / 2))).
Definition ry (a : R) : M2 :=
  Build_M2 (Cre (cos (a / 2))) (Cre (- sin (a / 2)))
           (Cre (sin (a / 2))) (Cre (cos (a / 2))).
Definition rz (a : R) : M2 :=
  Build_M2 (Cexp (- a / 2)) C0 C0 (Cexp (a / 2)).
Definition phasegate (a : R) : M2 := Build_M2 C1 C0 C0 (Cexp a).
Definition snot : M2 :=
  Build_M2 (Cre (/ sqrt 2)) (Cre (/ sqrt 2)) (Cre (/ sqrt 2))
           (Cre (- / sqrt 2)).
Definition sqrtnot : M2 :=
  Build_M2 (1 / 2, 1 / 2)%R (1 / 2, - (1 / 2))%R
           (1 / 2, - (1 / 2))%R (1 / 2, 1 / 2)%R.
(** [globalphase(a)] on one qubit: the scalar [exp(1j * a)]. *)
Definition globalphase (a : R) : M2 := mscale (Cexp a) I2.

(** The matrix of a gate acting on the only qubit of a one-qubit register;
    [None] for a gate that has none there. *)
Definition gate_matrix (g : Gate) : option M2 :=
  let nm := name g in
  if String.eqb nm "GLOBALPHASE" then option_map globalphase (arg_value g)
  else if String.eqb nm "RX" then option_map rx (arg_value g)
  else if String.eqb nm "RY" then option_map ry (arg_value g)
  else if String.eqb nm "RZ" then option_map rz (arg_value g)
  else if String.eqb nm "PHASEGATE" then option_map phasegate (arg_value g)
  else if String.eqb nm "X" then Some x_gate
  else if String.eqb nm "Y" then Some y_gate
  else if String.eqb nm "Z" then Some z_gate
  else if String.eqb nm "SNOT" then Some snot
  else if String.eqb nm "SQRTNOT" then Some sqrtnot
  else None.

(** [gate_sequence_product]: the first gate of the list acts first, so its
    matrix is the rightmost factor. *)
Fixpoint sequence_product (gs : list Gate) (acc : M2) : option M2 :=
  match gs with
  | [] => Some acc
  | g :: tl =>
      match gate_matrix g with
      | Some m => sequence_product tl (mmul m acc)
      | None => None
      end
  end.

(** [compute_unitary] of a one-qubit circuit. *)
Definition compute_unitary (gs : list Gate) : option M2 :=
  sequence_product gs I2.

End C2.

(** ** An engine with rational entries *)

(** Real matrices with entries in [Q], as lists of rows: an instance of
    [LinAlg] on which the simulator runs.  Every entry is kept reduced.
    The square root of a probability is exact on the squares of rationals,
    the only ones the examples meet.  The random source is the list of the
    uniform samples still to be drawn. *)
Module QEngine.

Definition mat : Type := list (list Q).

Definition qplus (a b : Q) : Q := Qred (Qplus a b).
Definition qtimes (a b : Q) : Q := Qred (Qmult a b).
Definition qover (a b : Q) : Q := Qred (Qdiv a b).
Definition qzero (a : Q) : bool := Qeq_bool a 0.

Definition dot (u v : list Q) : Q :=
  fold_left qplus (map (fun ab => qtimes (fst ab) (snd ab)) (combine u v)) 0%Q.

Fixpoint transpose_aux (width : nat) (a : mat) : mat :=
  match width with
  | O => []
  | S w =>
      map (fun row => hd 0%Q row) a :: transpose_aux w (map (@tl Q) a)
  end.

Definition transpose (a : mat) : mat :=
  transpose_aux (List.length (hd [] a)) a.

Definition mmul (a b : mat) : mat :=
  map (fun row => map (dot row) (transpose b)) a.

Definition mscale (p : Q) (a : mat) : mat := map (map (qtimes p)) a.

Definition madd (a b : mat) : mat :=
  map (fun rs => map (fun xy => qplus (fst xy) (snd xy))
                     (combine (fst rs) (snd rs)))
      (combine a b).

Definition is_ket (a : mat) : bool :=
  forallb (fun row => Nat.eqb (List.length row) 1) a.

Fixpoint identity_rows (n k : nat) : mat :=
  match k with
  | O => []
  | S k' =>
      identity_rows n k' ++
      [map (fun j => if Nat.eqb j k' then 1%Q else 0%Q) (seq 0 n)]
  end.

Definition identity (n : nat) : mat := identity_rows n n.

(** Kronecker product. *)
Definition kron (a b : mat) : mat :=
  flat_map (fun ra => map (fun rb => flat_map (fun x => map (qtimes x) rb) ra) b)
           a.

(** A one-qubit operator on qubit [t] of [n]; qubit 0 is the leftmost
    factor.  Other operand lists are not used by the examples. *)
Definition expand1 (op : mat) (n : Z) (tg : list Z) : mat :=
  match tg with
  | [t] =>
      kron (kron (identity (Z.to_nat (2 ^ t))) op)
           (identity (Z.to_nat (2 ^ (n - t - 1))))
  | _ => op
  end.

Definition proj (k : Z) : mat :=
  if k =? 0 then [[1%Q; 0%Q]; [0%Q; 0%Q]] else [[0%Q; 0%Q]; [0%Q; 1%Q]].

Definition trace (a : mat) : Q :=
  fold_left qplus
    (map (fun ir => nth (fst ir) (snd ir) 0%Q)
         (combine (seq 0 (List.length a)) a))
    0%Q.

Definition qsqrt (p : Q) : Q :=
  let r := Qred p in
  Qmake (Z.sqrt (Qnum r)) (Pos.sqrt (Qden r)).

(** [qutip.measurement.measurement_statistics] for projectors: the
    collapsed state of an outcome of probability zero is [None]. *)
Definition statistics (st : mat) (projs : list mat)
  : list (option mat) * list Q :=
  let one := fun op =>
    if is_ket st then
      let v := mmul op st in
      let p := dot (List.concat v) (List.concat v) in
      (if qzero p then None else Some (mscale (qover 1 (qsqrt p)) v), p)
    else
      let r := mmul (mmul op st) (transpose op) in
      let p := trace r in
      (if qzero p then None else Some (mscale (qover 1 p) r), p) in
  (map (fun op => fst (one op)) projs, map (fun op => snd (one op)) projs).

(** The inverse-transform draw of [np.random.choice([0, 1], p)]: with the
    uniform sample [u], outcome 0 when [u < p[0]], else outcome 1. *)
Definition choice (rng : list Q) (p : list Q) : result (Z * list Q) :=
  match rng, p with
  | u :: rest, [p0; _] =>
      Ok (if Qle_bool p0 u then 1 else 0, rest)
  | _, _ => Raise (ValueError InvalidProbabilities)
  end.

#[global] Instance engine : LinAlg mat Q (list Q) := {
  isket := is_ket;
  ket2dm := fun v => mmul v (transpose v);
  qmul := mmul;
  dag := transpose;
  qscale := mscale;
  qadd := madd;
  log2_dim := fun a => Z.log2 (Z.of_nat (List.length a));
  basis_proj := proj;
  expand_operator := expand1;
  measurement_statistics := statistics;
  p_of_Z := fun z => Qmake z 1;
  padd := qplus;
  pmul := qtimes;
  pdiv := qover;
  p_is_zero := qzero;
  random_choice := choice
}.

(** The NOT gate on one qubit. *)
Definition X_mat : mat := [[0%Q; 1%Q]; [1%Q; 0%Q]].

(** Kets of one qubit. *)
Definition ket0 : mat := [[1%Q]; [0%Q]].
Definition ket1 : mat := [[0%Q]; [1%Q]].
(** [(3|0> + 4|1>) / 5] *)
Definition ket34 : mat := [[Qmake 3 5]; [Qmake 4 5]].

(** The density operator of [(3|0> + 4|1>) / 5]. *)
Definition rho34 : mat :=
  [[Qmake 9 25; Qmake 12 25]; [Qmake 12 25; Qmake 16 25]].

End QEngine.

(** ** The statements of the specification, as definitions *)

(** The third rotation axis when [basis_1q] holds two of them. *)
Definition missing_axis (basis_1q : list string) : option string :=
  find (fun r => negb (inb r basis_1q)) ["RX"; "RY"; "RZ"].

(** The three-rotation identity of the final pass: two rotations about
    [outer] of angles -pi/2 and +pi/2 around a rotation about [middle] that
    carries the angle of the replaced gate. *)
Definition euler_substitution (outer middle : string) (g : Gate) : list Gate :=
  [rot outer (targets g) (- half_pi)%R;
   mkGate middle (targets g) None (arg_value g);
   rot outer (targets g) half_pi].

(** Operands of a gate that are two qubits one position apart. *)
Definition operands_adjacent (g : Gate) : bool :=
  match get_all_qubits g with
  | [a; b] => Z.abs (a - b) =? 1
  | _ => false
  end.

Definition adjacent (g : Gate) : Prop := operands_adjacent g = true.

(** A gate [adjacent_gates] has a branch for, with the operands the branch
    reads. *)
Definition linearizable (g : Gate) : bool :=
  if String.eqb (name g) "CNOT" || String.eqb (name g) "CSIGN" then
    match targets g, controls g with
    | Some (_ :: _), Some (_ :: _) => true
    | _, _ => false
    end
  else if inb (name g) swap_gates then
    match targets g with
    | Some (_ :: _ :: _) => true
    | _ => false
    end
  else false.

(** A program [adjacent_gates] accepts. *)
Definition accepted_by_adjacent_gates (qc : QubitCircuit) : bool :=
  forallb (fun o => match o with
                    | G g => linearizable g
                    | M _ => false
                    end) (gates qc).

(** The tokens of a basis request: two-qubit generators, one-qubit
    generators, and both together. *)
Definition is_2q (t : string) : bool := inb t basis_2q_valid.
Definition is_1q (t : string) : bool :=
  negb (inb t basis_2q_valid) && inb t basis_1q_valid.
Definition recognized (t : string) : bool := is_2q t || is_1q t.

(** The one-qubit generator set of a request: its one-qubit tokens, each
    of them once. *)
Definition generators_1q (l : list string) : list string :=
  nodup string_dec (filter is_1q l).

(** The rotation axes among the tokens of a request. *)
Definition rotation_axes (l : list string) : list string :=
  nodup string_dec (filter (fun t => inb t ["RX"; "RY"; "RZ"]) l).

Section SimulatorSpec.

Context {Qobj P Rng : Type} {LA : LinAlg Qobj P Rng}.

Local Notation "'Sim'" := (CircuitSimulator Qobj P).
Local Notation "'Res'" := (CircuitResult Qobj P).

(** The classical-control predicate as the specification words it: the
    k-th referenced bit must equal bit k of the required value (lowest bit
    first), which is [2 ** len(classical_controls) - 1] when the gate gives
    none. *)
Definition required_value (g : Gate) (n : nat) : Z :=
  match classical_control_value g with
  | Some v => v
  | None => 2 ^ Z.of_nat n - 1
  end.

Fixpoint control_bits_match (cb cc : list Z) (v : Z) (k : Z) : result bool :=
  match cc with
  | [] => Ok true
  | i :: tl =>
      b <- py_index cb i ;;
      rest <- control_bits_match cb tl v (k + 1) ;;
      Ok (Bool.eqb (negb (b =? 0)) (Z.testbit v k) && rest)
  end.

Definition classical_control_spec (cb : option (list Z)) (g : Gate)
  : result bool :=
  match cb, classical_controls g with
  | Some l, Some cc =>
      control_bits_match l cc (required_value g (List.length cc)) 0
  | _, _ => Raise TypeError
  end.

(** The candidates of nonzero probability, with their probabilities. *)
Fixpoint candidates_nonzero (states : list (option Qobj)) (probs : list P)
  : list (Qobj * P) :=
  match states, probs with
  | s :: st, p :: pt =>
      if p_is_zero p then candidates_nonzero st pt
      else match s with
           | Some q => (q, p) :: candidates_nonzero st pt
           | None => candidates_nonzero st pt
           end
  | _, _ => []
  end.

(** The probability-weighted sum over those candidates. *)
Definition mixed_ensemble (states : list (option Qobj)) (probs : list P)
  : PyState Qobj :=
  py_sum_states
    (map (fun sp => qscale (snd sp) (fst sp)) (candidates_nonzero states probs)).

(** What [measurement_statistics] guarantees: one probability per
    candidate, and a candidate is [None] exactly when its probability is
    zero. *)
Definition statistics_consistent (states : list (option Qobj)) (probs : list P)
  : Prop :=
  Forall2 (fun s p => s = None <-> p_is_zero p = true) states probs.

(** One outcome branch as the specification has it: a final state, the
    probability of the branch and the classical bits of that branch. *)
Record Outcome : Type := Build_Outcome {
  outcome_state : PyState Qobj;
  outcome_probability : P;
  outcome_cbits : option (list Z)
}.

(** The replays as the specification describes them: one replay of [run]
    per forced-outcome sequence, each from the same compiled program, the
    same initial state and the same initial classical bits [cb].  A replay
    hands nothing to the next one (the random source apart, which no forced
    measurement reads), and its branch carries the classical bits that this
    replay ends with. *)
Fixpoint independent_replays (combos : list (list Tok)) (st : option Qobj)
    (sim : Sim) (cb : option (list Z)) (rng : Rng)
  : result (list Outcome * Rng) :=
  match combos with
  | [] => Ok ([], rng)
  | results :: tl =>
      '(r, sim', rng') <- run sim st cb (Some results) rng ;;
      s <- py_index (final_states r) 0 ;;
      p <- py_index (probabilities r) 0 ;;
      '(bs, rng'') <- independent_replays tl st sim cb rng' ;;
      Ok (Build_Outcome s p (cbits sim') :: bs, rng'')
  end.

(** [run_statistics] as the specification describes it: every combination
    of forced outcomes over the measurements of the program is replayed,
    and the branches are collected into one result, from which a branch
    whose state is null is dropped whole. *)
Definition run_statistics_spec (sim : Sim) (st : option Qobj)
    (cb : option (list Z)) (rng : Rng) : result (Res * Rng) :=
  '(bs, rng') <-
    independent_replays (product01 (num_measurements (gates (qc sim)))) st
      sim cb rng ;;
  let kept := filter (fun b => negb (is_none (outcome_state b))) bs in
  Ok (Build_CircuitResult
        (map outcome_state kept) (map outcome_probability kept)
        (Some (map outcome_cbits kept)),
      rng').

(** A result with the random source put back next to it. *)
Definition with_rng {A : Type} (rng : Rng) (r : result A) : result (A * Rng) :=
  match r with
  | Ok a => Ok (a, rng)
  | Raise e => Raise e
  end.

(** Two outcomes that are the same value or the same exception, each
    with its random source as it was before the call. *)
Definition agree_up_to_rng {A : Type} (rng1 rng2 : Rng)
    (r1 r2 : result (A * Rng)) : Prop :=
  match r1, r2 with
  | Ok (a1, g1), Ok (a2, g2) => a1 = a2 /\ g1 = rng1 /\ g2 = rng2
  | Raise e1, Raise e2 => e1 = e2
  | _, _ => False
  end.

(** Two simulators compiled from the same program in the same way. *)
Definition same_program (s1 s2 : Sim) : Prop :=
  qc s1 = qc s2 /\ mode s1 = mode s2 /\
  precompute_unitary s1 = precompute_unitary s2 /\ ops s1 = ops s2.

End SimulatorSpec.

(** ** The loop of [run_statistics], branch by branch *)

Section StatisticsLoop.

Context {Qobj P Rng : Type} {LA : LinAlg Qobj P Rng}.

Local Notation "'Sim'" := (CircuitSimulator Qobj P).

(** What one pass of the loop of [run_statistics] appends to its three
    lists; the classical bits are the reference the code appends, to the
    list of the caller or to a list of the replay. *)
Record Branch : Type := Build_Branch {
  branch_state : PyState Qobj;
  branch_probability : P;
  branch_cbits : CbRef
}.

(** The loop [run_statistics_loop] with its three lists gathered into one
    list of branches: the session and the list of the caller go from one
    replay to the next as they do in the code. *)
Fixpoint replay_all (combos : list (list Tok)) (st : option Qobj) (sim : Sim)
    (caller : option (list Z)) (rng : Rng)
  : result (list Branch * Sim * option (list Z) * Rng) :=
  match combos with
  | [] => Ok ([], sim, caller, rng)
  | results :: tl =>
      '(r, sim', rng') <- run sim st caller (Some results) rng ;;
      s <- py_index (final_states r) 0 ;;
      p <- py_index (probabilities r) 0 ;;
      '(bs, sim'', caller'', rng'') <-
        replay_all tl st sim'
          (if cbits_shared sim' then cbits sim' else caller) rng' ;;
      Ok (Build_Branch s p
            (if cbits_shared sim' then RefCaller else RefOwn (cbits sim'))
          :: bs, sim'', caller'', rng'')
  end.

End StatisticsLoop.

(** A character of a forced-outcome sequence of [run_statistics]. *)
Definition is_bit_char (t : Tok) : Prop := t = TChr "0" \/ t = TChr "1".

(** ** Example programs *)

Module Examples.

(** [X] on qubit 0. *)
Definition x_on_0 : Gate := mkGate "X" (Some [0]) None None.
Definition qc_x : QubitCircuit := Build_QubitCircuit 1 0 [G x_on_0].

(** [RZ(1)] on qubit 0. *)
Definition rz_on_0 : Gate := rot "RZ" (Some [0]) 1%R.
Definition qc_rz : QubitCircuit := Build_QubitCircuit 1 0 [G rz_on_0].

(** [CNOT] with control 0 and target 3 on four qubits. *)
Definition qc_cnot_03 : QubitCircuit :=
  Build_QubitCircuit 4 0 [G (cnot (Some [3]) (Some [0]))].

Definition measure_0 (store : option Z) : Measurement :=
  Build_Measurement "M0" (Some [0]) store.

(** A program that already holds a measurement. *)
Definition qc_measured : QubitCircuit :=
  Build_QubitCircuit 1 1 [G x_on_0; M (measure_0 (Some 0))].

(** [X] on qubit 0, controlled on classical bit 0 with required value 0. *)
Definition x_if_c0_is_0 : Gate :=
  Build_Gate "X" (Some [0]) None None (Some [0]) None (Some 0).
Definition qc_ctrl : QubitCircuit := Build_QubitCircuit 1 1 [G x_if_c0_is_0].

(** One measurement of qubit 0, stored or not in classical bit 0. *)
Definition qc_measure (store : option Z) : QubitCircuit :=
  Build_QubitCircuit 1 (match store with Some _ => 1 | None => 0 end)
    [M (measure_0 store)].

(** Simulators of these programs on the rational engine. *)
Definition simulator (c : QubitCircuit) (U_list : list QEngine.mat)
    (md : string) : CircuitSimulator QEngine.mat Q :=
  match CircuitSimulator_init c None None U_list None md with
  | Ok s => s
  | Raise _ =>
      Build_CircuitSimulator c md false [] SNone 1%Q None false 0 None 0
  end.

Definition sim_ctrl : CircuitSimulator QEngine.mat Q :=
  simulator qc_ctrl [QEngine.X_mat] "state_vector_simulator".

Definition sim_measure_vec (store : option Z) : CircuitSimulator QEngine.mat Q :=
  simulator (qc_measure store) [] "state_vector_simulator".

Definition sim_measure_dm : CircuitSimulator QEngine.mat Q :=
  simulator (qc_measure None) [] "density_matrix_simulator".

(** [X] on qubit 0 controlled on classical bit 0, then a measurement of
    qubit 0 stored in that bit. *)
Definition x_if_c0 : Gate :=
  Build_Gate "X" (Some [0]) None None (Some [0]) None None.
Definition qc_ctrl_measure : QubitCircuit :=
  Build_QubitCircuit 1 1 [G x_if_c0; M (measure_0 (Some 0))].
Definition sim_ctrl_measure : CircuitSimulator QEngine.mat Q :=
  simulator qc_ctrl_measure [QEngine.X_mat] "state_vector_simulator".

End Examples.

(* ------------------------------------------------------------------ *)
(** * Part I, continued.  Definitions for further properties *)
(* ------------------------------------------------------------------ *)

From Stdlib Require Import FunctionalExtensionality.

Unset Implicit Arguments.

(** ** Further definitions: the adjacency linearizer *)

(** The two operands [adjacent_gates] reads of a gate: target and control
    of CNOT and CSIGN, the two targets of a swap-like gate. *)
Definition operand_pair (g : Gate) : option (Z * Z) :=
  if String.eqb (name g) "CNOT" || String.eqb (name g) "CSIGN" then
    match targets g, controls g with
    | Some (t0 :: _), Some (c0 :: _) => Some (t0, c0)
    | _, _ => None
    end
  else if inb (name g) swap_gates then
    match targets g with
    | Some (t0 :: t1 :: _) => Some (t0, t1)
    | _ => None
    end
  else None.

(** Number of gates the pass emits for one gate: none when the operands
    coincide, else [2 * distance - 1]. *)
Definition linearized_size (g : Gate) : Z :=
  match operand_pair g with
  | Some (a, b) => if a =? b then 0 else 2 * Z.abs (a - b) - 1
  | None => 0
  end.

(** Gates appended from line [i] on: [2 (end - i) - 1] before the operands
    have met, [2 (end - i)] after. *)
Definition gates_to_come (start end_ i : Z) : Z :=
  if 1 <=? start + end_ - i - i then 2 * (end_ - i) - 1 else 2 * (end_ - i).

(** The size of the circuit the pass returns. *)
Definition linearized_total (gs : list Gate) : Z :=
  fold_right (fun g n => linearized_size g + n) 0 gs.

(** The form in which the pass emits a gate: target and control as they
    are for CNOT and CSIGN, the two targets in increasing order for a
    swap-like gate; angle and classical controls are not copied. *)
Definition emitted_form (g : Gate) : Gate :=
  match operand_pair g with
  | Some (a, b) =>
      if String.eqb (name g) "CNOT" || String.eqb (name g) "CSIGN"
      then mkGate (name g) (Some [a]) (Some [b]) None
      else mkGate (name g) (Some [Z.min a b; Z.max a b]) None None
  | None => g
  end.

(** A gate on neighbouring qubits in emitted form. *)
Definition settled (g : Gate) : Prop :=
  (exists t c, (String.eqb (name g) "CNOT" || String.eqb (name g) "CSIGN") = true /\
               g = mkGate (name g) (Some [t]) (Some [c]) None /\
               Z.abs (t - c) = 1) \/
  (exists a, inb (name g) swap_gates = true /\
             g = mkGate (name g) (Some [a; a + 1]) None None).

(** *** Tracking the qubits through the swaps *)

(** [w p] is the qubit of the input circuit whose state sits on line [p]. *)
Definition wires : Type := Z -> Z.

(** The lines [a] and [b] exchange their content. *)
Definition exchange (a b : Z) (w : wires) : wires :=
  fun p => if p =? a then w b else if p =? b then w a else w p.

(** A gate with its operands named by the qubits that sit on its lines. *)
Definition relabel (w : wires) (g : Gate) : Gate :=
  Build_Gate (name g) (option_map (map w) (targets g))
    (option_map (map w) (controls g)) (arg_value g) (classical_controls g)
    (control_value g) (classical_control_value g).

(** Reading a circuit with the SWAP gates taken as exchanges of lines: the
    final placement of the qubits and the other gates, in order, each on
    the qubits it acts on. *)
Fixpoint route (gs : list Gate) (w : wires) (acted : list Gate)
  : wires * list Gate :=
  match gs with
  | [] => (w, acted)
  | g :: tl =>
      if String.eqb (name g) "SWAP" then
        match targets g, controls g with
        | Some [a; b], None => route tl (exchange a b w) acted
        | _, _ => route tl w (acted ++ [relabel w g])
        end
      else route tl w (acted ++ [relabel w g])
  end.

(** The placement met while the two operands travel towards each other:
    [x] sits on line [lo + k], [y] on line [hi - k], and the qubits they
    passed have moved one line outwards. *)
Definition placement (lo hi k x y : Z) : wires :=
  fun p =>
    if p =? lo + k then x
    else if p =? hi - k then y
    else if (lo <=? p) && (p <? lo + k) then p + 1
    else if (hi - k <? p) && (p <=? hi) then p - 1
    else p.

(** The two operands of a gate are different qubits. *)
Definition distinct_operands (g : Gate) : Prop :=
  match operand_pair g with
  | Some (a, b) => a <> b
  | None => True
  end.

(** ** Further definitions: the resolver *)

(** Names of the gates that the rules hand on unchanged. *)
Definition pass_names : list string :=
  ["IGNORED"; "RY"; "RZ"; "basis_2q"; "IDLE"; "CNOT"; "RX"].

(** A gate the rules of the resolver leave as it is: one they hand on, or a
    phase gate without classical control. *)
Definition stable (g : Gate) : Prop :=
  In (name g) pass_names \/
  exists tg ct arg, g = mkGate "GLOBALPHASE" tg ct arg.

(** The program made of the gates [gs], on the register of [qc]. *)
Definition with_gates (qc : QubitCircuit) (gs : list Gate) : QubitCircuit :=
  Build_QubitCircuit (N qc) (num_cbits qc) (map G gs).

Definition not_cnot (g : Gate) : Prop := name g <> "CNOT".

(** The one-qubit gates with a rule of their own and a matrix, X, Y and Z
    apart. *)
Definition exact_names : list string :=
  ["SNOT"; "SQRTNOT"; "PHASEGATE"; "RX"; "RY"; "RZ"; "GLOBALPHASE"].

Definition pauli_names : list string := ["X"; "Y"; "Z"].

(** A rotation or a phase. *)
Definition plain (g : Gate) : Prop :=
  In (name g) ["GLOBALPHASE"; "RX"; "RY"; "RZ"].

(** The product of two circuits that may have no matrix; the first acts
    first. *)
Definition then_ (a b : option C2.M2) : option C2.M2 :=
  match a, b with
  | Some x, Some y => Some (C2.mmul y x)
  | _, _ => None
  end.

(** A multiple of the identity. *)
Definition scalar (m : option C2.M2) : Prop :=
  exists c, m = Some (C2.mscale c C2.I2).

(** A CNOT between two neighbouring qubits. *)
Definition neighbour_cnot (g : Gate) : Prop :=
  exists t c, g = cnot (Some [t]) (Some [c]) /\ Z.abs (t - c) = 1.

(** A gate named [nm] or SWAP. *)
Definition named_or_swap (nm : string) (g : Gate) : Prop :=
  name g = nm \/ name g = "SWAP".

(** ** Further definitions: the simulator *)

(** A classical-bit list that [initialize] adopts for a circuit of [n]
    classical bits: not empty and of length [n]. *)
Definition adoptable (cb : option (list Z)) (n : Z) : Prop :=
  truthy cb = true /\
  match cb with
  | Some l => Z.of_nat (List.length l) = n
  | None => False
  end.

Definition is_measure_op {Qobj : Type} (o : Op Qobj) : bool :=
  match o with
  | OpMeasure _ => true
  | _ => false
  end.

Section SimulatorMore.

Context {Qobj P Rng : Type} {LA : LinAlg Qobj P Rng}.

(** What a step never touches, and what it keeps of the classical bits. *)
Definition step_frame_of (sim sim' : CircuitSimulator Qobj P) : Prop :=
  qc sim' = qc sim /\ mode sim' = mode sim /\
  precompute_unitary sim' = precompute_unitary sim /\
  ops sim' = ops sim /\
  cbits_shared sim' = cbits_shared sim /\
  measure_results sim' = measure_results sim /\
  option_map (@List.length Z) (cbits sim')
  = option_map (@List.length Z) (cbits sim).

(** A session whose steps cannot depend on a measurement outcome: it runs
    in density-matrix mode, or its program holds no measurement. *)
Definition outcome_blind (sim : CircuitSimulator Qobj P) : Prop :=
  mode sim = "density_matrix_simulator" \/
  Forall (fun o => is_measure_op o = false) (ops sim).

(** The session with another forced-outcome sequence. *)
Definition set_measure_results (sim : CircuitSimulator Qobj P)
    (mr : option (list Tok)) : CircuitSimulator Qobj P :=
  Build_CircuitSimulator (qc sim) (mode sim) (precompute_unitary sim) (ops sim)
    (state sim) (probability sim) (cbits sim) (cbits_shared sim) (op_index sim)
    mr (measure_ind sim).

(** The outcome of a call with its session given another forced-outcome
    sequence and its random source replaced. *)
Definition reforced {A : Type} (mr : option (list Tok)) (rng : Rng)
    (r : result (A * CircuitSimulator Qobj P * Rng))
  : result (A * CircuitSimulator Qobj P * Rng) :=
  match r with
  | Ok (a, s, _) => Ok (a, set_measure_results s mr, rng)
  | Raise e => Raise e
  end.

Definition reforced_step (mr : option (list Tok)) (rng : Rng)
    (r : result (CircuitSimulator Qobj P * Rng))
  : result (CircuitSimulator Qobj P * Rng) :=
  match r with
  | Ok (s, _) => Ok (set_measure_results s mr, rng)
  | Raise e => Raise e
  end.

(** The branch of the specification that a pass of the loop stands for,
    the list of the caller being [caller]. *)
Definition outcome_of (caller : option (list Z)) (b : @Branch Qobj P)
  : @Outcome Qobj P :=
  Build_Outcome (branch_state b) (branch_probability b)
    (deref caller (branch_cbits b)).

End SimulatorMore.

(** ** [QubitCircuit.run] *)

Section CircuitRun.

Context {Qobj P Rng : Type} {LA : LinAlg Qobj P Rng}.

(** [state.isoper] of qutip. *)
Variable isoper : Qobj -> bool.

(** [qc.propagators(ignore_measurement=True)], whose matrices come from
    [qutip_qip.operations]. *)
Variable propagators : QubitCircuit -> result (list Qobj).

(** [CircuitSimulator(qc, state, cbits, U_list, measure_results, mode)]
    without precomputation: a list of unitaries that is [None] or empty is
    replaced by the propagators of the program. *)
Definition CircuitSimulator_new (c : QubitCircuit) (st : option Qobj)
    (cb : option (list Z)) (U_list : option (list Qobj))
    (mr : option (list Tok)) (md : string)
  : result (CircuitSimulator Qobj P) :=
  Us <- match U_list with
        | Some (U :: tl) => Ok (U :: tl)
        | _ => propagators c
        end ;;
  CircuitSimulator_init c st cb Us mr md.

(** The mode that [QubitCircuit.run] picks for a state. *)
Definition mode_of_state (state : Qobj) : result string :=
  if isket state then Ok "state_vector_simulator"
  else if isoper state then Ok "density_matrix_simulator"
  else Raise TypeError.

(** [QubitCircuit.run(state, cbits, U_list, measure_results)] with
    [precompute_unitary=False]: the final state and the random source. *)
Definition QubitCircuit_run (c : QubitCircuit) (state : Qobj)
    (cb : option (list Z)) (U_list : option (list Qobj))
    (mr : option (list Tok)) (rng : Rng) : result (PyState Qobj * Rng) :=
  md <- mode_of_state state ;;
  sim <- CircuitSimulator_new c (Some state) cb U_list mr md ;;
  '(r, _, rng') <- run sim (Some state) cb None rng ;;
  s <- py_index (final_states r) 0 ;;
  Ok (s, rng').

End CircuitRun.

(** ** The circuit builder *)

(** The exceptions of the builder methods: those of Python itself, the two
    [ValueError]s of [remove_gate_or_measurement], and the [KeyError] of a
    name that [GATE_CLASS_MAP] does not hold. *)
Inductive BuilderMsg : Type :=
| IndexExceedsOps    (* "Index exceeds number of gates + measurements." *)
| EndExceedsOps.     (* "End target exceeds number of gates + measurements." *)

Inductive Exn : Type :=
| ExPy (e : PyErr)
| ExValueError (m : BuilderMsg)
| ExKeyError.

Inductive outcome (A : Type) : Type :=
| Done (a : A)
| Fails (e : Exn).

Arguments Done {A} a.
Arguments Fails {A} e.

Definition and_then {A B : Type} (r : outcome A) (k : A -> outcome B)
  : outcome B :=
  match r with
  | Done a => k a
  | Fails e => Fails e
  end.

Definition lift {A : Type} (r : result A) : outcome A :=
  match r with
  | Ok a => Done a
  | Raise e => Fails (ExPy e)
  end.

(** [l.pop(i)]: the list without its element [i]; a negative index counts
    from the end, an index out of range raises. *)
Definition py_pop {A : Type} (l : list A) (i : Z) : outcome (list A) :=
  let n := Z.of_nat (List.length l) in
  let j := if i <? 0 then i + n else i in
  if (j <? 0) || (n <=? j) then Fails (ExPy IndexError)
  else Done (firstn (Z.to_nat j) l ++ skipn (S (Z.to_nat j)) l).

(** [l.insert(i, x)]: an index out of range is clipped. *)
Definition py_insert {A : Type} (l : list A) (i : Z) (x : A) : list A :=
  let n := Z.of_nat (List.length l) in
  let j := if i <? 0 then Z.max 0 (i + n) else Z.min i n in
  firstn (Z.to_nat j) l ++ x :: skipn (Z.to_nat j) l.

(** [range(n)] *)
Definition py_range (n : Z) : list Z := map Z.of_nat (seq 0 (Z.to_nat n)).

(** [circuit_op.name] *)
Definition op_name (o : CircuitOp) : string :=
  match o with
  | G g => name g
  | M m => m_name m
  end.

(** [for i in range(end - index): self.gates.pop(index + i)] *)
Fixpoint pop_each (l : list CircuitOp) (index : Z) (offsets : list Z)
  : outcome (list CircuitOp) :=
  match offsets with
  | [] => Done l
  | i :: tl => and_then (py_pop l (index + i)) (fun l' => pop_each l' index tl)
  end.

(** [l.remove(x)] for an [x] met while iterating over [l]: the first element
    that compares equal goes. *)
Fixpoint list_remove {A : Type} (eqb : A -> A -> bool) (x : A) (l : list A)
  : list A :=
  match l with
  | [] => []
  | y :: tl => if eqb y x then tl else y :: list_remove eqb x tl
  end.

(** [for circuit_op in self.gates: if name == circuit_op.name:
    self.gates.remove(circuit_op); break] *)
Fixpoint remove_first (eqb : CircuitOp -> CircuitOp -> bool) (nm : string)
    (rest all : list CircuitOp) : list CircuitOp :=
  match rest with
  | [] => all
  | o :: tl =>
      if String.eqb nm (op_name o) then list_remove eqb o all
      else remove_first eqb nm tl all
  end.

(** [for i in reversed(range(len(self.gates))): if name ==
    self.gates[i].name: self.gates.pop(i); break] *)
Fixpoint remove_last (nm : string) (indices : list Z) (l : list CircuitOp)
  : outcome (list CircuitOp) :=
  match indices with
  | [] => Done l
  | i :: tl =>
      and_then (lift (py_index l i)) (fun o =>
        if String.eqb nm (op_name o) then py_pop l i
        else remove_last nm tl l)
  end.

(** The same loop without [break]. *)
Fixpoint remove_all (nm : string) (indices : list Z) (l : list CircuitOp)
  : outcome (list CircuitOp) :=
  match indices with
  | [] => Done l
  | i :: tl =>
      and_then (lift (py_index l i)) (fun o =>
        if String.eqb nm (op_name o)
        then and_then (py_pop l i) (remove_all nm tl)
        else remove_all nm tl l)
  end.

(** [QubitCircuit.remove_gate_or_measurement(index, end, name, remove)]:
    the new value of [self.gates].  [eqb] is the comparison [==] of two
    entries of the program. *)
Definition remove_gate_or_measurement (eqb : CircuitOp -> CircuitOp -> bool)
    (qc : QubitCircuit) (index end_ : option Z) (nm : option string)
    (remove : string) : outcome (list CircuitOp) :=
  let len := Z.of_nat (List.length (gates qc)) in
  match index with
  | Some index =>
      if len <? index then Fails (ExValueError IndexExceedsOps)
      else
        match end_ with
        | Some e =>
            if e <=? len then pop_each (gates qc) index (py_range (e - index))
            else if N qc <? e then Fails (ExValueError EndExceedsOps)
            else py_pop (gates qc) index
        | None => py_pop (gates qc) index
        end
  | None =>
      match nm with
      | Some nm =>
          if String.eqb remove "first" then
            Done (remove_first eqb nm (gates qc) (gates qc))
          else if String.eqb remove "last" then
            remove_last nm (rev (py_range len)) (gates qc)
          else if String.eqb remove "all" then
            remove_all nm (rev (py_range len)) (gates qc)
          else py_pop (gates qc) (-1)
      | None => py_pop (gates qc) (-1)
      end
  end.

(** Modelled from the spec: [numpy.sort] on a list of integers, the
    ascending rearrangement of the list. *)
Fixpoint insert_sorted (z : Z) (l : list Z) : list Z :=
  match l with
  | [] => [z]
  | y :: tl => if z <=? y then z :: l else y :: insert_sorted z tl
  end.

Definition np_sort (l : list Z) : list Z := fold_right insert_sorted [] l.

(** [np.sort(index) + np.arange(len(index))] *)
Definition shifted_inds (index : list Z) : list Z :=
  map (fun pk => fst pk + snd pk)
      (combine (np_sort index) (py_range (Z.of_nat (List.length index)))).

(** [for position in positions: self.gates.insert(position, x)] *)
Fixpoint insert_each {A : Type} (l : list A) (x : A) (positions : list Z)
  : list A :=
  match positions with
  | [] => l
  | p :: tl => insert_each (py_insert l p x) x tl
  end.

(** [QubitCircuit.add_gate(gate, index=index)] for a [gate] that is an
    instance of [Gate]: the new value of [self.gates]. *)
Definition add_gate (gs : list CircuitOp) (gate : Gate)
    (index : option (list Z)) : list CircuitOp :=
  match index with
  | None => gs ++ [G gate]
  | Some idx => insert_each gs (G gate) (shifted_inds idx)
  end.

(** [QubitCircuit.add_gates(gates)] *)
Definition add_gates (gs : list CircuitOp) (new : list Gate)
  : list CircuitOp :=
  fold_left (fun acc g => add_gate acc g None) new gs.

(** The gates popped by the range form of [remove_gate_or_measurement]:
    [k] times, the first element goes and the next one stays. *)
Fixpoint drop_alternate {A : Type} (k : nat) (l : list A) : list A :=
  match k, l with
  | O, _ => l
  | S k', _ :: y :: tl => y :: drop_alternate k' tl
  | S _, _ => []
  end.

(** The list [l], whose first element stood at position [base], with [x]
    put in front of the elements that stood at the positions [ps]. *)
Fixpoint weave {A : Type} (x : A) (l : list A) (base : Z) (ps : list Z)
  : list A :=
  match ps with
  | [] => l
  | p :: tl =>
      firstn (Z.to_nat (p - base)) l
        ++ x :: weave x (skipn (Z.to_nat (p - base)) l) p tl
  end.

Section OneQubitGates.

(** The arguments [add_1q_gate] hands to a gate class, target apart. *)
Record GateArgs : Type := Build_GateArgs {
  ga_arg_value : option R;
  ga_classical_controls : option (list Z);
  ga_control_value : option Z;
  ga_classical_control_value : option Z
}.

(** [GATE_CLASS_MAP] of [qutip_qip.operations]: the class of a gate name,
    as the function from the target and the other arguments to the gate it
    builds or the exception it raises. *)
Variable gate_class_map : string -> option (Z -> GateArgs -> outcome Gate).

(** [for i in indices: gate = GATE_CLASS_MAP[name](targets=target(i), ...);
    self.gates.append(gate)] *)
Fixpoint add_1q_loop (nm : string) (target : Z -> result Z) (args : GateArgs)
    (indices : list Z) (gs : list CircuitOp) : outcome (list CircuitOp) :=
  match indices with
  | [] => Done gs
  | i :: tl =>
      match gate_class_map nm with
      | None => Fails ExKeyError
      | Some cls =>
          and_then (lift (target i)) (fun t =>
            and_then (cls t args) (fun gate =>
              add_1q_loop nm target args tl (gs ++ [G gate])))
      end
  end.

(** [QubitCircuit.add_1q_gate(name, start, end, qubits, ...)]: the new
    value of [self.gates]. *)
Definition add_1q_gate (qc : QubitCircuit) (nm : string) (start : Z)
    (end_ : option Z) (qubits : option (list Z)) (args : GateArgs)
  : outcome (list CircuitOp) :=
  match qubits with
  | Some qs => add_1q_loop nm (py_index qs) args qs (gates qc)
  | None =>
      let e := match end_ with
               | Some e => e
               | None => N qc - 1
               end in
      add_1q_loop nm (fun i => Ok i) args
        (map (Z.add start) (py_range (e + 1 - start))) (gates qc)
  end.

End OneQubitGates.

(** Positions in ascending order, none below [base]. *)
Fixpoint ascending_from (base : Z) (ps : list Z) : Prop :=
  match ps with
  | [] => True
  | p :: tl => base <= p /\ ascending_from p tl
  end.

(** A gate class that builds the gate with the attributes it is given. *)
Definition plain_class (nm : string) (t : Z) (args : GateArgs)
  : outcome Gate :=
  Done (Build_Gate nm (Some [t]) None (ga_arg_value args)
          (ga_classical_controls args) (ga_control_value args)
          (ga_classical_control_value args)).

(** ** Circuits with all their attributes *)

(** [reverse_circuit] builds a new [QubitCircuit] and new [Measurement]s,
    so that what it keeps and what it resets shows on attributes that the
    passes above never read.  The records of this module carry them all: a
    measurement with its [index], a circuit with [reverse_states], [dims],
    the labels of its states and its user gates.  A [Gate] is handed over
    as the object it is. *)
Module Whole.

(** [Measurement(name, targets, index, classical_store)] *)
Record Measurement : Type := Build_Measurement {
  name : string;
  targets : option (list Z);
  index : option (list Z);
  classical_store : option Z
}.

(** An entry of [QubitCircuit.gates]. *)
Inductive CircuitOp : Type :=
| G (g : Gate)
| M (m : Measurement).

Section Circuits.

(** The values of the dictionary [user_gates]. *)
Variable GateFunction : Type.

(** [QubitCircuit]; [user_gates] is the dictionary as the list of its
    items, the labels of the states are strings or [None]. *)
Record QubitCircuit : Type := Build_QubitCircuit {
  N : Z;
  reverse_states : bool;
  gates : list CircuitOp;
  dims : list Z;
  num_cbits : Z;
  input_states : list (option string);
  output_states : list (option string);
  user_gates : list (string * GateFunction)
}.

(** [QubitCircuit.__init__(N, input_states, output_states, reverse_states,
    user_gates, dims, num_cbits)], [user_gates] being [None] or a
    dictionary. *)
Definition QubitCircuit_init (N : Z)
    (input_states output_states : option (list (option string)))
    (reverse_states : bool)
    (user_gates : option (list (string * GateFunction)))
    (dims : option (list Z)) (num_cbits : Z) : QubitCircuit :=
  Build_QubitCircuit N reverse_states []
    (match dims with
     | Some d => d
     | None => repeat 2 (Z.to_nat N)
     end)
    num_cbits
    (match input_states with
     | Some (x :: l) => x :: l
     | _ => repeat None (Z.to_nat (N + num_cbits))
     end)
    (match output_states with
     | Some (x :: l) => x :: l
     | _ => repeat None (Z.to_nat (N + num_cbits))
     end)
    (match user_gates with
     | Some d => d
     | None => []
     end).

(** [self.gates.append(x)] *)
Definition append_op (qc : QubitCircuit) (x : CircuitOp) : QubitCircuit :=
  Build_QubitCircuit (N qc) (reverse_states qc) (gates qc ++ [x]) (dims qc)
    (num_cbits qc) (input_states qc) (output_states qc) (user_gates qc).

(** [QubitCircuit.add_gate(gate)] for a [gate] that is an instance of
    [Gate], no [index] given. *)
Definition add_gate (qc : QubitCircuit) (gate : Gate) : QubitCircuit :=
  append_op qc (G gate).

(** [QubitCircuit.add_measurement(measurement)] for a [measurement] that
    is an instance of [Measurement], no [index] given: a new measurement
    built from its name, targets and classical store. *)
Definition add_measurement (qc : QubitCircuit) (measurement : Measurement)
  : QubitCircuit :=
  append_op qc
    (M (Build_Measurement (name measurement) (targets measurement) None
          (classical_store measurement))).

(** [QubitCircuit.reverse_circuit()] *)
Definition reverse_circuit (qc : QubitCircuit) : QubitCircuit :=
  let temp :=
    QubitCircuit_init (N qc) (Some (input_states qc))
      (Some (output_states qc)) (reverse_states qc) None None (num_cbits qc) in
  fold_left (fun temp circuit_op =>
               match circuit_op with
               | G g => add_gate temp g
               | M m => add_measurement temp m
               end)
            (rev (gates qc)) temp.

(** An entry as [reverse_circuit] hands it over: a gate as it is, a
    measurement without its [index]. *)
Definition handed_over (o : CircuitOp) : CircuitOp :=
  match o with
  | G g => G g
  | M m => M (Build_Measurement (name m) (targets m) None (classical_store m))
  end.

(** An entry that holds no [index]. *)
Definition index_free (o : CircuitOp) : Prop :=
  match o with
  | G _ => True
  | M m => index m = None
  end.

(** The labels a new circuit takes from a list of labels. *)
Definition labels_or_default (n : Z) (l : list (option string))
  : list (option string) :=
  match l with
  | [] => repeat None (Z.to_nat n)
  | _ => l
  end.

(** The circuit with what two reversals leave of it. *)
Definition rebuilt (qc : QubitCircuit) : QubitCircuit :=
  Build_QubitCircuit (N qc) (reverse_states qc) (map handed_over (gates qc))
    (repeat 2 (Z.to_nat (N qc))) (num_cbits qc)
    (labels_or_default (N qc + num_cbits qc) (input_states qc))
    (labels_or_default (N qc + num_cbits qc) (output_states qc))
    [].

End Circuits.

Arguments Build_QubitCircuit {GateFunction} N reverse_states gates dims
  num_cbits input_states output_states user_gates.
Arguments N {GateFunction} q.
Arguments reverse_states {GateFunction} q.
Arguments gates {GateFunction} q.
Arguments dims {GateFunction} q.
Arguments num_cbits {GateFunction} q.
Arguments input_states {GateFunction} q.
Arguments output_states {GateFunction} q.
Arguments user_gates {GateFunction} q.
Arguments QubitCircuit_init {GateFunction} N input_states output_states
  reverse_states user_gates dims num_cbits.
Arguments append_op {GateFunction} qc x.
Arguments add_gate {GateFunction} qc gate.
Arguments add_measurement {GateFunction} qc measurement.
Arguments reverse_circuit {GateFunction} qc.
Arguments rebuilt {GateFunction} qc.

End Whole.

(** ** Operations compiled with precomputation *)

(** [l[a:b]] for [0 <= a]: the slice stops at the end of the list. *)
Definition py_slice {A : Type} (l : list A) (a b : Z) : list A :=
  firstn (Z.to_nat (b - a)) (skipn (Z.to_nat a) l).

(** What an entry of [self.ops] is made of: a group of consecutive
    unitaries with the qubits of their gates, a classically controlled gate
    with its unitary, or a measurement. *)
Inductive Segment (Qobj : Type) : Type :=
| SegGroup (Us : list Qobj) (inds : list (list Z))
| SegCtrl (operation : Gate) (U : Qobj)
| SegMeasure (m : Measurement).

Arguments SegGroup {Qobj} Us inds.
Arguments SegCtrl {Qobj} operation U.
Arguments SegMeasure {Qobj} m.

Definition segment_unitaries {Qobj : Type} (s : Segment Qobj) : list Qobj :=
  match s with
  | SegGroup Us _ => Us
  | SegCtrl _ U => [U]
  | SegMeasure _ => []
  end.

Definition segment_inds {Qobj : Type} (s : Segment Qobj) : list (list Z) :=
  match s with
  | SegGroup _ inds => inds
  | SegCtrl operation _ => [get_all_qubits operation]
  | SegMeasure _ => []
  end.

Definition segment_measurements {Qobj : Type} (s : Segment Qobj)
  : list Measurement :=
  match s with
  | SegMeasure m => [m]
  | _ => []
  end.

(** The measurements of a program, in order. *)
Fixpoint measurements_of (ops : list CircuitOp) : list Measurement :=
  match ops with
  | [] => []
  | M m :: tl => m :: measurements_of tl
  | G _ :: tl => measurements_of tl
  end.

Section Precompute.

Context {Qobj P Rng : Type} {LA : LinAlg Qobj P Rng}.

(** [gate_sequence_product(U_list, inds_list=inds_list, expand=True)] of
    [qutip_qip.operations]: the product and the qubits it acts on. *)
Variable gate_sequence_product :
  list Qobj -> list (list Z) -> result (Qobj * list Z).

(** [CircuitSimulator._compute_unitary(U_list, inds_list)] on a register
    of [n] qubits. *)
Definition _compute_unitary (n : Z) (U_list : list Qobj)
    (inds_list : list (list Z)) : result Qobj :=
  '(U_overall, overall_inds) <- gate_sequence_product U_list inds_list ;;
  if negb (Z.of_nat (List.length overall_inds) =? n)
  then Ok (expand_operator U_overall n overall_inds)
  else Ok U_overall.

(** [if U_list_index > prev_index: self.ops.append(self._compute_unitary(
    ...)); prev_index = U_list_index]: the new [ops] and [prev_index]. *)
Definition flush_group (n : Z) (U_list : list Qobj)
    (inds_list : list (list Z)) (prev_index U_list_index : Z)
    (ops : list (Op Qobj)) : result (list (Op Qobj) * Z) :=
  if prev_index <? U_list_index then
    U <- _compute_unitary n (py_slice U_list prev_index U_list_index)
           (py_slice inds_list prev_index U_list_index) ;;
    Ok (ops ++ [OpU U], U_list_index)
  else Ok (ops, prev_index).

(** The loop [for operation in self.qc.gates] of
    [_process_ops_precompute]; the state is
    [(self.ops, prev_index, U_list_index)]. *)
Fixpoint precompute_loop (n : Z) (gs : list CircuitOp) (U_list : list Qobj)
    (inds_list : list (list Z)) (prev_index U_list_index : Z)
    (ops : list (Op Qobj)) : result (list (Op Qobj) * Z * Z) :=
  match gs with
  | [] => Ok (ops, prev_index, U_list_index)
  | M m :: tl =>
      '(ops1, prev1) <-
        flush_group n U_list inds_list prev_index U_list_index ops ;;
      precompute_loop n tl U_list inds_list prev1 U_list_index
        (ops1 ++ [OpMeasure m])
  | G g :: tl =>
      if truthy (classical_controls g) then
        '(ops1, prev1) <-
          flush_group n U_list inds_list prev_index U_list_index ops ;;
        U <- py_index U_list prev1 ;;
        precompute_loop n tl U_list inds_list (prev1 + 1) (U_list_index + 1)
          (ops1 ++ [OpCtrl g U])
      else
        precompute_loop n tl U_list inds_list prev_index (U_list_index + 1)
          ops
  end.

(** [CircuitSimulator._process_ops_precompute()]: the operation list of a
    program and the list of its unitaries. *)
Definition _process_ops_precompute (c : QubitCircuit) (U_list : list Qobj)
  : result (list (Op Qobj)) :=
  let inds_list := map get_all_qubits (gates_of (gates c)) in
  '(ops, prev_index, U_list_index) <-
    precompute_loop (N c) (gates c) U_list inds_list 0 0 [] ;;
  '(ops', _) <-
    flush_group (N c) U_list inds_list prev_index U_list_index ops ;;
  Ok ops'.

(** An entry of [self.ops] made of a segment. *)
Definition realizes (n : Z) (s : Segment Qobj) (o : Op Qobj) : Prop :=
  match s with
  | SegGroup Us inds =>
      inds <> [] /\ exists U, _compute_unitary n Us inds = Ok U /\ o = OpU U
  | SegCtrl operation U =>
      truthy (classical_controls operation) = true /\ o = OpCtrl operation U
  | SegMeasure m => o = OpMeasure m
  end.

End Precompute.

(* ================================================================== *)
(** * Part II.  Properties *)
(* ================================================================== *)

Unset Implicit Arguments.

(** ** Measurements are rejected by both passes *)

Lemma num_measurements_pos (ops : list CircuitOp) (m : Measurement) :
  In (M m) ops -> (0 < num_measurements ops)%nat.
Proof.
  unfold num_measurements.
  induction ops as [|o tl IH]; simpl; intros Hin; [contradiction|].
  destruct Hin as [->|Hin]; simpl; [lia|].
  destruct (is_measurement o); simpl; auto with arith.
Qed.

Lemma num_measurements_zero (ops : list CircuitOp) :
  num_measurements ops = 0%nat -> forall m, ~ In (M m) ops.
Proof.
  intros Hz m Hin. apply num_measurements_pos in Hin. lia.
Qed.

(** C7.  A program that contains a measurement makes [resolve_gates] (for
    any basis request) and [adjacent_gates] raise the error of the class
    SequencingError; the raise is the whole outcome, no gate is returned. *)
Theorem decomposition_rejects_measurements
    (qc : QubitCircuit) (basis : BasisArg) (m : Measurement) :
  In (M m) (gates qc) ->
  resolve_gates qc basis = Raise (NotImplementedError MeasurementsPresent) /\
  adjacent_gates qc = Some (Raise (NotImplementedError MeasurementsPresent)) /\
  spec_error (NotImplementedError MeasurementsPresent) = SequencingError.
Proof.
  intros Hin. apply num_measurements_pos in Hin.
  unfold resolve_gates, adjacent_gates.
  destruct (Nat.ltb_spec 0 (num_measurements (gates qc))); [|lia].
  repeat split.
Qed.

Lemma decomposition_rejects_measurements_witness :
  In (M (Examples.measure_0 (Some 0))) (gates Examples.qc_measured) /\
  resolve_gates Examples.qc_measured default_basis
    = Raise (NotImplementedError MeasurementsPresent) /\
  adjacent_gates Examples.qc_measured
    = Some (Raise (NotImplementedError MeasurementsPresent)).
Proof.
  assert (H : In (M (Examples.measure_0 (Some 0))) (gates Examples.qc_measured))
    by (simpl; auto).
  split; [exact H|].
  destruct (decomposition_rejects_measurements Examples.qc_measured
              default_basis _ H) as (H1 & H2 & _).
  split; assumption.
Defined.

(** ** The basis request *)

Lemma split_basis_recognized (l b1 b2 : list string) :
  forallb recognized l = true ->
  split_basis l b1 b2 = Ok (b1 ++ filter is_1q l, b2 ++ filter is_2q l).
Proof.
  revert b1 b2.
  induction l as [|t tl IH]; cbn [split_basis forallb filter];
    intros b1 b2 Hall.
  - now rewrite !app_nil_r.
  - apply andb_true_iff in Hall. destruct Hall as [Ht Htl].
    unfold recognized, is_2q, is_1q in Ht |- *.
    destruct (inb t basis_2q_valid) eqn:E2; cbn [negb andb orb] in Ht |- *.
    + rewrite IH by assumption. now rewrite <- app_assoc.
    + rewrite Ht. rewrite IH by assumption. now rewrite <- app_assoc.
Qed.

Lemma split_basis_unrecognized (l b1 b2 : list string) :
  forallb recognized l = false ->
  exists t, In t l /\ recognized t = false /\
            split_basis l b1 b2 = Raise (NotImplementedError (NotValidBasisGate t)).
Proof.
  revert b1 b2.
  induction l as [|t tl IH]; cbn [split_basis forallb In];
    intros b1 b2 Hall.
  - discriminate.
  - unfold recognized at 1, is_2q, is_1q in Hall.
    destruct (inb t basis_2q_valid) eqn:E2; cbn [negb andb orb] in Hall.
    + destruct (IH b1 (b2 ++ [t]) Hall) as (u & Hin & Hu & Hs).
      exists u. auto.
    + destruct (inb t basis_1q_valid) eqn:E1; cbn [negb andb orb] in Hall.
      * destruct (IH (b1 ++ [t]) b2 Hall) as (u & Hin & Hu & Hs).
        exists u. auto.
      * exists t. unfold recognized, is_2q, is_1q. rewrite E2, E1. auto.
Qed.

(** What the code checks of a list-shaped request, on a program without
    measurements: a token that is not a recognized basis gate, or a list of
    one-qubit tokens of length one, makes [resolve_gates] raise an error of
    the class InvalidBasisError; with no one-qubit token the request is
    accepted and the one-qubit basis is RX, RY, RZ: the pass proceeds as it
    does when these three are listed. *)
Lemma basis_request_validation (qc : QubitCircuit) (l : list string) :
  num_measurements (gates qc) = 0%nat ->
  (forallb recognized l = false ->
     exists e, resolve_gates qc (BasisList l) = Raise e /\
               spec_error e = InvalidBasisError) /\
  (forallb recognized l = true -> List.length (filter is_1q l) = 1%nat ->
     exists e, resolve_gates qc (BasisList l) = Raise e /\
               spec_error e = InvalidBasisError) /\
  (forallb recognized l = true -> filter is_1q l = [] ->
     parse_basis (BasisList l) = Ok (["RX"; "RY"; "RZ"], filter is_2q l) /\
     resolve_gates qc (BasisList l)
       = resolve_body (gates_of (gates qc)) ["RX"; "RY"; "RZ"] (filter is_2q l) /\
     resolve_gates qc (BasisList l)
       = resolve_gates qc (BasisList (l ++ ["RX"; "RY"; "RZ"]))).
Proof.
  intros Hm. unfold resolve_gates. rewrite Hm. simpl Nat.ltb. cbv iota.
  repeat split.
  - intros Hbad.
    destruct (split_basis_unrecognized l [] [] Hbad) as (t & _ & _ & Hs).
    exists (NotImplementedError (NotValidBasisGate t)).
    unfold parse_basis. rewrite Hs. simpl. auto.
  - intros Hok Hone.
    exists (ValueError InsufficientSingleQubit).
    unfold parse_basis. rewrite (split_basis_recognized l [] [] Hok).
    simpl. rewrite Hone. simpl. auto.
  - unfold parse_basis. rewrite (split_basis_recognized l [] [] H).
    simpl. rewrite H0. reflexivity.
  - unfold parse_basis. rewrite (split_basis_recognized l [] [] H).
    simpl. rewrite H0. reflexivity.
  - assert (Hok' : forallb recognized (l ++ ["RX"; "RY"; "RZ"]) = true).
    { rewrite forallb_app, H. reflexivity. }
    unfold parse_basis.
    rewrite (split_basis_recognized l [] [] H).
    rewrite (split_basis_recognized _ [] [] Hok').
    simpl. rewrite !filter_app, H0. simpl. rewrite app_nil_r. reflexivity.
Qed.

Lemma basis_request_validation_witness :
  (exists e, resolve_gates Examples.qc_x (BasisList ["CNOT"; "RX"; "T"]) = Raise e /\
             spec_error e = InvalidBasisError) /\
  (exists e, resolve_gates Examples.qc_x (BasisList ["CNOT"; "RX"]) = Raise e /\
             spec_error e = InvalidBasisError) /\
  parse_basis (BasisList ["CSIGN"]) = Ok (["RX"; "RY"; "RZ"], ["CSIGN"]).
Proof.
  split; [|split].
  - destruct (basis_request_validation Examples.qc_x ["CNOT"; "RX"; "T"]
                eq_refl) as (H & _).
    exact (H eq_refl).
  - destruct (basis_request_validation Examples.qc_x ["CNOT"; "RX"]
                eq_refl) as (_ & H & _).
    exact (H eq_refl eq_refl).
  - destruct (basis_request_validation Examples.qc_x ["CSIGN"]
                eq_refl) as (_ & _ & H).
    exact (proj1 (H eq_refl eq_refl)).
Defined.

(** C8 fails on the code.  The request CNOT, RX, RX has the one-qubit
    generator set {RX}, of exactly one element, but its list of one-qubit
    tokens has length two: the test [len(basis_1q) == 1] does not see it,
    [resolve_gates] returns a program and, taking the final pass for a
    two-element set, rewrites a rotation about Z with a rotation about Y,
    which the request does not hold.  The request CNOT, RX, of the same
    generator set, raises the error of the class InvalidBasisError. *)
Theorem basis_request_repeated_token_accepted :
  generators_1q ["CNOT"; "RX"; "RX"] = ["RX"] /\
  parse_basis (BasisList ["CNOT"; "RX"; "RX"]) = Ok (["RX"; "RX"], ["CNOT"]) /\
  resolve_gates Examples.qc_rz (BasisList ["CNOT"; "RX"; "RX"])
    = Ok (euler_substitution "RX" "RY" Examples.rz_on_0) /\
  Exists (fun g => name g = "RY")
         (euler_substitution "RX" "RY" Examples.rz_on_0) /\
  generators_1q ["CNOT"; "RX"] = ["RX"] /\
  resolve_gates Examples.qc_rz (BasisList ["CNOT"; "RX"])
    = Raise (ValueError InsufficientSingleQubit) /\
  spec_error (ValueError InsufficientSingleQubit) = InvalidBasisError.
Proof.
  repeat split.
  apply Exists_cons_tl, Exists_cons_hd. reflexivity.
Qed.

(** ** The final one-qubit pass *)

Ltac final_pass_case c outer middle Hname :=
  exists c;
  split; [reflexivity|];
  split; [simpl; intros [H|[H|[]]]; discriminate|];
  split;
  [ intros Hc; exists outer, middle;
    split; [simpl; auto|];
    split; [simpl; auto|];
    split; [discriminate|];
    unfold final_1q_gate; rewrite Hc; reflexivity
  | intros Hc; unfold final_1q_gate;
    cbn [inb existsb String.eqb Ascii.eqb Bool.eqb negb andb orb];
    rewrite ?andb_false_r, ?andb_true_r;
    rewrite (Hname _ Hc); reflexivity ].

Lemma final_1q_gate_cases (a b : string) (g : Gate) :
  In a ["RX"; "RY"; "RZ"] -> In b ["RX"; "RY"; "RZ"] -> a <> b ->
  exists c,
    missing_axis [a; b] = Some c /\ ~ In c [a; b] /\
    (name g = c ->
       exists outer middle,
         In outer [a; b] /\ In middle [a; b] /\ outer <> middle /\
         final_1q_gate [a; b] g = euler_substitution outer middle g) /\
    (name g <> c -> final_1q_gate [a; b] g = [g]).
Proof.
  intros Ha Hb Hab.
  assert (Hname : forall s, name g <> s -> String.eqb (name g) s = false)
    by (intros s Hs; now apply String.eqb_neq).
  simpl in Ha, Hb.
  destruct Ha as [<-|[<-|[<-|[]]]]; destruct Hb as [<-|[<-|[<-|[]]]];
    try congruence.
  - final_pass_case "RZ" "RX" "RY" Hname.
  - final_pass_case "RY" "RZ" "RX" Hname.
  - final_pass_case "RZ" "RX" "RY" Hname.
  - final_pass_case "RX" "RY" "RZ" Hname.
  - final_pass_case "RY" "RZ" "RX" Hname.
  - final_pass_case "RX" "RY" "RZ" Hname.
Qed.

Lemma euler_substitution_names (outer middle : string) (g h : Gate) :
  In h (euler_substitution outer middle g) ->
  name h = outer \/ name h = middle.
Proof.
  unfold euler_substitution. simpl.
  intros [<-|[<-|[<-|[]]]]; simpl; auto.
Qed.

(** When the one-qubit tokens of the request are exactly
    two distinct names of RX, RY, RZ, the output of [resolve_gates] is the
    output of the earlier stages in which every gate named after the
    missing axis is replaced by three rotations about the two permitted
    axes, the outer two of angles -pi/2 and +pi/2 about one axis and the
    middle one about the other axis with the original angle, every other
    gate being kept as it is; no rotation about the missing axis is left. *)
Lemma final_pass_two_axes (qc : QubitCircuit) (l : list string)
    (a b : string) (basis_2q : list string) (out : list Gate) :
  parse_basis (BasisList l) = Ok ([a; b], basis_2q) ->
  In a ["RX"; "RY"; "RZ"] -> In b ["RX"; "RY"; "RZ"] -> a <> b ->
  resolve_gates qc (BasisList l) = Ok out ->
  exists c qc_gates temp_resolved mid,
    missing_axis [a; b] = Some c /\
    resolve_loop (gates_of (gates qc)) [a; b] basis_2q [] []
      = Ok (qc_gates, temp_resolved) /\
    resolve_2q_stage basis_2q qc_gates temp_resolved = Ok mid /\
    out = flat_map (final_1q_gate [a; b]) mid /\
    (forall g, name g = c ->
       exists outer middle,
         In outer [a; b] /\ In middle [a; b] /\ outer <> middle /\
         final_1q_gate [a; b] g = euler_substitution outer middle g) /\
    (forall g, name g <> c -> final_1q_gate [a; b] g = [g]) /\
    Forall (fun g => name g <> c) out.
Proof.
  intros Hparse Ha Hb Hab Hres.
  unfold resolve_gates in Hres.
  destruct (0 <? num_measurements (gates qc))%nat; [discriminate|].
  rewrite Hparse in Hres. cbn [bind] in Hres. unfold resolve_body in Hres.
  destruct (resolve_loop (gates_of (gates qc)) [a; b] basis_2q [] [])
    as [[qc_gates temp_resolved]|e] eqn:Hloop; [|discriminate].
  cbn [bind] in Hres.
  destruct (resolve_2q_stage basis_2q qc_gates temp_resolved)
    as [mid|e] eqn:Hmid; [|discriminate].
  cbn [bind] in Hres. injection Hres as <-.
  destruct (final_1q_gate_cases a b (mkGate "" None None None) Ha Hb Hab)
    as (c & Hc & Hnotin & _ & _).
  exists c, qc_gates, temp_resolved, mid.
  assert (Hg : forall g,
             (name g = c ->
              exists outer middle,
                In outer [a; b] /\ In middle [a; b] /\ outer <> middle /\
                final_1q_gate [a; b] g = euler_substitution outer middle g) /\
             (name g <> c -> final_1q_gate [a; b] g = [g])).
  { intros g.
    destruct (final_1q_gate_cases a b g Ha Hb Hab) as (c' & Hc' & _ & H1 & H2).
    rewrite Hc in Hc'. injection Hc' as <-. split; assumption. }
  repeat split; try assumption.
  - intros g; apply (Hg g).
  - intros g; apply (Hg g).
  - unfold final_1q_stage. cbn [List.length Nat.eqb].
    apply Forall_forall. intros h Hin.
    apply in_flat_map in Hin. destruct Hin as (g & _ & Hin).
    destruct (string_dec (name g) c) as [E|E].
    + destruct (proj1 (Hg g) E) as (outer & middle & Ho & Hm & _ & Hsub).
      rewrite Hsub in Hin. apply euler_substitution_names in Hin.
      intros Hh.
      destruct Hin as [Hn|Hn]; apply Hnotin; rewrite <- Hh, Hn; assumption.
    + rewrite (proj2 (Hg g) E) in Hin. destruct Hin as [<-|[]]. exact E.
Qed.

Lemma final_pass_two_axes_witness :
  resolve_gates Examples.qc_rz (BasisList ["RX"; "RY"])
    = Ok (euler_substitution "RX" "RY" Examples.rz_on_0) /\
  Forall (fun g => name g <> "RZ")
         (euler_substitution "RX" "RY" Examples.rz_on_0).
Proof.
  split; [reflexivity|].
  destruct (final_pass_two_axes Examples.qc_rz ["RX"; "RY"] "RX" "RY" []
              (euler_substitution "RX" "RY" Examples.rz_on_0) eq_refl)
    as (c & q & t & mid & Hc & _ & _ & _ & _ & _ & Hall).
  - simpl; auto.
  - simpl; auto.
  - discriminate.
  - reflexivity.
  - injection Hc as <-. exact Hall.
Defined.

(** C9 fails on the code.  The request RX, RY, IDLE has exactly two of
    RX, RY, RZ, so that a rotation about Z is to be replaced by three
    rotations about X and Y.  Its list of one-qubit tokens has length
    three, the test [len(basis_1q) == 2] of the final pass is false, and
    [resolve_gates] returns the rotation about Z as it is, outside the
    requested basis.  The request RX, RY, of the same two axes, takes the
    final pass: the same gate becomes three rotations about X and Y. *)
Theorem final_pass_skipped_with_idle :
  rotation_axes ["RX"; "RY"; "IDLE"] = ["RX"; "RY"] /\
  missing_axis ["RX"; "RY"; "IDLE"] = Some "RZ" /\
  parse_basis (BasisList ["RX"; "RY"; "IDLE"])
    = Ok (["RX"; "RY"; "IDLE"], []) /\
  resolve_gates Examples.qc_rz (BasisList ["RX"; "RY"; "IDLE"])
    = Ok [Examples.rz_on_0] /\
  name Examples.rz_on_0 = "RZ" /\
  rotation_axes ["RX"; "RY"] = ["RX"; "RY"] /\
  resolve_gates Examples.qc_rz (BasisList ["RX"; "RY"])
    = Ok (euler_substitution "RX" "RY" Examples.rz_on_0) /\
  Forall (fun g => name g <> "RZ")
         (euler_substitution "RX" "RY" Examples.rz_on_0).
Proof.
  repeat split.
  repeat constructor; discriminate.
Qed.

(** ** The adjacency linearizer *)

Lemma adjacent_targets (nm : string) (x y : Z) (arg : option R) :
  Z.abs (x - y) = 1 -> adjacent (mkGate nm (Some [x; y]) None arg).
Proof.
  intros H. unfold adjacent, operands_adjacent. simpl. now apply Z.eqb_eq.
Qed.

Lemma adjacent_control (nm : string) (t c : Z) (arg : option R) :
  Z.abs (c - t) = 1 -> adjacent (mkGate nm (Some [t]) (Some [c]) arg).
Proof.
  intros H. unfold adjacent, operands_adjacent. simpl. now apply Z.eqb_eq.
Qed.

Create HintDb adjacency.
#[local] Hint Resolve adjacent_targets adjacent_control : adjacency.
#[local] Hint Extern 1 (Z.abs _ = 1) => lia : adjacency.

Ltac adjacency_step IH :=
  eapply IH; [eassumption|];
  apply Forall_app; split; [assumption|];
  repeat (apply Forall_cons); try apply Forall_nil;
  unfold SWAP_; auto with adjacency.

(** Every gate a loop appends acts on two neighbouring qubits. *)
Lemma adjacent_ctrl_loop_adjacent (fuel : nat) (gname : string)
    (ctrl start end_ : Z) :
  forall (i : Z) (out r : list Gate),
    adjacent_ctrl_loop fuel gname ctrl start end_ i out = Some r ->
    Forall adjacent out -> Forall adjacent r.
Proof.
  induction fuel as [|fuel IH]; intros i out r; cbn [adjacent_ctrl_loop];
    [discriminate|].
  destruct (i <? end_); [|intros [= <-]; auto].
  destruct ((start + end_ - i - i =? 1) && ((end_ - start + 1) mod 2 =? 0)).
  - intros H Hout. destruct (end_ =? ctrl); adjacency_step IH.
  - destruct ((start + end_ - i - i =? 2) && ((end_ - start + 1) mod 2 =? 1));
      intros H Hout.
    + destruct (end_ =? ctrl); adjacency_step IH.
    + adjacency_step IH.
Qed.

Lemma adjacent_swap_loop_adjacent (fuel : nat) (gname : string)
    (start end_ : Z) :
  forall (i : Z) (out r : list Gate),
    adjacent_swap_loop fuel gname start end_ i out = Some r ->
    Forall adjacent out -> Forall adjacent r.
Proof.
  induction fuel as [|fuel IH]; intros i out r; cbn [adjacent_swap_loop];
    [discriminate|].
  destruct (i <? end_); [|intros [= <-]; auto].
  destruct ((start + end_ - i - i =? 1) && ((end_ - start + 1) mod 2 =? 0)).
  - intros H Hout. adjacency_step IH.
  - destruct ((start + end_ - i - i =? 2) && ((end_ - start + 1) mod 2 =? 1));
      intros H Hout; adjacency_step IH.
Qed.

(** The loops reach their exit within the fuel they are given. *)
Lemma adjacent_ctrl_loop_terminates (fuel : nat) (gname : string)
    (ctrl start end_ : Z) :
  forall (i : Z) (out : list Gate),
    (Z.to_nat (end_ - i) < fuel)%nat ->
    exists r, adjacent_ctrl_loop fuel gname ctrl start end_ i out = Some r.
Proof.
  induction fuel as [|fuel IH]; intros i out Hf; [lia|].
  cbn [adjacent_ctrl_loop].
  destruct (Z.ltb_spec i end_); [|eauto].
  destruct ((start + end_ - i - i =? 1) && ((end_ - start + 1) mod 2 =? 0));
    [apply IH; lia|].
  destruct ((start + end_ - i - i =? 2) && ((end_ - start + 1) mod 2 =? 1));
    apply IH; lia.
Qed.

Lemma adjacent_swap_loop_terminates (fuel : nat) (gname : string)
    (start end_ : Z) :
  forall (i : Z) (out : list Gate),
    (Z.to_nat (end_ - i) < fuel)%nat ->
    exists r, adjacent_swap_loop fuel gname start end_ i out = Some r.
Proof.
  induction fuel as [|fuel IH]; intros i out Hf; [lia|].
  cbn [adjacent_swap_loop].
  destruct (Z.ltb_spec i end_); [|eauto].
  destruct ((start + end_ - i - i =? 1) && ((end_ - start + 1) mod 2 =? 0));
    [apply IH; lia|].
  destruct ((start + end_ - i - i =? 2) && ((end_ - start + 1) mod 2 =? 1));
    apply IH; lia.
Qed.

(** The body of the [for] loop always finishes. *)
Lemma adjacent_gate_terminates (gate : Gate) (out : list Gate) :
  exists r, adjacent_gate gate out = Some r.
Proof.
  unfold adjacent_gate.
  destruct (String.eqb (name gate) "CNOT" || String.eqb (name gate) "CSIGN").
  - destruct (subscript (targets gate) 0) as [t0|e]; [|eauto].
    destruct (subscript (controls gate) 0) as [c0|e]; [|eauto].
    destruct (adjacent_ctrl_loop_terminates
                (span_fuel (Z.min t0 c0) (Z.max t0 c0)) (name gate) c0
                (Z.min t0 c0) (Z.max t0 c0) (Z.min t0 c0) out) as [r Hr].
    { unfold span_fuel. lia. }
    rewrite Hr. simpl. eauto.
  - destruct (inb (name gate) swap_gates); [|eauto].
    destruct (subscript (targets gate) 0) as [t0|e]; [|eauto].
    destruct (subscript (targets gate) 1) as [t1|e]; [|eauto].
    destruct (adjacent_swap_loop_terminates
                (span_fuel (Z.min t0 t1) (Z.max t0 t1)) (name gate)
                (Z.min t0 t1) (Z.max t0 t1) (Z.min t0 t1) out) as [r Hr].
    { unfold span_fuel. lia. }
    rewrite Hr. simpl. eauto.
Qed.

Lemma adjacent_gate_adjacent (gate : Gate) (out r : list Gate) :
  adjacent_gate gate out = Some (Ok r) ->
  Forall adjacent out -> Forall adjacent r.
Proof.
  unfold adjacent_gate.
  destruct (String.eqb (name gate) "CNOT" || String.eqb (name gate) "CSIGN").
  - destruct (subscript (targets gate) 0) as [t0|e]; [|discriminate].
    destruct (subscript (controls gate) 0) as [c0|e]; [|discriminate].
    destruct (adjacent_ctrl_loop _ _ _ _ _ _ _) as [r'|] eqn:E;
      [|discriminate].
    intros [= <-]. eapply adjacent_ctrl_loop_adjacent; eassumption.
  - destruct (inb (name gate) swap_gates); [|discriminate].
    destruct (subscript (targets gate) 0) as [t0|e]; [|discriminate].
    destruct (subscript (targets gate) 1) as [t1|e]; [|discriminate].
    destruct (adjacent_swap_loop _ _ _ _ _ _) as [r'|] eqn:E;
      [|discriminate].
    intros [= <-]. eapply adjacent_swap_loop_adjacent; eassumption.
Qed.

(** A gate with a branch and the operands it reads is accepted. *)
Lemma adjacent_gate_accepts (gate : Gate) (out : list Gate) :
  linearizable gate = true ->
  exists r, adjacent_gate gate out = Some (Ok r).
Proof.
  unfold linearizable. intros Hlin.
  destruct (adjacent_gate_terminates gate out) as [r Hr].
  revert Hr. unfold adjacent_gate.
  destruct (String.eqb (name gate) "CNOT" || String.eqb (name gate) "CSIGN").
  - destruct (targets gate) as [[|t0 ts]|]; try discriminate.
    destruct (controls gate) as [[|c0 cs]|]; try discriminate.
    cbn [subscript].
    replace (py_index (t0 :: ts) 0) with (Ok t0) by reflexivity.
    replace (py_index (c0 :: cs) 0) with (Ok c0) by reflexivity.
    destruct (adjacent_ctrl_loop _ _ _ _ _ _ _); simpl; [eauto|discriminate].
  - destruct (inb (name gate) swap_gates); [|discriminate].
    destruct (targets gate) as [[|t0 [|t1 ts]]|]; try discriminate.
    cbn [subscript].
    replace (py_index (t0 :: t1 :: ts) 0) with (Ok t0) by reflexivity.
    replace (py_index (t0 :: t1 :: ts) 1) with (Ok t1).
    + destruct (adjacent_swap_loop _ _ _ _ _ _); simpl; [eauto|discriminate].
    + unfold py_index. cbn [List.length].
      destruct (Z.ltb_spec 1 0); [lia|].
      destruct (Z.ltb_spec 1 0); [lia|].
      destruct (Z.leb_spec (Z.of_nat (S (S (List.length ts)))) 1); [lia|].
      reflexivity.
Qed.

Lemma adjacent_loop_total (gs : list Gate) :
  forall out, exists r, adjacent_loop gs out = Some r.
Proof.
  induction gs as [|g tl IH]; intros out; cbn [adjacent_loop]; [eauto|].
  destruct (adjacent_gate_terminates g out) as [[out'|e] Hr]; rewrite Hr;
    eauto.
Qed.

Lemma adjacent_loop_adjacent (gs : list Gate) :
  forall out r, adjacent_loop gs out = Some (Ok r) ->
                Forall adjacent out -> Forall adjacent r.
Proof.
  induction gs as [|g tl IH]; intros out r; cbn [adjacent_loop].
  - intros [= <-]. auto.
  - destruct (adjacent_gate g out) as [[out'|e]|] eqn:E; try discriminate.
    intros H Hout. eapply IH; [eassumption|].
    eapply adjacent_gate_adjacent; eassumption.
Qed.

Lemma adjacent_loop_accepts (gs : list Gate) :
  forallb linearizable gs = true ->
  forall out, exists r, adjacent_loop gs out = Some (Ok r).
Proof.
  induction gs as [|g tl IH]; cbn [forallb adjacent_loop]; intros Hall out;
    [eauto|].
  apply andb_true_iff in Hall. destruct Hall as [Hg Htl].
  destruct (adjacent_gate_accepts g out Hg) as [out' ->]. auto.
Qed.

Lemma accepted_gates (ops : list CircuitOp) :
  forallb (fun o => match o with
                    | G g => linearizable g
                    | M _ => false
                    end) ops = true ->
  num_measurements ops = 0%nat /\ forallb linearizable (gates_of ops) = true.
Proof.
  unfold num_measurements.
  induction ops as [|[g|m] tl IH]; cbn [forallb filter gates_of is_measurement];
    intros H; [auto| |discriminate].
  apply andb_true_iff in H. destruct H as [Hg Htl].
  destruct (IH Htl) as [H1 H2]. rewrite Hg, H2. auto.
Qed.

(** [adjacent_gates] returns or raises on every program: no loop of it
    runs out of steps. *)
Lemma adjacent_gates_total (qc : QubitCircuit) :
  exists r, adjacent_gates qc = Some r.
Proof.
  unfold adjacent_gates.
  destruct (0 <? num_measurements (gates qc))%nat; [eauto|].
  apply adjacent_loop_total.
Qed.

(** Whatever circuit [adjacent_gates] returns holds only gates on two
    neighbouring qubits. *)
Lemma adjacent_gates_result_adjacent (qc : QubitCircuit) (out : list Gate) :
  adjacent_gates qc = Some (Ok out) -> Forall adjacent out.
Proof.
  unfold adjacent_gates.
  destruct (0 <? num_measurements (gates qc))%nat; [discriminate|].
  intros H. eapply adjacent_loop_adjacent; [eassumption|constructor].
Qed.

(** C2.  On a program whose entries are all gates of CNOT, CSIGN, SWAP,
    ISWAP, SQRTISWAP, SQRTSWAP, BERKELEY, SWAPalpha (with the operands the
    pass reads), [adjacent_gates] returns a circuit, and every gate of that
    circuit has exactly two operand qubits, whose indices differ by
    exactly 1. *)
Theorem adjacent_gates_nearest_neighbour (qc : QubitCircuit) :
  accepted_by_adjacent_gates qc = true ->
  exists out,
    adjacent_gates qc = Some (Ok out) /\
    Forall (fun g => exists a b, get_all_qubits g = [a; b] /\ Z.abs (a - b) = 1)
           out.
Proof.
  intros Hacc. unfold accepted_by_adjacent_gates in Hacc.
  destruct (accepted_gates _ Hacc) as [Hm Hlin].
  assert (Hex : exists out, adjacent_gates qc = Some (Ok out)).
  { unfold adjacent_gates. rewrite Hm. simpl.
    apply adjacent_loop_accepts; assumption. }
  destruct Hex as [out Hout]. exists out. split; [assumption|].
  apply adjacent_gates_result_adjacent in Hout.
  eapply Forall_impl; [|exact Hout].
  intros g. unfold adjacent, operands_adjacent.
  destruct (get_all_qubits g) as [|a [|b [|c l]]]; try discriminate.
  intros H. exists a, b. split; [reflexivity|]. now apply Z.eqb_eq.
Qed.

Lemma adjacent_gates_nearest_neighbour_witness :
  exists out,
    adjacent_gates Examples.qc_cnot_03 = Some (Ok out) /\
    Forall (fun g => exists a b, get_all_qubits g = [a; b] /\ Z.abs (a - b) = 1)
           out.
Proof.
  apply (adjacent_gates_nearest_neighbour Examples.qc_cnot_03).
  reflexivity.
Defined.

(** The circuit of that example: two swaps on each side of a CNOT on
    qubits 1 and 2. *)
Example adjacent_gates_cnot_03 :
  adjacent_gates Examples.qc_cnot_03
    = Some (Ok [SWAP_ 0 1; SWAP_ 2 3;
                mkGate "CNOT" (Some [2]) (Some [1]) None;
                SWAP_ 2 3; SWAP_ 0 1]).
Proof. reflexivity. Qed.

(** ** Global phase of the resolved gates *)

Lemma M2_eq (a b : C2.M2) :
  C2.m00 a = C2.m00 b -> C2.m01 a = C2.m01 b ->
  C2.m10 a = C2.m10 b -> C2.m11 a = C2.m11 b -> a = b.
Proof.
  destruct a, b; simpl; intros; subst; reflexivity.
Qed.

Lemma C_eq (a b : C2.C) : fst a = fst b -> snd a = snd b -> a = b.
Proof.
  destruct a, b; simpl; intros; subst; reflexivity.
Qed.

Ltac matrix_eq :=
  apply M2_eq; apply C_eq; simpl; try lra.

Lemma cos_quarter : cos (PI / 2 / 2) = (/ sqrt 2)%R.
Proof.
  replace (PI / 2 / 2)%R with (PI / 4)%R by lra.
  rewrite cos_PI4. lra.
Qed.

Lemma sin_quarter : sin (PI / 2 / 2) = (/ sqrt 2)%R.
Proof.
  replace (PI / 2 / 2)%R with (PI / 4)%R by lra.
  rewrite sin_PI4. lra.
Qed.

Lemma inv_sqrt2_sq : (/ sqrt 2 * / sqrt 2 = 1 / 2)%R.
Proof.
  rewrite <- Rinv_mult. rewrite sqrt_sqrt by lra. lra.
Qed.

(** The rule of SQRTNOT is exact. *)
Lemma sqrtnot_rule_exact (g : Gate) (out : list Gate) :
  _gate_SQRTNOT g = Ok out -> C2.compute_unitary out = Some C2.sqrtnot.
Proof.
  intros [= <-]. unfold C2.compute_unitary. simpl. f_equal.
  pose proof inv_sqrt2_sq as Hs.
  apply M2_eq; apply C_eq; simpl;
    rewrite ?cos_quarter, ?sin_quarter;
    replace (PI / 4)%R with (PI / 2 / 2)%R by lra;
    rewrite ?cos_quarter, ?sin_quarter; nra.
Qed.

(** The rule of the Hadamard gate is exact. *)
Lemma snot_rule_exact (g : Gate) (out : list Gate) :
  _gate_SNOT g = Ok out -> C2.compute_unitary out = Some C2.snot.
Proof.
  intros [= <-]. unfold C2.compute_unitary, half_pi. simpl. f_equal.
  apply M2_eq; apply C_eq; simpl;
    rewrite ?cos_quarter, ?sin_quarter, ?cos_PI2, ?sin_PI2; lra.
Qed.

(** The rule of the phase gate is exact. *)
Lemma phasegate_rule_exact (g : Gate) (a : R) (out : list Gate) :
  arg_value g = Some a ->
  _gate_PHASEGATE g = Ok out -> C2.compute_unitary out = Some (C2.phasegate a).
Proof.
  intros Ha. unfold _gate_PHASEGATE. rewrite Ha. intros [= <-].
  unfold C2.compute_unitary. simpl. f_equal.
  assert (Hcn : cos (- a / 2) = cos (a / 2))
    by (replace (- a / 2)%R with (- (a / 2))%R by lra; apply cos_neg).
  assert (Hsn : sin (- a / 2) = (- sin (a / 2))%R)
    by (replace (- a / 2)%R with (- (a / 2))%R by lra; apply sin_neg).
  pose proof (sin2_cos2 (a / 2)) as Hsc. unfold Rsqr in Hsc.
  pose proof (cos_plus (a / 2) (a / 2)) as Hc.
  pose proof (sin_plus (a / 2) (a / 2)) as Hs.
  replace (a / 2 + a / 2)%R with a in Hc, Hs by lra.
  apply M2_eq; apply C_eq; simpl; rewrite ?Hcn, ?Hsn; nra.
Qed.

(** The three-rotation identities of the final pass are exact. *)
Lemma euler_substitution_exact (a : R) :
  C2.compute_unitary (euler_substitution "RY" "RZ" (rot "RX" (Some [0]) a))
    = Some (C2.rx a) /\
  C2.compute_unitary (euler_substitution "RZ" "RX" (rot "RY" (Some [0]) a))
    = Some (C2.ry a) /\
  C2.compute_unitary (euler_substitution "RX" "RY" (rot "RZ" (Some [0]) a))
    = Some (C2.rz a).
Proof.
  assert (Hcn : cos (- a / 2) = cos (a / 2))
    by (replace (- a / 2)%R with (- (a / 2))%R by lra; apply cos_neg).
  assert (Hsn : sin (- a / 2) = (- sin (a / 2))%R)
    by (replace (- a / 2)%R with (- (a / 2))%R by lra; apply sin_neg).
  assert (Hc4 : cos (- (PI / 2) / 2) = (/ sqrt 2)%R).
  { replace (- (PI / 2) / 2)%R with (- (PI / 2 / 2))%R by lra.
    rewrite cos_neg. apply cos_quarter. }
  assert (Hs4 : sin (- (PI / 2) / 2) = (- / sqrt 2)%R).
  { replace (- (PI / 2) / 2)%R with (- (PI / 2 / 2))%R by lra.
    rewrite sin_neg, sin_quarter. reflexivity. }
  assert (Hc4' : cos (- - (PI / 2) / 2) = (/ sqrt 2)%R).
  { replace (- - (PI / 2) / 2)%R with (PI / 2 / 2)%R by lra.
    apply cos_quarter. }
  assert (Hs4' : sin (- - (PI / 2) / 2) = (/ sqrt 2)%R).
  { replace (- - (PI / 2) / 2)%R with (PI / 2 / 2)%R by lra.
    apply sin_quarter. }
  pose proof inv_sqrt2_sq as Hsq.
  unfold C2.compute_unitary, euler_substitution, half_pi.
  repeat split; simpl; f_equal;
    apply M2_eq; apply C_eq; simpl;
    rewrite ?Hcn, ?Hsn, ?Hc4, ?Hs4, ?Hc4', ?Hs4', ?cos_quarter, ?sin_quarter;
    clear Hcn Hsn Hc4 Hs4 Hc4' Hs4'; revert Hsq;
    generalize (/ sqrt 2)%R; intros s Hsq;
    generalize (cos (a / 2)) (sin (a / 2)); intros c d;
    assert (Hc : (c * s * s = c / 2)%R) by (rewrite Rmult_assoc, Hsq; lra);
    assert (Hd : (d * s * s = d / 2)%R) by (rewrite Rmult_assoc, Hsq; lra);
    nra.
Qed.

(** [exp(i pi/2) RX(pi)] is the matrix of X, and [RX(pi)] alone is not. *)
Lemma phase_rx_pi_is_x :
  C2.compute_unitary [GLOBALPHASE (PI / 2)%R; rot "RX" (Some [0]) PI]
    = Some C2.x_gate.
Proof.
  unfold C2.compute_unitary. simpl. f_equal.
  apply M2_eq; apply C_eq; simpl; rewrite ?cos_PI2, ?sin_PI2; lra.
Qed.

Lemma rx_pi_is_not_x :
  C2.compute_unitary [rot "RX" (Some [0]) PI] <> Some C2.x_gate.
Proof.
  unfold C2.compute_unitary. simpl. intros H.
  injection H as _ _ H01r _ _ _ _ _.
  lra.
Qed.

(** C1 fails on the code.  For the one-gate program X on qubit 0 and the
    default basis CNOT, RX, RY, RZ, [resolve_gates] returns the single
    rotation RX(pi): the phase correction GLOBALPHASE(pi/2) it appended to
    the output circuit is overwritten, and the product of the returned
    sequence is not the matrix of X.  With CSIGN as two-qubit basis the
    same program keeps the phase and the product is the matrix of X. *)
Theorem resolve_gates_x_default_basis_loses_phase :
  resolve_gates Examples.qc_x default_basis
    = Ok [rot "RX" (Some [0]) PI] /\
  C2.compute_unitary [rot "RX" (Some [0]) PI]
    <> C2.compute_unitary [Examples.x_on_0] /\
  resolve_gates Examples.qc_x (BasisList ["CSIGN"; "RX"; "RY"; "RZ"])
    = Ok [GLOBALPHASE (PI / 2)%R; rot "RX" (Some [0]) PI] /\
  C2.compute_unitary [GLOBALPHASE (PI / 2)%R; rot "RX" (Some [0]) PI]
    = C2.compute_unitary [Examples.x_on_0].
Proof.
  split; [reflexivity|].
  split; [|split; [reflexivity|]].
  - replace (C2.compute_unitary [Examples.x_on_0]) with (Some C2.x_gate).
    + exact rx_pi_is_not_x.
    + unfold C2.compute_unitary. simpl. f_equal. matrix_eq.
  - rewrite phase_rx_pi_is_x.
    unfold C2.compute_unitary. simpl. f_equal. matrix_eq.
Qed.

(** ** The simulator *)

Section SimulatorFacts.

Context {Qobj P Rng : Type} {LA : LinAlg Qobj P Rng}.

Local Notation "'Sim'" := (CircuitSimulator Qobj P).
Local Notation "'Res'" := (CircuitResult Qobj P).

(** *** [initialize] *)

(** [initialize] reads the program, the mode and the compiled operations of
    the session, nothing of an earlier run. *)
Lemma initialize_same_program (s1 s2 : Sim) (st : option Qobj)
    (cb : option (list Z)) (mr : option (list Tok)) :
  same_program s1 s2 -> initialize s1 st cb mr = initialize s2 st cb mr.
Proof.
  intros (Hqc & Hmode & Hpre & Hops). unfold initialize.
  rewrite Hqc, Hmode, Hpre, Hops. reflexivity.
Qed.

Lemma initialize_measure_results (sim : Sim) (st : option Qobj)
    (cb : option (list Z)) (mr : option (list Tok)) :
  measure_results (initialize sim st cb mr) = mr.
Proof.
  unfold initialize.
  destruct cb as [l|];
    repeat match goal with
           | |- context [if ?c then _ else _] => destruct c
           end; reflexivity.
Qed.

(** C10.  A classical-bit list whose length is not the declared number of
    classical bits is ignored by [initialize]: the classical bits are all
    zero when the circuit declares some (and [None] otherwise), the list of
    the caller is not adopted, and the session, hence the whole [run], is
    the one obtained without any list.  [initialize] has no failing path. *)
Theorem initialize_ignores_mismatched_cbits (sim : Sim) (st : option Qobj)
    (l : list Z) (mr : option (list Tok)) :
  Z.of_nat (List.length l) <> num_cbits (qc sim) ->
  cbits (initialize sim st (Some l) mr)
    = (if 0 <? num_cbits (qc sim)
       then Some (repeat 0 (Z.to_nat (num_cbits (qc sim))))
       else None) /\
  cbits_shared (initialize sim st (Some l) mr) = false /\
  initialize sim st (Some l) mr = initialize sim st None mr /\
  (forall rng, run sim st (Some l) mr rng = run sim st None mr rng).
Proof.
  intros Hlen.
  assert (Hinit : initialize sim st (Some l) mr = initialize sim st None mr).
  { unfold initialize.
    destruct (Z.eqb_spec (Z.of_nat (List.length l)) (num_cbits (qc sim)));
      [contradiction|].
    rewrite andb_false_r. reflexivity. }
  repeat split.
  - rewrite Hinit. unfold initialize.
    destruct (0 <? num_cbits (qc sim)); reflexivity.
  - rewrite Hinit. unfold initialize.
    destruct (0 <? num_cbits (qc sim)); reflexivity.
  - exact Hinit.
  - intros rng. unfold run. rewrite Hinit. reflexivity.
Qed.

(** *** Measurement in density-matrix mode *)

Lemma candidates_of_filters (states : list (option Qobj)) (probs : list P) :
  statistics_consistent states probs ->
  combine (filter_not_none states)
          (filter (fun x => negb (p_is_zero x)) probs)
    = candidates_nonzero states probs.
Proof.
  induction 1 as [|s p states probs Hsp _ IH]; [reflexivity|].
  cbn [filter_not_none filter candidates_nonzero].
  destruct (p_is_zero p) eqn:Hz; cbn [negb].
  - rewrite (proj2 Hsp eq_refl). exact IH.
  - destruct s as [q|].
    + cbn [combine]. now rewrite IH.
    + pose proof (proj1 Hsp eq_refl) as Hz'. congruence.
Qed.

(** C5.  In density-matrix mode a measurement step succeeds whenever the
    statistics of the measurement are available, and then the new state is
    the probability-weighted sum over the candidates of nonzero probability;
    the accumulated probability, the classical bits, the cursor of the
    forced outcomes and the random source are left as they were. *)
Theorem density_measurement_step (sim : Sim) (m : Measurement) (rng : Rng)
    (states : list (option Qobj)) (probs : list P) :
  mode sim = "density_matrix_simulator" ->
  py_index (ops sim) (op_index sim) = Ok (OpMeasure m) ->
  measurement_comp_basis m (state sim) = Ok (states, probs) ->
  statistics_consistent states probs ->
  exists sim',
    step sim rng = Ok (sim', rng) /\
    state sim' = mixed_ensemble states probs /\
    probability sim' = probability sim /\
    cbits sim' = cbits sim /\
    cbits_shared sim' = cbits_shared sim /\
    measure_ind sim' = measure_ind sim /\
    op_index sim' = op_index sim + 1.
Proof.
  intros Hmode Hop Hstat Hcons.
  unfold step. rewrite Hop. cbn [bind].
  unfold _apply_measurement. rewrite Hstat. cbn [bind].
  rewrite Hmode. cbn [String.eqb Ascii.eqb Bool.eqb].
  rewrite (candidates_of_filters states probs Hcons).
  eexists. split; [reflexivity|].
  repeat split.
Qed.

(** *** Forced outcomes *)

Ltac case_scrutinee :=
  match goal with
  | |- context [match ?x with _ => _ end] =>
      lazymatch x with
      | context [match _ with _ => _ end] => fail
      | _ => destruct x eqn:?
      end
  end.

(** With a non-empty forced-outcome sequence a step does not look at the
    random source, and keeps the sequence. *)
Lemma step_forced (sim : Sim) (rng1 rng2 : Rng) :
  truthy (measure_results sim) = true ->
  agree_up_to_rng rng1 rng2 (step sim rng1) (step sim rng2) /\
  (forall s g, step sim rng1 = Ok (s, g) ->
               measure_results s = measure_results sim /\
               ops s = ops sim).
Proof.
  intros Hmr. unfold step, agree_up_to_rng.
  destruct (py_index (ops sim) (op_index sim)) as [op|e]; cbn [bind];
    [|split; [reflexivity|discriminate]].
  destruct op as [m|operation U|U].
  - unfold _apply_measurement.
    destruct (measurement_comp_basis m (state sim)) as [[states probs]|e];
      cbn [bind]; [|split; [reflexivity|discriminate]].
    destruct (String.eqb (mode sim) "state_vector_simulator").
    + rewrite Hmr.
      destruct (subscript (measure_results sim) (measure_ind sim)) as [tok|e];
        cbn [bind]; [|split; [reflexivity|discriminate]].
      destruct (py_int tok) as [i|e]; cbn [bind];
        [|split; [reflexivity|discriminate]].
      destruct (py_index probs i) as [p|e]; cbn [bind];
        [|split; [reflexivity|discriminate]].
      destruct (py_index states i) as [s|e]; cbn [bind];
        [|split; [reflexivity|discriminate]].
      destruct (classical_store m) as [store|]; cbn [bind].
      * cbn [cbits set_state set_probability set_measure_ind].
        destruct (cbits sim) as [l|]; cbn [bind];
          [|split; [reflexivity|discriminate]].
        destruct (py_setitem l store i) as [l'|e]; cbn [bind];
          [|split; [reflexivity|discriminate]].
        split; [auto|]. intros s0 g [= <- <-]. split; reflexivity.
      * split; [auto|]. intros s0 g [= <- <-]. split; reflexivity.
    + destruct (String.eqb (mode sim) "density_matrix_simulator");
        cbn [bind]; [|split; [reflexivity|discriminate]].
      split; [auto|]. intros s0 g [= <- <-]. split; reflexivity.
  - destruct (classical_control_holds sim operation) as [[|]|e]; cbn [bind];
      [| |split; [reflexivity|discriminate]].
    + unfold _evolve_state, _evolve_ket, _evolve_dm.
      repeat case_scrutinee; cbn [bind];
        try (split; [reflexivity|discriminate]);
        (split; [auto|]; intros s0 g [= <- <-]; split; reflexivity).
    + split; [auto|]. intros s0 g [= <- <-]. split; reflexivity.
  - unfold _evolve_state, _evolve_ket, _evolve_dm.
    repeat case_scrutinee; cbn [bind];
      try (split; [reflexivity|discriminate]);
      (split; [auto|]; intros s0 g [= <- <-]; split; reflexivity).
Qed.

Lemma run_loop_forced (n : nat) :
  forall (sim : Sim) (rng1 rng2 : Rng),
    truthy (measure_results sim) = true ->
    agree_up_to_rng rng1 rng2 (run_loop n sim rng1) (run_loop n sim rng2).
Proof.
  induction n as [|n IH]; intros sim rng1 rng2 Hmr; cbn [run_loop].
  - unfold agree_up_to_rng. auto.
  - destruct (step_forced sim rng1 rng2 Hmr) as [Hagree Hkeep].
    unfold agree_up_to_rng in Hagree.
    destruct (step sim rng1) as [[s1 g1]|e1];
      destruct (step sim rng2) as [[s2 g2]|e2]; cbn [bind];
      try contradiction.
    + destruct Hagree as (<- & -> & ->).
      destruct (is_none (state s1)).
      * unfold agree_up_to_rng. auto.
      * apply IH. destruct (Hkeep s1 rng1 eq_refl) as [-> _]. exact Hmr.
    + exact Hagree.
Qed.

(** C6, as amended.  Two calls of [run], on simulators of the same program,
    with the same initial state, the same initial classical bits and the
    same non-empty forced-outcome sequence end alike, whatever the random
    sources: both return the same result (final state, accumulated
    probability, classical bits) and leave the same session, or both raise
    the same exception; each random source is returned as it was given. *)
Theorem run_forced_deterministic (s1 s2 : Sim) (st : option Qobj)
    (cb : option (list Z)) (mr : option (list Tok)) (rng1 rng2 : Rng) :
  same_program s1 s2 ->
  truthy mr = true ->
  agree_up_to_rng rng1 rng2 (run s1 st cb mr rng1) (run s2 st cb mr rng2).
Proof.
  intros Hsame Hmr. unfold run.
  rewrite (initialize_same_program s1 s2 st cb mr Hsame).
  pose proof (run_loop_forced
                (List.length (ops (initialize s2 st cb mr)))
                (initialize s2 st cb mr) rng1 rng2) as Hloop.
  rewrite initialize_measure_results in Hloop. specialize (Hloop Hmr).
  unfold agree_up_to_rng in Hloop |- *.
  destruct (run_loop _ _ rng1) as [[a1 g1]|e1];
    destruct (run_loop _ _ rng2) as [[a2 g2]|e2]; cbn [bind];
    try contradiction.
  - destruct Hloop as (<- & -> & ->).
    destruct (CircuitResult_one (state a1) (probability a1) (cbits a1));
      cbn [bind]; auto.
  - exact Hloop.
Qed.

(** *** The forced-outcome sequences of [run_statistics] *)

Lemma product01_step (n : nat) :
  product01 (S n)
    = map (cons (TChr "0")) (product01 n) ++ map (cons (TChr "1")) (product01 n).
Proof.
  cbn [product01 flat_map]. now rewrite app_nil_r.
Qed.

Lemma product01_length (n : nat) : List.length (product01 n) = (2 ^ n)%nat.
Proof.
  induction n as [|n IH]; [reflexivity|].
  rewrite product01_step, length_app, !length_map, IH. simpl. lia.
Qed.

Lemma product01_not_nil (n : nat) : product01 n <> [].
Proof.
  intros H. apply (f_equal (@List.length _)) in H.
  rewrite product01_length in H. simpl in H.
  pose proof (Nat.pow_nonzero 2 n). lia.
Qed.

Lemma product01_complete (n : nat) (w : list Tok) :
  In w (product01 n) <-> List.length w = n /\ Forall is_bit_char w.
Proof.
  revert w. induction n as [|n IH]; intros w.
  - simpl. split.
    + intros [<-|[]]. split; [reflexivity|constructor].
    + intros [Hl _]. destruct w; [auto|discriminate].
  - rewrite product01_step, in_app_iff, !in_map_iff. split.
    + intros [(v & <- & Hv)|(v & <- & Hv)]; apply IH in Hv;
        destruct Hv as [Hl Hb]; (split; [simpl; lia|]);
        constructor; unfold is_bit_char; auto.
    + intros [Hl Hb]. destruct w as [|t v]; [discriminate|].
      inversion Hb as [|? ? Ht Hv]; subst.
      assert (Hin : In v (product01 n)) by (apply IH; split; [simpl in Hl; lia|auto]).
      destruct Ht as [->| ->]; [left|right]; exists v; auto.
Qed.

Lemma NoDup_map_cons (t : Tok) (l : list (list Tok)) :
  NoDup l -> NoDup (map (cons t) l).
Proof.
  induction 1 as [|x l Hx _ IH]; cbn [map]; constructor; [|exact IH].
  rewrite in_map_iff. intros (y & [= ->] & Hy). contradiction.
Qed.

Lemma product01_NoDup (n : nat) : NoDup (product01 n).
Proof.
  induction n as [|n IH].
  - simpl. constructor; [intros []|constructor].
  - rewrite product01_step.
    apply NoDup_app; try (apply NoDup_map_cons; exact IH).
    intros w. rewrite !in_map_iff.
    intros (u & <- & _) (v & [=] & _).
Qed.

(** *** [run_statistics] *)

(** The three accumulators of the loop hold the branches of the replays. *)
Lemma run_statistics_loop_replays (combos : list (list Tok)) (st : option Qobj) :
  forall a : StatAcc,
    run_statistics_loop combos st a
    = ('(bs, sim', caller', rng') <-
         replay_all combos st (acc_sim a) (acc_caller a) (acc_rng a) ;;
       Ok (Build_StatAcc sim' caller' rng'
             (acc_states a ++ map branch_state bs)
             (acc_probabilities a ++ map branch_probability bs)
             (acc_cbits_results a ++ map branch_cbits bs))).
Proof.
  induction combos as [|results tl IH]; intros a;
    cbn [run_statistics_loop replay_all bind].
  - destruct a. cbn. now rewrite !app_nil_r.
  - destruct (run (acc_sim a) st (acc_caller a) (Some results) (acc_rng a))
      as [[[r sim'] rng']|e]; cbn [bind]; [|reflexivity].
    destruct (py_index (final_states r) 0) as [s|e]; cbn [bind];
      [|reflexivity].
    destruct (py_index (probabilities r) 0) as [p|e]; cbn [bind];
      [|reflexivity].
    rewrite IH.
    cbn [acc_sim acc_caller acc_rng acc_states acc_probabilities
         acc_cbits_results].
    destruct (replay_all tl st sim' _ rng') as [[[[bs sim''] caller''] rng'']|e];
      cbn [bind map]; [|reflexivity].
    now rewrite <- !app_assoc.
Qed.

Lemma replay_all_length (combos : list (list Tok)) (st : option Qobj) :
  forall sim caller rng bs sim' caller' rng',
    replay_all combos st sim caller rng = Ok (bs, sim', caller', rng') ->
    List.length bs = List.length combos.
Proof.
  induction combos as [|results tl IH]; intros sim caller rng bs sim' caller'
    rng'; cbn [replay_all bind].
  - intros [= <- _ _ _]. reflexivity.
  - destruct (run sim st caller (Some results) rng)
      as [[[r s1] g1]|e]; cbn [bind]; [|discriminate].
    destruct (py_index (final_states r) 0) as [s|e]; cbn [bind];
      [|discriminate].
    destruct (py_index (probabilities r) 0) as [p|e]; cbn [bind];
      [|discriminate].
    destruct (replay_all tl st s1 _ g1) as [[[[bs1 s2] c2] g2]|e] eqn:E;
      cbn [bind]; [|discriminate].
    intros [= <- _ _ _]. cbn [List.length]. f_equal. eapply IH. exact E.
Qed.

End SimulatorFacts.

(** *** Selection by index *)

Lemma py_index_middle {A : Type} (pre post : list A) (b : A) :
  py_index (pre ++ b :: post) (Z.of_nat (List.length pre)) = Ok b.
Proof.
  unfold py_index.
  destruct (Z.ltb_spec (Z.of_nat (List.length pre)) 0); [lia|].
  destruct (Z.ltb_spec (Z.of_nat (List.length pre)) 0); [lia|].
  rewrite length_app. cbn [List.length].
  destruct (Z.leb_spec (Z.of_nat (List.length pre + S (List.length post)))
              (Z.of_nat (List.length pre))); [lia|].
  cbn [orb]. rewrite Nat2Z.id, nth_error_app2 by lia.
  now rewrite Nat.sub_diag.
Qed.

(** Picking, in a list of values read off records, the positions of the
    records that pass a test yields the values of the records that pass. *)
Lemma select_by_index {B S A : Type} (st : B -> S) (test : S -> bool)
    (f : B -> A) (bs : list B) :
  forall pre : list B,
    map_result (py_index (map f (pre ++ bs)))
      (filter (fun x => match py_index (map st (pre ++ bs)) x with
                        | Ok s => test s
                        | Raise _ => false
                        end)
              (map Z.of_nat (seq (List.length pre) (List.length bs))))
    = Ok (map f (filter (fun b => test (st b)) bs)).
Proof.
  induction bs as [|b tl IH]; intros pre; [reflexivity|].
  cbn [List.length seq map filter].
  assert (Hst : py_index (map st (pre ++ b :: tl)) (Z.of_nat (List.length pre))
                = Ok (st b)).
  { rewrite map_app. cbn [map].
    rewrite <- (length_map st pre). apply py_index_middle. }
  assert (Hf : py_index (map f (pre ++ b :: tl)) (Z.of_nat (List.length pre))
               = Ok (f b)).
  { rewrite map_app. cbn [map].
    rewrite <- (length_map f pre). apply py_index_middle. }
  rewrite Hst.
  specialize (IH (pre ++ [b])).
  rewrite <- app_assoc in IH. cbn [app] in IH.
  rewrite length_app in IH. cbn [List.length] in IH.
  rewrite Nat.add_1_r in IH.
  destruct (test (st b)).
  - cbn [map_result bind]. rewrite Hf. cbn [bind]. rewrite IH. reflexivity.
  - exact IH.
Qed.

Section RunStatistics.

Context {Qobj P Rng : Type} {LA : LinAlg Qobj P Rng}.

Local Notation "'Sim'" := (CircuitSimulator Qobj P).
Local Notation "'Res'" := (CircuitResult Qobj P).

(** [CircuitResult] built from the lists of the branches keeps exactly the
    branches whose state is not [None], each with its own probability and
    classical bits. *)
Lemma CircuitResult_many_prunes (bs : list (@Branch Qobj P))
    (caller : option (list Z)) :
  bs <> [] ->
  CircuitResult_many (map branch_state bs) (map branch_probability bs)
    (map (deref caller) (map branch_cbits bs))
  = Ok (Build_CircuitResult
          (map branch_state
               (filter (fun b => negb (is_none (branch_state b))) bs))
          (map branch_probability
               (filter (fun b => negb (is_none (branch_state b))) bs))
          (Some (map (fun b => deref caller (branch_cbits b))
                     (filter (fun b => negb (is_none (branch_state b))) bs)))).
Proof.
  intros Hne. unfold CircuitResult_many.
  rewrite length_map, map_map.
  pose proof (select_by_index branch_state (fun s => negb (is_none s))
                branch_state bs []) as H1.
  pose proof (select_by_index branch_state (fun s => negb (is_none s))
                branch_probability bs []) as H2.
  pose proof (select_by_index branch_state (fun s => negb (is_none s))
                (fun b => deref caller (branch_cbits b)) bs []) as H3.
  cbn [app List.length] in H1, H2, H3.
  rewrite H1, H2. cbn [bind].
  destruct bs as [|b tl]; [contradiction|].
  cbn [map] in H3 |- *. rewrite H3. reflexivity.
Qed.

(** *** Classical control *)

(** A classically controlled step applies its unitary exactly when every
    referenced classical bit is nonzero; otherwise only the cursor moves. *)
Lemma step_classical_control (sim : Sim) (operation : Gate) (U : Qobj)
    (rng : Rng) (b : bool) :
  py_index (ops sim) (op_index sim) = Ok (OpCtrl operation U) ->
  classical_control_holds sim operation = Ok b ->
  step sim rng
  = if b then
      sim' <- _evolve_state sim
                (if precompute_unitary sim
                 then expand_operator U (N (qc sim)) (get_all_qubits operation)
                 else U) ;;
      Ok (set_op_index sim' (op_index sim' + 1), rng)
    else Ok (set_op_index sim (op_index sim + 1), rng).
Proof.
  intros Hop Hb. unfold step. rewrite Hop. cbn [bind]. rewrite Hb.
  cbn [bind]. destruct b; [|reflexivity].
  destruct (_evolve_state sim _); reflexivity.
Qed.

Lemma testbit_all_ones (n k : Z) :
  0 <= k < n -> Z.testbit (2 ^ n - 1) k = true.
Proof.
  intros H. rewrite Z.sub_1_r, <- Z.ones_equiv.
  apply Z.ones_spec_low. exact H.
Qed.

Lemma control_bits_match_all_ones (l cc : list Z) (n : Z) :
  forall k, 0 <= k -> k + Z.of_nat (List.length cc) <= n ->
    control_bits_match l cc (2 ^ n - 1) k
    = (bits <- map_result (py_index l) cc ;;
       Ok (forallb (fun b => negb (b =? 0)) bits)).
Proof.
  induction cc as [|i tl IH]; intros k Hk Hn; [reflexivity|].
  cbn [control_bits_match map_result bind List.length] in *.
  destruct (py_index l i) as [b|e]; cbn [bind]; [|reflexivity].
  rewrite IH by lia.
  destruct (map_result (py_index l) tl) as [bits|e]; cbn [bind forallb];
    [|reflexivity].
  rewrite testbit_all_ones by lia.
  destruct (negb (b =? 0)); reflexivity.
Qed.

(** With no required value on the gate, the predicate of the code is the
    predicate of the specification. *)
Lemma classical_control_default_agrees (sim : Sim) (operation : Gate)
    (l cc : list Z) :
  cbits sim = Some l ->
  classical_controls operation = Some cc ->
  classical_control_value operation = None ->
  classical_control_holds sim operation
  = classical_control_spec (cbits sim) operation.
Proof.
  intros Hcb Hcc Hv.
  unfold classical_control_holds, classical_control_spec, required_value.
  rewrite Hcb, Hcc, Hv. cbn [subscript].
  rewrite control_bits_match_all_ones by lia.
  reflexivity.
Qed.

End RunStatistics.

(** ** The simulator on the rational engine *)

Module OnRationals.

Import Examples.

(** C3 fails on the code.  The gate X on qubit 0 is controlled on classical
    bit 0 with the required value 0.  With the bit at 0 the predicate of
    the specification holds, yet [step] skips the gate and the run ends in
    |0>; with the bit at 1 the predicate is false, yet the gate is applied
    and the run ends in |1>: the required value is never read. *)
Theorem classical_control_value_ignored :
  classical_control_value x_if_c0_is_0 = Some 0 /\
  classical_control_spec (Some [0]) x_if_c0_is_0 = Ok true /\
  classical_control_holds
    (initialize sim_ctrl (Some QEngine.ket0) (Some [0]) None) x_if_c0_is_0
    = Ok false /\
  (exists r s,
     run sim_ctrl (Some QEngine.ket0) (Some [0]) None [] = Ok (r, s, []) /\
     final_states r = [SObj QEngine.ket0]) /\
  classical_control_spec (Some [1]) x_if_c0_is_0 = Ok false /\
  classical_control_holds
    (initialize sim_ctrl (Some QEngine.ket0) (Some [1]) None) x_if_c0_is_0
    = Ok true /\
  (exists r s,
     run sim_ctrl (Some QEngine.ket0) (Some [1]) None [] = Ok (r, s, []) /\
     final_states r = [SObj QEngine.ket1]).
Proof.
  repeat split; try reflexivity.
  - do 2 eexists. split; vm_compute; reflexivity.
  - do 2 eexists. split; vm_compute; reflexivity.
Qed.

Lemma density_measurement_step_witness :
  exists sim',
    step (initialize sim_measure_dm (Some QEngine.rho34) None None) [] = Ok (sim', []) /\
    state sim' = SObj [[Qmake 9 25; 0%Q]; [0%Q; Qmake 16 25]] /\
    probability sim' = 1%Q /\
    cbits sim' = None.
Proof.
  destruct (density_measurement_step
              (initialize sim_measure_dm (Some QEngine.rho34) None None)
              (measure_0 None) (@nil Q)
              [Some [[1%Q; 0%Q]; [0%Q; 0%Q]]; Some [[0%Q; 0%Q]; [0%Q; 1%Q]]]
              [Qmake 9 25; Qmake 16 25])
    as (sim' & Hstep & Hstate & Hp & Hc & _).
  - reflexivity.
  - reflexivity.
  - vm_compute. reflexivity.
  - repeat constructor; intros; discriminate.
  - exists sim'. split; [exact Hstep|].
    split; [rewrite Hstate; vm_compute; reflexivity|].
    split; [rewrite Hp; reflexivity|].
    rewrite Hc. reflexivity.
Defined.

Lemma initialize_ignores_mismatched_cbits_witness :
  cbits (initialize (sim_measure_vec (Some 0)) (Some QEngine.ket0)
           (Some [1; 1; 1]) None) = Some [0] /\
  cbits_shared (initialize (sim_measure_vec (Some 0)) (Some QEngine.ket0)
                  (Some [1; 1; 1]) None) = false.
Proof.
  destruct (initialize_ignores_mismatched_cbits
              (sim_measure_vec (Some 0)) (Some QEngine.ket0) [1; 1; 1] None)
    as (H1 & H2 & _).
  - vm_compute. discriminate.
  - split; [rewrite H1; reflexivity|exact H2].
Defined.

Lemma run_forced_deterministic_witness :
  agree_up_to_rng [0%Q] [Qmake 1 2]
    (run (sim_measure_vec None) (Some QEngine.ket34) None (Some [TInt 1])
         [0%Q])
    (run (sim_measure_vec None) (Some QEngine.ket34) None (Some [TInt 1])
         [Qmake 1 2]).
Proof.
  apply (run_forced_deterministic (sim_measure_vec None) (sim_measure_vec None)).
  - repeat split.
  - reflexivity.
Defined.

(** C6, the claim as it stands fails: an empty forced-outcome sequence
    counts as none.  Two runs of a one-measurement program from
    [(3|0> + 4|1>) / 5], both given the empty sequence, draw their outcome
    from the random source: the first ends in |0> with probability 9/25,
    the second in |1> with probability 16/25. *)
Lemma run_empty_forced_sequence_is_random :
  (exists r s g,
     run (sim_measure_vec None) (Some QEngine.ket34) None (Some []) [0%Q]
       = Ok (r, s, g) /\
     final_states r = [SObj QEngine.ket0] /\
     probabilities r = [Qmake 9 25]) /\
  (exists r s g,
     run (sim_measure_vec None) (Some QEngine.ket34) None (Some [])
         [Qmake 1 2]
       = Ok (r, s, g) /\
     final_states r = [SObj QEngine.ket1] /\
     probabilities r = [Qmake 16 25]) /\
  ~ agree_up_to_rng [0%Q] [Qmake 1 2]
      (run (sim_measure_vec None) (Some QEngine.ket34) None (Some []) [0%Q])
      (run (sim_measure_vec None) (Some QEngine.ket34) None (Some [])
           [Qmake 1 2]).
Proof.
  split; [|split].
  - do 3 eexists. split; [vm_compute; reflexivity|]. split; reflexivity.
  - do 3 eexists. split; [vm_compute; reflexivity|]. split; reflexivity.
  - vm_compute. intros (H & _). discriminate.
Qed.

(** C4 fails on the code.  The program measures its one qubit into its
    one classical bit, the state is [(3|0> + 4|1>) / 5] and the caller
    passes the classical bits [[0]].  The specification collects two
    branches, each with the classical bits of its own replay: [[0]] with
    |0> and [[1]] with |1>.  [run_statistics] returns the same states and
    probabilities, but it appends [self.cbits], the list of the caller, at
    every replay: both entries of the classical bits are that one list,
    which holds [[1]] after the last replay.  When the caller passes no
    list, every replay has a list of its own and the code returns what the
    specification describes. *)
Theorem run_statistics_branches_share_caller_cbits :
  List.length (product01 (num_measurements (gates (qc_measure (Some 0)))))
    = 2%nat /\
  run_statistics_spec (sim_measure_vec (Some 0)) (Some QEngine.ket34)
    (Some [0]) []
  = Ok (Build_CircuitResult
          [SObj QEngine.ket0; SObj QEngine.ket1]
          [Qmake 9 25; Qmake 16 25]
          (Some [Some [0]; Some [1]]), []) /\
  (exists s,
     run_statistics (sim_measure_vec (Some 0)) (Some QEngine.ket34)
       (Some [0]) []
     = Ok (Build_CircuitResult
             [SObj QEngine.ket0; SObj QEngine.ket1]
             [Qmake 9 25; Qmake 16 25]
             (Some [Some [1]; Some [1]]), s, [])) /\
  (exists r s,
     run_statistics (sim_measure_vec (Some 0)) (Some QEngine.ket34) None []
     = Ok (r, s, []) /\
     run_statistics_spec (sim_measure_vec (Some 0)) (Some QEngine.ket34)
       None []
     = Ok (r, [])).
Proof.
  split; [reflexivity|].
  split; [vm_compute; reflexivity|].
  split.
  - eexists. vm_compute. reflexivity.
  - do 2 eexists. split; vm_compute; reflexivity.
Qed.

(** The replays of the code are not independent either.  The program
    applies X when classical bit 0 is set, then measures the qubit into
    that bit; the state is |0> and the caller passes [[1]].  Each replay of
    the specification starts from [[1]]: X is applied, the outcome 0 is
    impossible and the outcome 1 gives the one branch |1> of probability 1.
    In the code the first replay leaves [[0]] in the list of the caller,
    the second one starts from it, does not apply X and finds the outcome 1
    impossible: no branch is left. *)
Example run_statistics_replays_depend_on_earlier :
  run_statistics_spec sim_ctrl_measure (Some QEngine.ket0) (Some [1]) []
  = Ok (Build_CircuitResult [SObj QEngine.ket1] [1%Q] (Some [Some [1]]),
        []) /\
  (exists s,
     run_statistics sim_ctrl_measure (Some QEngine.ket0) (Some [1]) []
     = Ok (Build_CircuitResult [] [] (Some []), s, [])).
Proof.
  split; [vm_compute; reflexivity|].
  eexists. vm_compute. reflexivity.
Qed.

(** The two branches of one measurement of [(3|0> + 4|1>) / 5]. *)
Example run_statistics_two_branches :
  exists s g,
    run_statistics (sim_measure_vec (Some 0)) (Some QEngine.ket34) None []
    = Ok (Build_CircuitResult
            [SObj QEngine.ket0; SObj QEngine.ket1]
            [Qmake 9 25; Qmake 16 25]
            (Some [Some [0]; Some [1]]), s, g).
Proof.
  do 2 eexists. vm_compute. reflexivity.
Qed.

(** From |0> the outcome 1 has probability zero: its branch, whose state is
    [None], is dropped with its probability and its classical bits. *)
Example run_statistics_prunes_null_branch :
  exists s g,
    run_statistics (sim_measure_vec (Some 0)) (Some QEngine.ket0) None []
    = Ok (Build_CircuitResult [SObj QEngine.ket0] [1%Q] (Some [Some [0]]),
          s, g).
Proof.
  do 2 eexists. vm_compute. reflexivity.
Qed.

End OnRationals.

(* ================================================================== *)
(** * Part III.  Further properties *)
(* ================================================================== *)

(** ** More on the adjacency linearizer *)

(** The parity tests of the loops follow from the distance tests. *)
Lemma branch_tests (start end_ i : Z) :
  ((start + end_ - i - i =? 1) && ((end_ - start + 1) mod 2 =? 0)
   = (start + end_ - i - i =? 1)) /\
  ((start + end_ - i - i =? 2) && ((end_ - start + 1) mod 2 =? 1)
   = (start + end_ - i - i =? 2)).
Proof.
  split.
  - destruct (Z.eqb_spec (start + end_ - i - i) 1) as [H|H]; [|reflexivity].
    replace (end_ - start + 1) with ((end_ - i) * 2) by lia.
    now rewrite Z_mod_mult.
  - destruct (Z.eqb_spec (start + end_ - i - i) 2) as [H|H]; [|reflexivity].
    replace (end_ - start + 1) with (1 + (end_ - i - 1) * 2) by lia.
    now rewrite Z_mod_plus_full.
Qed.

(** The loops only append to the output they are given. *)
Lemma adjacent_ctrl_loop_app (fuel : nat) (gname : string)
    (ctrl start end_ : Z) :
  forall (i : Z) (out : list Gate),
    adjacent_ctrl_loop fuel gname ctrl start end_ i out
    = option_map (app out)
        (adjacent_ctrl_loop fuel gname ctrl start end_ i []).
Proof.
  induction fuel as [|fuel IH]; intros i out; cbn [adjacent_ctrl_loop];
    [reflexivity|].
  destruct (i <? end_); [|cbn; now rewrite app_nil_r].
  repeat match goal with
         | |- context [if ?c then _ else _] => destruct c
         end;
    cbn [app];
    match goal with
    | |- adjacent_ctrl_loop _ _ _ _ _ ?j (out ++ ?x) = _ =>
        rewrite (IH j (out ++ x)), (IH j x);
        destruct (adjacent_ctrl_loop fuel gname ctrl start end_ j []);
        cbn [option_map]; [now rewrite app_assoc|reflexivity]
    end.
Qed.

Lemma adjacent_swap_loop_app (fuel : nat) (gname : string) (start end_ : Z) :
  forall (i : Z) (out : list Gate),
    adjacent_swap_loop fuel gname start end_ i out
    = option_map (app out) (adjacent_swap_loop fuel gname start end_ i []).
Proof.
  induction fuel as [|fuel IH]; intros i out; cbn [adjacent_swap_loop];
    [reflexivity|].
  destruct (i <? end_); [|cbn; now rewrite app_nil_r].
  repeat match goal with
         | |- context [if ?c then _ else _] => destruct c
         end;
    cbn [app];
    match goal with
    | |- adjacent_swap_loop _ _ _ _ ?j (out ++ ?x) = _ =>
        rewrite (IH j (out ++ x)), (IH j x);
        destruct (adjacent_swap_loop fuel gname start end_ j []);
        cbn [option_map]; [now rewrite app_assoc|reflexivity]
    end.
Qed.

Lemma adjacent_ctrl_loop_length (fuel : nat) (gname : string)
    (ctrl start end_ : Z) :
  forall (i : Z) (out r : list Gate),
    start <= i <= end_ ->
    adjacent_ctrl_loop fuel gname ctrl start end_ i out = Some r ->
    Z.of_nat (List.length r)
    = Z.of_nat (List.length out) + gates_to_come start end_ i.
Proof.
  unfold gates_to_come.
  induction fuel as [|fuel IH]; intros i out r Hi; cbn [adjacent_ctrl_loop];
    [discriminate|].
  destruct (branch_tests start end_ i) as [-> ->].
  destruct (Z.ltb_spec i end_) as [Hlt|Hge].
  - destruct (Z.eqb_spec (start + end_ - i - i) 1) as [H1|H1].
    + intros H. apply IH in H; [|lia]. rewrite H, length_app.
      cbn [List.length].
      destruct (Z.leb_spec 1 (start + end_ - i - i));
        destruct (Z.leb_spec 1 (start + end_ - (i + 1) - (i + 1))); lia.
    + destruct (Z.eqb_spec (start + end_ - i - i) 2) as [H2|H2].
      * intros H. apply IH in H; [|lia]. rewrite H, length_app.
        cbn [List.length].
        destruct (Z.leb_spec 1 (start + end_ - i - i));
          destruct (Z.leb_spec 1 (start + end_ - (i + 1 + 1) - (i + 1 + 1)));
          lia.
      * intros H. apply IH in H; [|lia]. rewrite H, length_app.
        cbn [List.length].
        destruct (Z.leb_spec 1 (start + end_ - i - i));
          destruct (Z.leb_spec 1 (start + end_ - (i + 1) - (i + 1))); lia.
  - intros [= <-].
    destruct (Z.leb_spec 1 (start + end_ - i - i)); lia.
Qed.

Lemma adjacent_swap_loop_length (fuel : nat) (gname : string)
    (start end_ : Z) :
  forall (i : Z) (out r : list Gate),
    start <= i <= end_ ->
    adjacent_swap_loop fuel gname start end_ i out = Some r ->
    Z.of_nat (List.length r)
    = Z.of_nat (List.length out) + gates_to_come start end_ i.
Proof.
  unfold gates_to_come.
  induction fuel as [|fuel IH]; intros i out r Hi; cbn [adjacent_swap_loop];
    [discriminate|].
  destruct (branch_tests start end_ i) as [-> ->].
  destruct (Z.ltb_spec i end_) as [Hlt|Hge].
  - destruct (Z.eqb_spec (start + end_ - i - i) 1) as [H1|H1].
    + intros H. apply IH in H; [|lia]. rewrite H, length_app.
      cbn [List.length].
      destruct (Z.leb_spec 1 (start + end_ - i - i));
        destruct (Z.leb_spec 1 (start + end_ - (i + 1) - (i + 1))); lia.
    + destruct (Z.eqb_spec (start + end_ - i - i) 2) as [H2|H2].
      * intros H. apply IH in H; [|lia]. rewrite H, length_app.
        cbn [List.length].
        destruct (Z.leb_spec 1 (start + end_ - i - i));
          destruct (Z.leb_spec 1 (start + end_ - (i + 1 + 1) - (i + 1 + 1)));
          lia.
      * intros H. apply IH in H; [|lia]. rewrite H, length_app.
        cbn [List.length].
        destruct (Z.leb_spec 1 (start + end_ - i - i));
          destruct (Z.leb_spec 1 (start + end_ - (i + 1) - (i + 1))); lia.
  - intros [= <-].
    destruct (Z.leb_spec 1 (start + end_ - i - i)); lia.
Qed.

(** *** Size of the returned circuit *)

Lemma subscript_0_inv {A : Type} (x : option (list A)) (a : A) :
  subscript x 0 = Ok a -> exists tl, x = Some (a :: tl).
Proof.
  destruct x as [[|b tl]|]; cbn; try discriminate.
  intros [= <-]. eauto.
Qed.

Lemma py_index_1 {A : Type} (a b : A) (tl : list A) :
  py_index (a :: b :: tl) 1 = Ok b.
Proof.
  unfold py_index. cbn [List.length].
  destruct (Z.ltb_spec 1 0); [lia|].
  destruct (Z.ltb_spec 1 0); [lia|].
  destruct (Z.leb_spec (Z.of_nat (S (S (List.length tl)))) 1); [lia|].
  reflexivity.
Qed.

Lemma subscript_01_inv {A : Type} (x : option (list A)) (a b : A) :
  subscript x 0 = Ok a -> subscript x 1 = Ok b ->
  exists tl, x = Some (a :: b :: tl).
Proof.
  intros H0 H1. destruct (subscript_0_inv x a H0) as [tl ->].
  destruct tl as [|b' tl].
  - cbn in H1. discriminate.
  - cbn [subscript] in H1. rewrite py_index_1 in H1.
    injection H1 as <-. eauto.
Qed.

(** What [adjacent_gate] computes when it succeeds, in terms of the two
    operands of the gate. *)
Lemma adjacent_gate_ok_inv (gate : Gate) (out r : list Gate) :
  adjacent_gate gate out = Some (Ok r) ->
  exists a b,
    operand_pair gate = Some (a, b) /\
    ((String.eqb (name gate) "CNOT" || String.eqb (name gate) "CSIGN") = true /\
     adjacent_ctrl_loop (span_fuel (Z.min a b) (Z.max a b)) (name gate) b
       (Z.min a b) (Z.max a b) (Z.min a b) out = Some r
     \/
     (String.eqb (name gate) "CNOT" || String.eqb (name gate) "CSIGN") = false /\
     inb (name gate) swap_gates = true /\
     adjacent_swap_loop (span_fuel (Z.min a b) (Z.max a b)) (name gate)
       (Z.min a b) (Z.max a b) (Z.min a b) out = Some r).
Proof.
  unfold adjacent_gate, operand_pair.
  destruct (String.eqb (name gate) "CNOT" || String.eqb (name gate) "CSIGN").
  - destruct (subscript (targets gate) 0) as [t0|e] eqn:Ht; [|discriminate].
    destruct (subscript (controls gate) 0) as [c0|e] eqn:Hc; [|discriminate].
    destruct (subscript_0_inv _ _ Ht) as [ts ->].
    destruct (subscript_0_inv _ _ Hc) as [cs ->].
    destruct (adjacent_ctrl_loop _ _ _ _ _ _ _) as [r'|] eqn:E;
      [|discriminate].
    intros [= <-]. exists t0, c0. split; [reflexivity|]. left. auto.
  - destruct (inb (name gate) swap_gates); [|discriminate].
    destruct (subscript (targets gate) 0) as [t0|e] eqn:Ht; [|discriminate].
    destruct (subscript (targets gate) 1) as [t1|e] eqn:Ht1; [|discriminate].
    destruct (subscript_01_inv _ _ _ Ht Ht1) as [ts ->].
    destruct (adjacent_swap_loop _ _ _ _ _ _) as [r'|] eqn:E;
      [|discriminate].
    intros [= <-]. exists t0, t1. split; [reflexivity|]. right. auto.
Qed.

Lemma gates_to_come_start (a b : Z) :
  gates_to_come (Z.min a b) (Z.max a b) (Z.min a b)
  = if a =? b then 0 else 2 * Z.abs (a - b) - 1.
Proof.
  unfold gates_to_come.
  destruct (Z.eqb_spec a b);
    destruct (Z.leb_spec 1 (Z.min a b + Z.max a b - Z.min a b - Z.min a b));
    lia.
Qed.

Lemma adjacent_gate_length (gate : Gate) (out r : list Gate) :
  adjacent_gate gate out = Some (Ok r) ->
  Z.of_nat (List.length r) = Z.of_nat (List.length out) + linearized_size gate.
Proof.
  intros H. destruct (adjacent_gate_ok_inv gate out r H)
    as (a & b & Hpair & [[_ Hloop]|(_ & _ & Hloop)]);
    unfold linearized_size; rewrite Hpair, <- gates_to_come_start.
  - eapply adjacent_ctrl_loop_length; [|exact Hloop]. lia.
  - eapply adjacent_swap_loop_length; [|exact Hloop]. lia.
Qed.

Lemma adjacent_loop_length (gs : list Gate) :
  forall out r,
    adjacent_loop gs out = Some (Ok r) ->
    Z.of_nat (List.length r)
    = Z.of_nat (List.length out) + linearized_total gs.
Proof.
  induction gs as [|g tl IH]; intros out r; cbn [adjacent_loop linearized_total
    fold_right].
  - intros [= <-]. lia.
  - destruct (adjacent_gate g out) as [[out'|e]|] eqn:E; try discriminate.
    intros H. apply IH in H. apply adjacent_gate_length in E.
    fold (linearized_total tl). lia.
Qed.

(** X1.  The circuit [adjacent_gates] returns holds, for each gate of the
    program, [2 d - 1] gates where [d] is the distance of its two operands
    (and none when the two operands are the same qubit). *)
Theorem adjacent_gates_size (qc : QubitCircuit) (out : list Gate) :
  adjacent_gates qc = Some (Ok out) ->
  Z.of_nat (List.length out) = linearized_total (gates_of (gates qc)).
Proof.
  unfold adjacent_gates.
  destruct (0 <? num_measurements (gates qc))%nat; [discriminate|].
  intros H. apply adjacent_loop_length in H. cbn [List.length] in H. lia.
Qed.

Lemma adjacent_gates_size_witness :
  exists out,
    adjacent_gates Examples.qc_cnot_03 = Some (Ok out) /\
    Z.of_nat (List.length out) = 5.
Proof.
  eexists. split; [reflexivity|].
  exact (adjacent_gates_size Examples.qc_cnot_03 _ eq_refl).
Defined.

(** *** Gates the pass has no branch for *)

Lemma adjacent_loop_app (pre rest : list Gate) :
  forall out,
    adjacent_loop (pre ++ rest) out
    = match adjacent_loop pre out with
      | Some (Ok out') => adjacent_loop rest out'
      | other => other
      end.
Proof.
  induction pre as [|g tl IH]; intros out; cbn [app adjacent_loop];
    [reflexivity|].
  destruct (adjacent_gate g out) as [[out'|e]|]; auto.
Qed.

(** X3.  [adjacent_gates] stops at the first gate that is neither CNOT, CSIGN
    nor swap-like, one-qubit gates included, with the error that names
    it. *)
Theorem adjacent_gates_unsupported_gate (qc : QubitCircuit)
    (pre post : list Gate) (g : Gate) :
  num_measurements (gates qc) = 0%nat ->
  gates_of (gates qc) = pre ++ g :: post ->
  forallb linearizable pre = true ->
  (String.eqb (name g) "CNOT" || String.eqb (name g) "CSIGN"
   || inb (name g) swap_gates) = false ->
  adjacent_gates qc
  = Some (Raise (NotImplementedError (AdjacentNotDefined (name g)))) /\
  spec_error (NotImplementedError (AdjacentNotDefined (name g)))
  = UnsupportedGateError.
Proof.
  intros Hm Hgs Hpre Hname. split; [|reflexivity].
  unfold adjacent_gates. rewrite Hm, Hgs. cbn [Nat.ltb Nat.leb].
  rewrite adjacent_loop_app.
  destruct (adjacent_loop_accepts pre Hpre []) as [out' ->].
  cbn [adjacent_loop]. unfold adjacent_gate.
  apply orb_false_iff in Hname. destruct Hname as [-> ->].
  reflexivity.
Qed.

Lemma adjacent_gates_unsupported_gate_witness :
  adjacent_gates
    (Build_QubitCircuit 2 0
       [G (cnot (Some [1]) (Some [0])); G (rot "RX" (Some [0]) PI)])
  = Some (Raise (NotImplementedError (AdjacentNotDefined "RX"))).
Proof.
  apply (adjacent_gates_unsupported_gate
           (Build_QubitCircuit 2 0
              [G (cnot (Some [1]) (Some [0])); G (rot "RX" (Some [0]) PI)])
           [cnot (Some [1]) (Some [0])] [] (rot "RX" (Some [0]) PI));
    reflexivity.
Defined.

(** *** The pass applied to its own output *)

Lemma swap_name_not_ctrl (nm : string) :
  inb nm swap_gates = true ->
  (String.eqb nm "CNOT" || String.eqb nm "CSIGN") = false.
Proof.
  unfold inb, swap_gates. cbn [existsb].
  repeat match goal with
         | |- context [String.eqb nm ?s] =>
             destruct (String.eqb_spec nm s); [subst; reflexivity|]
         end.
  discriminate.
Qed.

Lemma settled_swap (a b : Z) : b = a + 1 -> settled (SWAP_ a b).
Proof.
  intros ->. right. exists a. split; reflexivity.
Qed.

Lemma settled_ctrl (gname : string) (t c : Z) :
  (String.eqb gname "CNOT" || String.eqb gname "CSIGN") = true ->
  Z.abs (t - c) = 1 ->
  settled (mkGate gname (Some [t]) (Some [c]) None).
Proof.
  intros Hn Habs. left. exists t, c. auto.
Qed.

Lemma settled_payload (gname : string) (a b : Z) :
  inb gname swap_gates = true -> b = a + 1 ->
  settled (mkGate gname (Some [a; b]) None None).
Proof.
  intros Hn ->. right. exists a. auto.
Qed.

Ltac settled_step IH :=
  eapply IH; [eassumption|];
  apply Forall_app; split; [assumption|];
  repeat (apply Forall_cons); try apply Forall_nil;
  first [ apply settled_swap; lia
        | apply settled_ctrl; [assumption|lia]
        | apply settled_payload; [assumption|lia] ].

Lemma adjacent_ctrl_loop_settled (fuel : nat) (gname : string)
    (ctrl start end_ : Z) :
  (String.eqb gname "CNOT" || String.eqb gname "CSIGN") = true ->
  forall (i : Z) (out r : list Gate),
    adjacent_ctrl_loop fuel gname ctrl start end_ i out = Some r ->
    Forall settled out -> Forall settled r.
Proof.
  intros Hn.
  induction fuel as [|fuel IH]; intros i out r; cbn [adjacent_ctrl_loop];
    [discriminate|].
  destruct (i <? end_); [|intros [= <-]; auto].
  destruct ((start + end_ - i - i =? 1) && ((end_ - start + 1) mod 2 =? 0)).
  - intros H Hout. destruct (end_ =? ctrl); settled_step IH.
  - destruct ((start + end_ - i - i =? 2) && ((end_ - start + 1) mod 2 =? 1));
      intros H Hout.
    + destruct (end_ =? ctrl); settled_step IH.
    + settled_step IH.
Qed.

Lemma adjacent_swap_loop_settled (fuel : nat) (gname : string)
    (start end_ : Z) :
  inb gname swap_gates = true ->
  forall (i : Z) (out r : list Gate),
    adjacent_swap_loop fuel gname start end_ i out = Some r ->
    Forall settled out -> Forall settled r.
Proof.
  intros Hn.
  induction fuel as [|fuel IH]; intros i out r; cbn [adjacent_swap_loop];
    [discriminate|].
  destruct (i <? end_); [|intros [= <-]; auto].
  destruct ((start + end_ - i - i =? 1) && ((end_ - start + 1) mod 2 =? 0)).
  - intros H Hout. settled_step IH.
  - destruct ((start + end_ - i - i =? 2) && ((end_ - start + 1) mod 2 =? 1));
      intros H Hout; settled_step IH.
Qed.

Lemma adjacent_loop_settled (gs : list Gate) :
  forall out r, adjacent_loop gs out = Some (Ok r) ->
                Forall settled out -> Forall settled r.
Proof.
  induction gs as [|g tl IH]; intros out r; cbn [adjacent_loop].
  - intros [= <-]. auto.
  - destruct (adjacent_gate g out) as [[out'|e]|] eqn:E; try discriminate.
    intros H Hout. eapply IH; [eassumption|].
    destruct (adjacent_gate_ok_inv g out out' E)
      as (a & b & _ & [[Hn Hloop]|(_ & Hn & Hloop)]).
    + eapply adjacent_ctrl_loop_settled; eassumption.
    + eapply adjacent_swap_loop_settled; eassumption.
Qed.

(** A settled gate is appended as it is. *)
Lemma adjacent_gate_settled (g : Gate) (out : list Gate) :
  settled g -> adjacent_gate g out = Some (Ok (out ++ [g])).
Proof.
  intros [(t & c & Hn & Hg & Habs)|(a & Hn & Hg)]; unfold adjacent_gate.
  - rewrite Hn, Hg. cbn [targets controls name mkGate subscript].
    change (py_index [t] 0) with (Ok t). change (py_index [c] 0) with (Ok c).
    cbv iota. unfold span_fuel.
    assert (Hcase : c = t + 1 \/ t = c + 1) by lia.
    destruct Hcase as [-> | ->].
    + rewrite Z.min_l, Z.max_r by lia.
      replace (t + 1 - t) with 1 by lia. change (Z.to_nat 1) with 1%nat.
      cbn [adjacent_ctrl_loop].
      destruct (branch_tests t (t + 1) t) as [-> _].
      destruct (Z.ltb_spec t (t + 1)); [|lia].
      destruct (Z.eqb_spec (t + (t + 1) - t - t) 1); [|lia].
      rewrite Z.eqb_refl, Z.ltb_irrefl. reflexivity.
    + rewrite Z.min_r, Z.max_l by lia.
      replace (c + 1 - c) with 1 by lia. change (Z.to_nat 1) with 1%nat.
      cbn [adjacent_ctrl_loop].
      destruct (branch_tests c (c + 1) c) as [-> _].
      destruct (Z.ltb_spec c (c + 1)); [|lia].
      destruct (Z.eqb_spec (c + (c + 1) - c - c) 1); [|lia].
      destruct (Z.eqb_spec (c + 1) c); [lia|].
      rewrite Z.ltb_irrefl. reflexivity.
  - rewrite (swap_name_not_ctrl _ Hn), Hn, Hg.
    cbn [targets controls name mkGate subscript].
    change (py_index [a; a + 1] 0) with (Ok a).
    rewrite py_index_1. cbv iota. unfold span_fuel.
    rewrite Z.min_l, Z.max_r by lia.
    replace (a + 1 - a) with 1 by lia. change (Z.to_nat 1) with 1%nat.
    cbn [adjacent_swap_loop].
    destruct (branch_tests a (a + 1) a) as [-> _].
    destruct (Z.ltb_spec a (a + 1)); [|lia].
    destruct (Z.eqb_spec (a + (a + 1) - a - a) 1); [|lia].
    rewrite Z.ltb_irrefl. reflexivity.
Qed.

Lemma adjacent_loop_settled_fixed (gs : list Gate) :
  Forall settled gs ->
  forall out, adjacent_loop gs out = Some (Ok (out ++ gs)).
Proof.
  induction 1 as [|g tl Hg _ IH]; intros out; cbn [adjacent_loop].
  - now rewrite app_nil_r.
  - rewrite (adjacent_gate_settled g out Hg), IH, <- app_assoc. reflexivity.
Qed.

Lemma gates_of_map_G (gs : list Gate) : gates_of (map G gs) = gs.
Proof.
  induction gs as [|g tl IH]; cbn; [reflexivity|now rewrite IH].
Qed.

Lemma num_measurements_map_G (gs : list Gate) :
  num_measurements (map G gs) = 0%nat.
Proof.
  unfold num_measurements. induction gs as [|g tl IH]; cbn; auto.
Qed.

(** X2.  [adjacent_gates] leaves the circuits it returns as they are: applied to
    its own output it returns that output. *)
Theorem adjacent_gates_idempotent (qc : QubitCircuit) (out : list Gate) :
  adjacent_gates qc = Some (Ok out) ->
  adjacent_gates (Build_QubitCircuit (N qc) (num_cbits qc) (map G out))
  = Some (Ok out).
Proof.
  intros H.
  assert (Hs : Forall settled out).
  { unfold adjacent_gates in H.
    destruct (0 <? num_measurements (gates qc))%nat; [discriminate|].
    eapply adjacent_loop_settled; [exact H|constructor]. }
  unfold adjacent_gates. cbn [gates].
  rewrite num_measurements_map_G, gates_of_map_G. cbn [Nat.ltb Nat.leb].
  apply (adjacent_loop_settled_fixed out Hs []).
Qed.

Lemma adjacent_gates_idempotent_witness :
  exists out,
    adjacent_gates Examples.qc_cnot_03 = Some (Ok out) /\
    adjacent_gates (Build_QubitCircuit 4 0 (map G out)) = Some (Ok out).
Proof.
  eexists. split; [reflexivity|].
  exact (adjacent_gates_idempotent Examples.qc_cnot_03 _ eq_refl).
Defined.

(** *** The swaps bring the operands together and take them back *)

Ltac split_tests :=
  repeat (match goal with
          | |- context [?a =? ?b] => destruct (Z.eqb_spec a b)
          | |- context [?a <=? ?b] => destruct (Z.leb_spec a b)
          | |- context [?a <? ?b] => destruct (Z.ltb_spec a b)
          end; cbn [andb orb negb]; try lia).

Ltac wires_eq :=
  apply functional_extensionality; intros p;
  unfold exchange, placement; cbv beta;
  split_tests; try reflexivity; try (f_equal; lia).

Lemma route_app (l1 l2 : list Gate) :
  forall w acted,
    route (l1 ++ l2) w acted
    = route l2 (fst (route l1 w acted)) (snd (route l1 w acted)).
Proof.
  induction l1 as [|g tl IH]; intros w acted; cbn [app route fst snd];
    [reflexivity|].
  destruct (String.eqb (name g) "SWAP"); [|apply IH].
  destruct (targets g) as [[|a [|b [|c l]]]|]; try apply IH.
  destruct (controls g); apply IH.
Qed.

Lemma route_swap (a b : Z) (tl : list Gate) (w : wires) (acted : list Gate) :
  route (SWAP_ a b :: tl) w acted = route tl (exchange a b w) acted.
Proof. reflexivity. Qed.

Lemma route_other (g : Gate) (tl : list Gate) (w : wires) (acted : list Gate) :
  String.eqb (name g) "SWAP" = false ->
  route (g :: tl) w acted = route tl w (acted ++ [relabel w g]).
Proof.
  intros H. cbn [route]. now rewrite H.
Qed.

(** One more step towards each other. *)
Lemma placement_closer (lo hi k x y : Z) (w : wires) :
  0 <= k -> lo + k + 1 < hi - k - 1 ->
  exchange (hi - k - 1) (hi - k)
    (exchange (lo + k) (lo + k + 1) (fun p => w (placement lo hi k x y p)))
  = (fun p => w (placement lo hi (k + 1) x y p)).
Proof. intros Hk Hd. wires_eq. Qed.

(** One step back. *)
Lemma placement_back (lo hi k x y : Z) (w : wires) :
  1 <= k -> lo + k < hi - k ->
  exchange (lo + k - 1) (lo + k)
    (exchange (hi - k) (hi - k + 1) (fun p => w (placement lo hi k x y p)))
  = (fun p => w (placement lo hi (k - 1) x y p)).
Proof. intros Hk Hd. wires_eq. Qed.

(** Neighbouring operands exchanged. *)
Lemma placement_exchange_odd (lo hi k x y : Z) (w : wires) :
  0 <= k -> lo + k + 1 = hi - k ->
  exchange (lo + k) (lo + k + 1) (fun p => w (placement lo hi k x y p))
  = (fun p => w (placement lo hi k y x p)).
Proof. intros Hk Hd. wires_eq. Qed.

(** Operands one line apart exchanged by three swaps. *)
Lemma placement_exchange_even (lo hi k x y : Z) (w : wires) :
  0 <= k -> lo + k + 2 = hi - k ->
  exchange (lo + k) (lo + k + 1)
    (exchange (lo + k + 1) (lo + k + 2)
       (exchange (lo + k) (lo + k + 1)
          (fun p => w (placement lo hi k x y p))))
  = (fun p => w (placement lo hi k y x p)).
Proof. intros Hk Hd. wires_eq. Qed.

(** A swap done twice. *)
Lemma exchange_twice (a b : Z) (w : wires) :
  exchange a b (exchange a b w) = w.
Proof.
  apply functional_extensionality; intros p. unfold exchange.
  split_tests; try reflexivity; f_equal; lia.
Qed.

Lemma placement_start (lo hi : Z) (w : wires) :
  (fun p => w (placement lo hi 0 lo hi p)) = w.
Proof. wires_eq. Qed.

Lemma placement_start_exchanged (lo hi : Z) (w : wires) :
  (fun p => w (placement lo hi 0 hi lo p)) = exchange lo hi w.
Proof. wires_eq. Qed.

(** After the operands have met, the remaining swaps take every qubit back
    to its line. *)
Lemma adjacent_ctrl_loop_back (fuel : nat) (gname : string) (ctrl lo hi : Z) :
  forall (k : Z) (suf : list Gate),
    0 <= k -> lo + k < hi - k ->
    adjacent_ctrl_loop fuel gname ctrl lo hi (hi - k) [] = Some suf ->
    forall (w : wires) (acted : list Gate) (x y : Z),
      route suf (fun p => w (placement lo hi k x y p)) acted
      = ((fun p => w (placement lo hi 0 x y p)), acted).
Proof.
  induction fuel as [|fuel IH]; intros k suf Hk Hd; cbn [adjacent_ctrl_loop];
    [discriminate|].
  destruct (branch_tests lo hi (hi - k)) as [-> ->].
  destruct (Z.ltb_spec (hi - k) hi) as [Hlt|Hge].
  - destruct (Z.eqb_spec (lo + hi - (hi - k) - (hi - k)) 1); [lia|].
    destruct (Z.eqb_spec (lo + hi - (hi - k) - (hi - k)) 2); [lia|].
    rewrite adjacent_ctrl_loop_app.
    replace (hi - k + 1) with (hi - (k - 1)) by lia.
    destruct (adjacent_ctrl_loop fuel gname ctrl lo hi (hi - (k - 1)) [])
      as [suf'|] eqn:E; cbn [option_map]; [|discriminate].
    intros [= <-] w acted x y. cbn [app].
    rewrite !route_swap.
    replace (lo + hi - (hi - k) - 1) with (lo + k - 1) by lia.
    replace (lo + hi - (hi - k)) with (lo + k) by lia.
    replace (hi - (k - 1)) with (hi - k + 1) by lia.
    rewrite placement_back by lia.
    apply (IH (k - 1) suf'); [lia|lia|exact E].
  - intros [= <-] w acted x y. cbn [route].
    replace k with 0 by lia. reflexivity.
Qed.

Lemma adjacent_swap_loop_back (fuel : nat) (gname : string) (lo hi : Z) :
  forall (k : Z) (suf : list Gate),
    0 <= k -> lo + k < hi - k ->
    adjacent_swap_loop fuel gname lo hi (hi - k) [] = Some suf ->
    forall (w : wires) (acted : list Gate) (x y : Z),
      route suf (fun p => w (placement lo hi k x y p)) acted
      = ((fun p => w (placement lo hi 0 x y p)), acted).
Proof.
  induction fuel as [|fuel IH]; intros k suf Hk Hd; cbn [adjacent_swap_loop];
    [discriminate|].
  destruct (branch_tests lo hi (hi - k)) as [-> ->].
  destruct (Z.ltb_spec (hi - k) hi) as [Hlt|Hge].
  - destruct (Z.eqb_spec (lo + hi - (hi - k) - (hi - k)) 1); [lia|].
    destruct (Z.eqb_spec (lo + hi - (hi - k) - (hi - k)) 2); [lia|].
    rewrite adjacent_swap_loop_app.
    replace (hi - k + 1) with (hi - (k - 1)) by lia.
    destruct (adjacent_swap_loop fuel gname lo hi (hi - (k - 1)) [])
      as [suf'|] eqn:E; cbn [option_map]; [|discriminate].
    intros [= <-] w acted x y. cbn [app].
    rewrite !route_swap.
    replace (lo + hi - (hi - k) - 1) with (lo + k - 1) by lia.
    replace (lo + hi - (hi - k)) with (lo + k) by lia.
    replace (hi - (k - 1)) with (hi - k + 1) by lia.
    rewrite placement_back by lia.
    apply (IH (k - 1) suf'); [lia|lia|exact E].
  - intros [= <-] w acted x y. cbn [route].
    replace k with 0 by lia. reflexivity.
Qed.

Lemma placement_low (lo hi k x y : Z) : placement lo hi k x y (lo + k) = x.
Proof. unfold placement. now rewrite Z.eqb_refl. Qed.

Lemma placement_high (lo hi k x y : Z) :
  lo + k < hi - k -> placement lo hi k x y (hi - k) = y.
Proof.
  intros H. unfold placement.
  destruct (Z.eqb_spec (hi - k) (lo + k)); [lia|]. now rewrite Z.eqb_refl.
Qed.

Lemma exchange_first (a b : Z) (w : wires) : exchange a b w a = w b.
Proof. unfold exchange. now rewrite Z.eqb_refl. Qed.

Lemma exchange_second (a b : Z) (w : wires) : exchange a b w b = w a.
Proof.
  unfold exchange. destruct (Z.eqb_spec b a); [now subst|].
  now rewrite Z.eqb_refl.
Qed.

Lemma exchange_elsewhere (a b p : Z) (w : wires) :
  p <> a -> p <> b -> exchange a b w p = w p.
Proof.
  intros Ha Hb. unfold exchange.
  destruct (Z.eqb_spec p a); [contradiction|].
  destruct (Z.eqb_spec p b); [contradiction|]. reflexivity.
Qed.

(** Until the operands meet, the swaps move them one line closer at each
    step; the gate is then applied to them, in their roles. *)
Lemma adjacent_ctrl_loop_forward (fuel : nat) (gname : string)
    (ctrl lo hi : Z) :
  String.eqb gname "SWAP" = false ->
  forall (k : Z) (suf : list Gate),
    0 <= k -> lo + k < hi - k ->
    adjacent_ctrl_loop fuel gname ctrl lo hi (lo + k) [] = Some suf ->
    forall (w : wires) (acted : list Gate) (x y : Z),
      route suf (fun p => w (placement lo hi k x y p)) acted
      = ((fun p => w (placement lo hi 0 x y p)),
         acted ++ [if hi =? ctrl
                   then mkGate gname (Some [w x]) (Some [w y]) None
                   else mkGate gname (Some [w y]) (Some [w x]) None]).
Proof.
  intros Hn.
  induction fuel as [|fuel IH]; intros k suf Hk Hd; cbn [adjacent_ctrl_loop];
    [discriminate|].
  destruct (branch_tests lo hi (lo + k)) as [-> ->].
  destruct (Z.ltb_spec (lo + k) hi) as [_|Hge]; [|lia].
  destruct (Z.eqb_spec (lo + hi - (lo + k) - (lo + k)) 1) as [H1|H1].
  - rewrite adjacent_ctrl_loop_app.
    replace (lo + k + 1) with (hi - k) by lia.
    destruct (adjacent_ctrl_loop fuel gname ctrl lo hi (hi - k) [])
      as [suf'|] eqn:E; cbn [option_map]; [|discriminate].
    intros [= <-] w acted x y. cbn [app].
    rewrite route_other by (destruct (hi =? ctrl); exact Hn).
    rewrite (adjacent_ctrl_loop_back fuel gname ctrl lo hi k suf' Hk Hd E).
    f_equal. f_equal.
    destruct (hi =? ctrl); unfold relabel, mkGate;
      cbn [name targets controls arg_value classical_controls control_value
           classical_control_value option_map map];
      rewrite placement_low, (placement_high lo hi k x y Hd); reflexivity.
  - destruct (Z.eqb_spec (lo + hi - (lo + k) - (lo + k)) 2) as [H2|H2].
    + rewrite adjacent_ctrl_loop_app.
      replace (lo + k + 1 + 1) with (hi - k) by lia.
      destruct (adjacent_ctrl_loop fuel gname ctrl lo hi (hi - k) [])
        as [suf'|] eqn:E; cbn [option_map]; [|discriminate].
      intros [= <-] w acted x y. cbn [app].
      rewrite route_swap.
      rewrite route_other by (destruct (hi =? ctrl); exact Hn).
      rewrite route_swap, exchange_twice.
      rewrite (adjacent_ctrl_loop_back fuel gname ctrl lo hi k suf' Hk Hd E).
      f_equal. f_equal.
      destruct (hi =? ctrl); unfold relabel, mkGate;
        cbn [name targets controls arg_value classical_controls control_value
             classical_control_value option_map map];
        rewrite exchange_second;
        rewrite (exchange_elsewhere (lo + k) (lo + k + 1) (lo + k + 2))
          by lia;
        replace (lo + k + 2) with (hi - k) by lia;
        rewrite placement_low, (placement_high lo hi k x y Hd); reflexivity.
    + rewrite adjacent_ctrl_loop_app.
      replace (lo + k + 1) with (lo + (k + 1)) by lia.
      destruct (adjacent_ctrl_loop fuel gname ctrl lo hi (lo + (k + 1)) [])
        as [suf'|] eqn:E; cbn [option_map]; [|discriminate].
      intros [= <-] w acted x y. cbn [app].
      rewrite !route_swap.
      replace (lo + hi - (lo + k) - 1) with (hi - k - 1) by lia.
      replace (lo + hi - (lo + k)) with (hi - k) by lia.
      replace (lo + (k + 1)) with (lo + k + 1) by lia.
      rewrite placement_closer by lia.
      apply (IH (k + 1) suf'); [lia|lia|exact E].
Qed.

(** The same for a swap-like gate; a SWAP is itself an exchange of the two
    operands. *)
Lemma adjacent_swap_loop_forward (fuel : nat) (gname : string) (lo hi : Z) :
  forall (k : Z) (suf : list Gate),
    0 <= k -> lo + k < hi - k ->
    adjacent_swap_loop fuel gname lo hi (lo + k) [] = Some suf ->
    forall (w : wires) (acted : list Gate) (x y : Z),
      route suf (fun p => w (placement lo hi k x y p)) acted
      = if String.eqb gname "SWAP"
        then ((fun p => w (placement lo hi 0 y x p)), acted)
        else ((fun p => w (placement lo hi 0 x y p)),
              acted ++ [mkGate gname (Some [w x; w y]) None None]).
Proof.
  induction fuel as [|fuel IH]; intros k suf Hk Hd; cbn [adjacent_swap_loop];
    [discriminate|].
  destruct (branch_tests lo hi (lo + k)) as [-> ->].
  destruct (Z.ltb_spec (lo + k) hi) as [_|Hge]; [|lia].
  destruct (Z.eqb_spec (lo + hi - (lo + k) - (lo + k)) 1) as [H1|H1].
  - rewrite adjacent_swap_loop_app.
    replace (lo + k + 1) with (hi - k) by lia.
    destruct (adjacent_swap_loop fuel gname lo hi (hi - k) [])
      as [suf'|] eqn:E; cbn [option_map]; [|discriminate].
    intros [= <-] w acted x y. cbn [app].
    destruct (String.eqb_spec gname "SWAP") as [->|Hn].
    + change (mkGate "SWAP" (Some [lo + k; hi - k]) None None)
        with (SWAP_ (lo + k) (hi - k)).
      rewrite route_swap.
      replace (hi - k) with (lo + k + 1) at 1 by lia.
      rewrite placement_exchange_odd by lia.
      apply (adjacent_swap_loop_back fuel "SWAP" lo hi k suf' Hk Hd E).
    + apply String.eqb_neq in Hn. rewrite route_other by exact Hn.
      rewrite (adjacent_swap_loop_back fuel gname lo hi k suf' Hk Hd E).
      f_equal. f_equal. unfold relabel, mkGate.
      cbn [name targets controls arg_value classical_controls control_value
           classical_control_value option_map map].
      rewrite placement_low, (placement_high lo hi k x y Hd). reflexivity.
  - destruct (Z.eqb_spec (lo + hi - (lo + k) - (lo + k)) 2) as [H2|H2].
    + rewrite adjacent_swap_loop_app.
      replace (lo + k + 1 + 1) with (hi - k) by lia.
      destruct (adjacent_swap_loop fuel gname lo hi (hi - k) [])
        as [suf'|] eqn:E; cbn [option_map]; [|discriminate].
      intros [= <-] w acted x y. cbn [app].
      rewrite route_swap.
      destruct (String.eqb_spec gname "SWAP") as [->|Hn].
      * change (mkGate "SWAP" (Some [lo + k + 1; lo + k + 2]) None None)
          with (SWAP_ (lo + k + 1) (lo + k + 2)).
        rewrite !route_swap.
        rewrite placement_exchange_even by lia.
        apply (adjacent_swap_loop_back fuel "SWAP" lo hi k suf' Hk Hd E).
      * apply String.eqb_neq in Hn. rewrite route_other by exact Hn.
        rewrite route_swap, exchange_twice.
        rewrite (adjacent_swap_loop_back fuel gname lo hi k suf' Hk Hd E).
        f_equal. f_equal. unfold relabel, mkGate.
        cbn [name targets controls arg_value classical_controls control_value
             classical_control_value option_map map].
        rewrite exchange_second.
        rewrite (exchange_elsewhere (lo + k) (lo + k + 1) (lo + k + 2))
          by lia.
        replace (lo + k + 2) with (hi - k) by lia.
        rewrite placement_low, (placement_high lo hi k x y Hd). reflexivity.
    + rewrite adjacent_swap_loop_app.
      replace (lo + k + 1) with (lo + (k + 1)) by lia.
      destruct (adjacent_swap_loop fuel gname lo hi (lo + (k + 1)) [])
        as [suf'|] eqn:E; cbn [option_map]; [|discriminate].
      intros [= <-] w acted x y. cbn [app].
      rewrite !route_swap.
      replace (lo + hi - (lo + k) - 1) with (hi - k - 1) by lia.
      replace (lo + hi - (lo + k)) with (hi - k) by lia.
      replace (lo + (k + 1)) with (lo + k + 1) by lia.
      rewrite placement_closer by lia.
      apply (IH (k + 1) suf'); [lia|lia|exact E].
Qed.

Lemma ctrl_name_not_swap (nm : string) :
  (String.eqb nm "CNOT" || String.eqb nm "CSIGN") = true ->
  String.eqb nm "SWAP" = false.
Proof.
  intros H. apply orb_true_iff in H.
  destruct H as [H|H]; apply String.eqb_eq in H; subst; reflexivity.
Qed.

Lemma relabel_mkGate (w : wires) (nm : string) (tg ct : option (list Z))
    (arg : option R) :
  relabel w (mkGate nm tg ct arg)
  = mkGate nm (option_map (map w) tg) (option_map (map w) ct) arg.
Proof. reflexivity. Qed.

(** What [adjacent_gate] appends for a gate on two different qubits reads
    as the gate itself in emitted form. *)
Lemma adjacent_gate_route (g : Gate) (out r : list Gate) :
  adjacent_gate g out = Some (Ok r) ->
  distinct_operands g ->
  exists suf,
    r = out ++ suf /\
    forall (w : wires) (acted : list Gate),
      route suf w acted = route [emitted_form g] w acted.
Proof.
  intros H Hdist.
  destruct (adjacent_gate_ok_inv g out r H)
    as (a & b & Hpair & [[Hn Hloop]|(Hn' & Hn & Hloop)]);
    unfold distinct_operands in Hdist; rewrite Hpair in Hdist;
    unfold emitted_form; rewrite Hpair.
  - rewrite Hn.
    rewrite adjacent_ctrl_loop_app in Hloop.
    destruct (adjacent_ctrl_loop _ _ _ _ _ _ []) as [suf|] eqn:E;
      cbn [option_map] in Hloop; [|discriminate].
    injection Hloop as <-. exists suf. split; [reflexivity|].
    intros w acted.
    replace (Z.min a b) with (Z.min a b + 0) in E at 3 by lia.
    pose proof (adjacent_ctrl_loop_forward _ (name g) b (Z.min a b) (Z.max a b)
                  (ctrl_name_not_swap _ Hn) 0 suf (Z.le_refl 0)
                  ltac:(lia) E w acted (Z.min a b) (Z.max a b)) as Hr.
    rewrite placement_start in Hr. rewrite Hr.
    rewrite route_other by (apply ctrl_name_not_swap; exact Hn).
    cbn [route]. rewrite relabel_mkGate. cbn [option_map map].
    f_equal. f_equal.
    destruct (Z.eqb_spec (Z.max a b) b) as [Hmax|Hmax].
    + rewrite Z.min_l, Z.max_r by lia. reflexivity.
    + rewrite Z.min_r, Z.max_l by lia. reflexivity.
  - rewrite Hn'.
    rewrite adjacent_swap_loop_app in Hloop.
    destruct (adjacent_swap_loop _ _ _ _ _ []) as [suf|] eqn:E;
      cbn [option_map] in Hloop; [|discriminate].
    injection Hloop as <-. exists suf. split; [reflexivity|].
    intros w acted.
    replace (Z.min a b) with (Z.min a b + 0) in E at 3 by lia.
    pose proof (adjacent_swap_loop_forward _ (name g) (Z.min a b) (Z.max a b)
                  0 suf (Z.le_refl 0) ltac:(lia) E w acted
                  (Z.min a b) (Z.max a b)) as Hr.
    rewrite placement_start in Hr. rewrite Hr.
    destruct (String.eqb_spec (name g) "SWAP") as [Hs|Hs].
    + rewrite Hs. rewrite placement_start_exchanged. reflexivity.
    + apply String.eqb_neq in Hs.
      rewrite route_other by exact Hs. reflexivity.
Qed.

Lemma adjacent_loop_route (gs : list Gate) :
  forall out r,
    adjacent_loop gs out = Some (Ok r) ->
    Forall distinct_operands gs ->
    exists suf,
      r = out ++ suf /\
      forall (w : wires) (acted : list Gate),
        route suf w acted = route (map emitted_form gs) w acted.
Proof.
  induction gs as [|g tl IH]; intros out r; cbn [adjacent_loop map].
  - intros [= <-] _. exists []. split; [now rewrite app_nil_r|reflexivity].
  - destruct (adjacent_gate g out) as [[out'|e]|] eqn:E; try discriminate.
    intros H Hall. inversion Hall as [|? ? Hg Htl]; subst.
    destruct (adjacent_gate_route g out out' E Hg) as (s1 & -> & Hs1).
    destruct (IH _ _ H Htl) as (s2 & -> & Hs2).
    exists (s1 ++ s2). split; [now rewrite app_assoc|].
    intros w acted.
    rewrite route_app, Hs1, Hs2.
    change (emitted_form g :: map emitted_form tl)
      with ([emitted_form g] ++ map emitted_form tl).
    now rewrite route_app.
Qed.

(** X4.  Read with its SWAP gates as exchanges of lines, the circuit
    [adjacent_gates] returns acts as the program does: the same gates, in
    order, each on the qubits of the program in the same roles, and the
    same final placement of the qubits. *)
Theorem adjacent_gates_routes_operands (qc : QubitCircuit) (out : list Gate) :
  adjacent_gates qc = Some (Ok out) ->
  Forall distinct_operands (gates_of (gates qc)) ->
  forall (w : wires) (acted : list Gate),
    route out w acted
    = route (map emitted_form (gates_of (gates qc))) w acted.
Proof.
  unfold adjacent_gates.
  destruct (0 <? num_measurements (gates qc))%nat; [discriminate|].
  intros H Hall.
  destruct (adjacent_loop_route _ _ _ H Hall) as (suf & Hsuf & Hroute).
  cbn [app] in Hsuf. subst suf. exact Hroute.
Qed.

Lemma adjacent_gates_routes_operands_witness :
  exists out,
    adjacent_gates Examples.qc_cnot_03 = Some (Ok out) /\
    route out (fun p => p) []
    = ((fun p => p), [mkGate "CNOT" (Some [3]) (Some [0]) None]).
Proof.
  eexists. split; [reflexivity|].
  rewrite (adjacent_gates_routes_operands Examples.qc_cnot_03 _ eq_refl).
  - reflexivity.
  - repeat constructor. cbv. discriminate.
Defined.

Lemma relabel_id (g : Gate) : relabel (fun p => p) g = g.
Proof.
  destruct g as [nm tg ct arg cc cv ccv]. unfold relabel.
  cbn [name targets controls arg_value classical_controls control_value
       classical_control_value].
  destruct tg, ct; cbn [option_map]; rewrite ?map_id; reflexivity.
Qed.

Lemma route_no_swap (gs : list Gate) :
  Forall (fun g => String.eqb (name g) "SWAP" = false) gs ->
  forall acted, route gs (fun p => p) acted = ((fun p => p), acted ++ gs).
Proof.
  induction 1 as [|g tl Hg _ IH]; intros acted.
  - cbn [route]. now rewrite app_nil_r.
  - rewrite route_other by exact Hg. rewrite IH, relabel_id, <- app_assoc.
    reflexivity.
Qed.

Lemma emitted_form_name (g : Gate) : name (emitted_form g) = name g.
Proof.
  unfold emitted_form. destruct (operand_pair g) as [[a b]|]; [|reflexivity].
  destruct (String.eqb (name g) "CNOT" || String.eqb (name g) "CSIGN");
    reflexivity.
Qed.

(** X5.  When the program has no SWAP of its own, the swaps the pass inserts
    cancel out: every qubit ends on its line, and the gates applied in
    between are those of the program, in order, on their own operands. *)
Theorem adjacent_gates_swaps_cancel (qc : QubitCircuit) (out : list Gate) :
  adjacent_gates qc = Some (Ok out) ->
  Forall distinct_operands (gates_of (gates qc)) ->
  Forall (fun g => String.eqb (name g) "SWAP" = false) (gates_of (gates qc)) ->
  route out (fun p => p) []
  = ((fun p => p), map emitted_form (gates_of (gates qc))).
Proof.
  intros H Hd Hs.
  rewrite (adjacent_gates_routes_operands qc out H Hd).
  apply (route_no_swap (map emitted_form (gates_of (gates qc)))).
  apply Forall_map. eapply Forall_impl; [|exact Hs].
  intros g Hg. now rewrite emitted_form_name.
Qed.

Lemma adjacent_gates_swaps_cancel_witness :
  exists out,
    adjacent_gates Examples.qc_cnot_03 = Some (Ok out) /\
    route out (fun p => p) []
    = ((fun p => p), [mkGate "CNOT" (Some [3]) (Some [0]) None]).
Proof.
  eexists. split; [reflexivity|].
  rewrite (adjacent_gates_swaps_cancel Examples.qc_cnot_03 _ eq_refl).
  - reflexivity.
  - repeat constructor. cbv. discriminate.
  - repeat constructor.
Defined.

(** ** More on the resolver *)

Lemma inb_In (x : string) (l : list string) : inb x l = true -> In x l.
Proof.
  unfold inb. intros H. apply existsb_exists in H.
  destruct H as (y & Hy & Heq). apply String.eqb_eq in Heq. now subst.
Qed.

Lemma In_inb (x : string) (l : list string) : In x l -> inb x l = true.
Proof.
  intros H. unfold inb. apply existsb_exists. exists x.
  split; [exact H|apply String.eqb_refl].
Qed.

(** The per-gate loop on a program in two parts. *)
Lemma resolve_loop_app (pre rest : list Gate) (basis_1q basis_2q : list string) :
  forall qc_gates temp_resolved,
    resolve_loop (pre ++ rest) basis_1q basis_2q qc_gates temp_resolved
    = ('(q, t) <- resolve_loop pre basis_1q basis_2q qc_gates temp_resolved ;;
       resolve_loop rest basis_1q basis_2q q t).
Proof.
  induction pre as [|g tl IH]; intros qc_gates temp_resolved;
    cbn [app resolve_loop bind]; [reflexivity|].
  destruct (inb (name g) ["X"; "Y"; "Z"]);
    (destruct (_resolve_to_universal _ basis_1q basis_2q) as [emitted|[]];
     [apply IH|reflexivity..]).
Qed.

(** X6.  [resolve_gates] stops at the first gate that has no rule, with the
    error that names it. *)
Theorem resolve_gates_unsupported_gate (qc : QubitCircuit) (basis : BasisArg)
    (basis_1q basis_2q : list string) (pre post : list Gate) (g : Gate)
    (q t : list Gate) :
  num_measurements (gates qc) = 0%nat ->
  parse_basis basis = Ok (basis_1q, basis_2q) ->
  gates_of (gates qc) = pre ++ g :: post ->
  resolve_loop pre basis_1q basis_2q [] [] = Ok (q, t) ->
  inb (name g) ["X"; "Y"; "Z"] = false ->
  inb (name g) basis_2q = false ->
  gate_method (name g) = Raise AttributeError ->
  resolve_gates qc basis
  = Raise (NotImplementedError (CannotBeResolved (name g))) /\
  spec_error (NotImplementedError (CannotBeResolved (name g)))
  = UnsupportedGateError.
Proof.
  intros Hm Hparse Hgs Hpre Hxyz Hb2 Hmeth. split; [|reflexivity].
  unfold resolve_gates. rewrite Hm, Hparse. cbn [Nat.ltb Nat.leb bind].
  unfold resolve_body. rewrite Hgs, resolve_loop_app, Hpre.
  cbn [bind resolve_loop]. rewrite Hxyz.
  unfold _resolve_to_universal. rewrite Hb2.
  destruct (String.eqb (name g) "SWAP" && inb "ISWAP" basis_2q) eqn:Hsw.
  - apply andb_true_iff in Hsw. destruct Hsw as [Hsw _].
    apply String.eqb_eq in Hsw. rewrite Hsw in Hmeth. discriminate.
  - rewrite Hmeth. reflexivity.
Qed.

Lemma resolve_gates_unsupported_gate_witness :
  resolve_gates
    (Build_QubitCircuit 2 0
       [G (mkGate "SNOT" (Some [0]) None None);
        G (mkGate "CRZ" (Some [1]) (Some [0]) (Some PI))])
    default_basis
  = Raise (NotImplementedError (CannotBeResolved "CRZ")).
Proof.
  apply (resolve_gates_unsupported_gate
           (Build_QubitCircuit 2 0
              [G (mkGate "SNOT" (Some [0]) None None);
               G (mkGate "CRZ" (Some [1]) (Some [0]) (Some PI))])
           default_basis ["RX"; "RY"; "RZ"] ["CNOT"]
           [mkGate "SNOT" (Some [0]) None None] []
           (mkGate "CRZ" (Some [1]) (Some [0]) (Some PI))
           [] [GLOBALPHASE half_pi; rot "RY" (Some [0]) half_pi;
               rot "RX" (Some [0]) PI]);
    reflexivity.
Defined.

(** *** The gates of the returned circuit *)

Ltac stable_list :=
  repeat (apply Forall_cons;
          [first [ left; cbn; tauto
                 | right; do 3 eexists; reflexivity ]|]);
  apply Forall_nil.

(** Every rule emits stable gates. *)
Lemma gate_method_stable (gate : Gate)
    (method : Gate -> result (list Gate)) (emitted : list Gate) :
  gate_method (name gate) = Ok method ->
  method gate = Ok emitted ->
  Forall stable emitted.
Proof.
  unfold gate_method.
  destruct (inb (name gate) ["IGNORED"; "RY"; "RZ"; "basis_2q"; "IDLE"; "CNOT";
                             "RX"]) eqn:Hpass.
  { intros [= <-] [= <-]. apply Forall_cons; [|apply Forall_nil].
    left. apply inb_In. exact Hpass. }
  destruct (String.eqb (name gate) "SQRTNOT");
    [intros [= <-] [= <-]; stable_list|].
  destruct (String.eqb (name gate) "SNOT");
    [intros [= <-] [= <-]; stable_list|].
  destruct (String.eqb (name gate) "PHASEGATE").
  { intros [= <-]. unfold _gate_PHASEGATE.
    destruct (arg_value gate); [|discriminate].
    intros [= <-]. stable_list. }
  destruct (inb (name gate) ["NOTIMPLEMENTED"; "BERKELEY"; "SWAPalpha";
                             "SQRTSWAP"; "SQRTISWAP"]);
    [intros [= <-]; discriminate|].
  destruct (String.eqb (name gate) "CSIGN");
    [intros [= <-] [= <-]; stable_list|].
  destruct (String.eqb (name gate) "SWAP").
  { intros [= <-]. unfold _gate_SWAP.
    destruct (subscript (targets gate) 0); [|discriminate].
    destruct (subscript (targets gate) 1); [|discriminate].
    intros [= <-]. stable_list. }
  destruct (String.eqb (name gate) "ISWAP").
  { intros [= <-]. unfold _gate_ISWAP.
    destruct (subscript (targets gate) 0); [|discriminate].
    destruct (subscript (targets gate) 1); [|discriminate].
    intros [= <-]. stable_list. }
  destruct (String.eqb (name gate) "FREDKIN").
  { intros [= <-]. unfold _gate_FREDKIN.
    destruct (subscript (targets gate) 1); [|discriminate].
    destruct (subscript (targets gate) 0); [|discriminate].
    intros [= <-]. stable_list. }
  destruct (String.eqb (name gate) "TOFFOLI").
  { intros [= <-]. unfold _gate_TOFFOLI.
    destruct (subscript (controls gate) 1); [|discriminate].
    destruct (subscript (controls gate) 0); [|discriminate].
    intros [= <-]. stable_list. }
  destruct (String.eqb_spec (name gate) "GLOBALPHASE") as [Hn|Hn];
    [|discriminate].
  intros [= <-] [= <-]. unfold _gate_GLOBALPHASE. rewrite Hn. stable_list.
Qed.

(** The two-qubit tokens of a parsed request are valid ones. *)
Lemma split_basis_2q_valid (l : list string) :
  forall b1 b2 b1' b2',
    split_basis l b1 b2 = Ok (b1', b2') ->
    Forall (fun s => In s basis_2q_valid) b2 ->
    Forall (fun s => In s basis_2q_valid) b2'.
Proof.
  induction l as [|tok tl IH]; intros b1 b2 b1' b2'; cbn [split_basis].
  - intros [= _ <-]. auto.
  - destruct (inb tok basis_2q_valid) eqn:E2.
    + intros H Hb2. eapply IH; [exact H|].
      apply Forall_app. split; [exact Hb2|].
      constructor; [apply inb_In; exact E2|constructor].
    + destruct (inb tok basis_1q_valid); [|discriminate].
      intros H Hb2. eapply IH; eassumption.
Qed.

Lemma parse_basis_2q_valid (basis : BasisArg) (b1 b2 : list string) :
  parse_basis basis = Ok (b1, b2) ->
  Forall (fun s => In s basis_2q_valid) b2.
Proof.
  destruct basis as [l|s]; cbn [parse_basis].
  - destruct (split_basis l [] []) as [[c1 c2]|e] eqn:E; cbn [bind];
      [|discriminate].
    pose proof (split_basis_2q_valid l [] [] c1 c2 E (Forall_nil _)) as Hv.
    destruct (Nat.eqb (List.length c1) 1); [discriminate|].
    destruct (Nat.eqb (List.length c1) 0); intros [= _ <-]; exact Hv.
  - destruct (inb s basis_2q_valid) eqn:E; [|discriminate].
    intros [= _ <-]. constructor; [apply inb_In; exact E|constructor].
Qed.

(** Without CSIGN, ISWAP, SQRTSWAP and SQRTISWAP, the two-qubit tokens are
    all CNOT. *)
Lemma basis_2q_all_cnot (b2 : list string) :
  Forall (fun s => In s basis_2q_valid) b2 ->
  basis_unit_match b2 = None ->
  forall s, In s b2 -> s = "CNOT".
Proof.
  intros Hv Hnone s Hs. unfold basis_unit_match in Hnone.
  pose proof (find_none _ _ Hnone) as Hf.
  rewrite Forall_forall in Hv. specialize (Hv s Hs).
  unfold basis_2q_valid in Hv. cbn [In] in Hv.
  destruct Hv as [<-|[<-|[<-|[<-|[<-|[]]]]]]; [reflexivity|..];
    match goal with
    | |- ?u = _ =>
        assert (Hu : inb u b2 = false) by (apply Hf; cbn; tauto);
        rewrite (In_inb _ _ Hs) in Hu; discriminate
    end.
Qed.

Lemma resolve_to_universal_stable (gate : Gate) (b1 b2 : list string)
    (emitted : list Gate) :
  (forall s, In s b2 -> s = "CNOT") ->
  _resolve_to_universal gate b1 b2 = Ok emitted ->
  Forall stable emitted.
Proof.
  intros Hb2. unfold _resolve_to_universal.
  destruct (inb (name gate) b2) eqn:Hin.
  - intros [= <-]. constructor; [|constructor].
    left. rewrite (Hb2 _ (inb_In _ _ Hin)). cbn. tauto.
  - destruct (String.eqb (name gate) "SWAP" && inb "ISWAP" b2) eqn:Hsw.
    + apply andb_true_iff in Hsw. destruct Hsw as [_ Hsw].
      apply inb_In, Hb2 in Hsw. discriminate.
    + destruct (gate_method (name gate)) as [method|e] eqn:Hm; cbn [bind];
        [|discriminate].
      intros H. eapply gate_method_stable; eassumption.
Qed.

Lemma resolve_loop_stable (gs : list Gate) (b1 b2 : list string) :
  (forall s, In s b2 -> s = "CNOT") ->
  forall q t q' t',
    resolve_loop gs b1 b2 q t = Ok (q', t') ->
    Forall stable t -> Forall stable t'.
Proof.
  intros Hb2.
  induction gs as [|g tl IH]; intros q t q' t'; cbn [resolve_loop].
  - intros [= _ <-]. auto.
  - destruct (inb (name g) ["X"; "Y"; "Z"]);
      (destruct (_resolve_to_universal _ b1 b2) as [emitted|e] eqn:E;
       [|destruct e; discriminate]);
      intros H Ht; (eapply IH; [exact H|]);
      (apply Forall_app; split; [exact Ht|]);
      eapply resolve_to_universal_stable; eassumption.
Qed.

Lemma final_1q_gate_stable (b1 : list string) (g : Gate) :
  stable g -> Forall stable (final_1q_gate b1 g).
Proof.
  intros Hg. unfold final_1q_gate.
  repeat match goal with
         | |- context [if ?c then _ else _] => destruct c
         end;
    try stable_list.
  constructor; [exact Hg|constructor].
Qed.

Lemma final_1q_stage_stable (b1 : list string) (gs : list Gate) :
  Forall stable gs -> Forall stable (final_1q_stage b1 gs).
Proof.
  intros H. unfold final_1q_stage.
  destruct (Nat.eqb (List.length b1) 2); [|exact H].
  induction H as [|g tl Hg _ IH]; cbn [flat_map]; [constructor|].
  apply Forall_app. split; [apply final_1q_gate_stable; exact Hg|exact IH].
Qed.

(** What [resolve_gates] yields when the request names no two-qubit gate
    other than CNOT. *)
Lemma resolve_gates_cnot_basis_inv (qc : QubitCircuit) (basis : BasisArg)
    (b1 b2 : list string) (out : list Gate) :
  resolve_gates qc basis = Ok out ->
  parse_basis basis = Ok (b1, b2) ->
  basis_unit_match b2 = None ->
  exists q t,
    resolve_loop (gates_of (gates qc)) b1 b2 [] [] = Ok (q, t) /\
    out = final_1q_stage b1 t.
Proof.
  unfold resolve_gates.
  destruct (0 <? num_measurements (gates qc))%nat; [discriminate|].
  intros H Hparse Hnone. rewrite Hparse in H. cbn [bind] in H.
  unfold resolve_body in H.
  destruct (resolve_loop _ b1 b2 [] []) as [[q t]|e]; [|discriminate].
  cbn [bind] in H. unfold resolve_2q_stage in H. rewrite Hnone in H.
  cbn [bind] in H. injection H as <-. eauto.
Qed.

(** X7.  With CNOT as two-qubit gate, every gate of the circuit
    [resolve_gates] returns is named RX, RY, RZ, IDLE, CNOT or GLOBALPHASE
    (or carries one of the two method names IGNORED and basis_2q, which the
    dispatch by name also hands on). *)
Theorem resolve_gates_cnot_basis_names (qc : QubitCircuit) (basis : BasisArg)
    (b1 b2 : list string) (out : list Gate) :
  resolve_gates qc basis = Ok out ->
  parse_basis basis = Ok (b1, b2) ->
  basis_unit_match b2 = None ->
  Forall (fun g => In (name g) (pass_names ++ ["GLOBALPHASE"])) out.
Proof.
  intros H Hparse Hnone.
  destruct (resolve_gates_cnot_basis_inv qc basis b1 b2 out H Hparse Hnone)
    as (q & t & Hloop & ->).
  assert (Hs : Forall stable (final_1q_stage b1 t)).
  { apply final_1q_stage_stable.
    eapply resolve_loop_stable; [|exact Hloop|constructor].
    apply basis_2q_all_cnot; [|exact Hnone].
    eapply parse_basis_2q_valid; exact Hparse. }
  eapply Forall_impl; [|exact Hs].
  intros g [Hg|(tg & ct & arg & ->)]; apply in_or_app.
  - left. exact Hg.
  - right. cbn. tauto.
Qed.

Lemma resolve_gates_cnot_basis_names_witness :
  exists out,
    resolve_gates
      (Build_QubitCircuit 3 0
         [G (mkGate "TOFFOLI" (Some [2]) (Some [0; 1]) None)])
      default_basis = Ok out /\
    Forall (fun g => In (name g) (pass_names ++ ["GLOBALPHASE"])) out.
Proof.
  eexists. split; [reflexivity|].
  apply (resolve_gates_cnot_basis_names
           (Build_QubitCircuit 3 0
              [G (mkGate "TOFFOLI" (Some [2]) (Some [0; 1]) None)])
           default_basis ["RX"; "RY"; "RZ"] ["CNOT"]);
    reflexivity.
Defined.

(** *** The resolver applied to its own output *)

Lemma stable_not_xyz (g : Gate) :
  stable g -> inb (name g) ["X"; "Y"; "Z"] = false.
Proof.
  intros [Hg|(tg & ct & arg & ->)]; [|reflexivity].
  unfold pass_names in Hg. cbn [In] in Hg.
  destruct Hg as [<-|[<-|[<-|[<-|[<-|[<-|[<-|[]]]]]]]]; reflexivity.
Qed.

(** A stable gate is handed on as it is. *)
Lemma resolve_to_universal_fixed (g : Gate) (b1 b2 : list string) :
  stable g -> _resolve_to_universal g b1 b2 = Ok [g].
Proof.
  intros Hg. unfold _resolve_to_universal.
  destruct (inb (name g) b2); [reflexivity|].
  destruct (String.eqb (name g) "SWAP" && inb "ISWAP" b2); [reflexivity|].
  destruct Hg as [Hg|(tg & ct & arg & ->)]; [|reflexivity].
  unfold gate_method. fold pass_names. rewrite (In_inb _ _ Hg). reflexivity.
Qed.

Lemma resolve_loop_fixed (gs : list Gate) (b1 b2 : list string) :
  Forall stable gs ->
  forall q t, resolve_loop gs b1 b2 q t = Ok (q, t ++ gs).
Proof.
  induction 1 as [|g tl Hg _ IH]; intros q t; cbn [resolve_loop].
  - now rewrite app_nil_r.
  - rewrite (stable_not_xyz g Hg), (resolve_to_universal_fixed g b1 b2 Hg).
    rewrite IH, <- app_assoc. reflexivity.
Qed.

(** X8.  For a request with CNOT as two-qubit gate and a one-qubit part that
    does not trigger the final pass, [resolve_gates] is idempotent: applied
    to a circuit it returned, it returns that circuit. *)
Theorem resolve_gates_idempotent (qc : QubitCircuit) (basis : BasisArg)
    (b1 b2 : list string) (out : list Gate) :
  resolve_gates qc basis = Ok out ->
  parse_basis basis = Ok (b1, b2) ->
  basis_unit_match b2 = None ->
  List.length b1 <> 2%nat ->
  resolve_gates (with_gates qc out) basis = Ok out.
Proof.
  intros H Hparse Hnone Hlen.
  destruct (resolve_gates_cnot_basis_inv qc basis b1 b2 out H Hparse Hnone)
    as (q & t & Hloop & ->).
  assert (Hfin : forall l, final_1q_stage b1 l = l).
  { intros l. unfold final_1q_stage.
    destruct (Nat.eqb_spec (List.length b1) 2); [contradiction|reflexivity]. }
  rewrite Hfin.
  assert (Hs : Forall stable t).
  { eapply resolve_loop_stable; [|exact Hloop|constructor].
    apply basis_2q_all_cnot; [|exact Hnone].
    eapply parse_basis_2q_valid; exact Hparse. }
  unfold resolve_gates, with_gates. cbn [gates].
  rewrite num_measurements_map_G, gates_of_map_G, Hparse.
  cbn [Nat.ltb Nat.leb bind]. unfold resolve_body.
  rewrite (resolve_loop_fixed t b1 b2 Hs [] []). cbn [bind app].
  unfold resolve_2q_stage. rewrite Hnone. cbn [bind]. now rewrite Hfin.
Qed.

Lemma resolve_gates_idempotent_witness :
  exists out,
    resolve_gates
      (Build_QubitCircuit 2 0 [G (mkGate "ISWAP" (Some [0; 1]) None None)])
      default_basis = Ok out /\
    resolve_gates
      (with_gates
         (Build_QubitCircuit 2 0 [G (mkGate "ISWAP" (Some [0; 1]) None None)])
         out)
      default_basis = Ok out.
Proof.
  eexists. split; [reflexivity|].
  apply (resolve_gates_idempotent
           (Build_QubitCircuit 2 0 [G (mkGate "ISWAP" (Some [0; 1]) None None)])
           default_basis ["RX"; "RY"; "RZ"] ["CNOT"]).
  - reflexivity.
  - reflexivity.
  - reflexivity.
  - cbn. lia.
Defined.

(** *** The two-qubit basis transformer *)

Ltac not_cnot_list :=
  repeat (apply Forall_cons; [unfold not_cnot; cbn; discriminate|]);
  apply Forall_nil.

Lemma basis_rule_not_cnot (rule : Gate -> result (list Gate)) :
  In rule [_basis_CSIGN_gate; _basis_ISWAP_gate; _basis_SQRTSWAP_gate;
           _basis_SQRTISWAP_gate] ->
  forall g emitted, rule g = Ok emitted -> Forall not_cnot emitted.
Proof.
  intros Hin g emitted. cbn [In] in Hin.
  destruct Hin as [<-|[<-|[<-|[<-|[]]]]];
    unfold _basis_CSIGN_gate, _basis_ISWAP_gate, _basis_SQRTSWAP_gate,
           _basis_SQRTISWAP_gate;
    (destruct (String.eqb_spec (name g) "CNOT") as [Hc|Hc];
     [ repeat match goal with
              | |- context [subscript ?x ?i] =>
                  destruct (subscript x i); cbn [bind]; [|discriminate]
              end;
       intros [= <-]; not_cnot_list
     | ]).
  - intros [= <-]. constructor; [exact Hc|constructor].
  - destruct (String.eqb (name g) "SWAP").
    + repeat match goal with
             | |- context [subscript ?x ?i] =>
                 destruct (subscript x i); cbn [bind]; [|discriminate]
             end.
      intros [= <-]. not_cnot_list.
    + intros [= <-]. constructor; [exact Hc|constructor].
  - intros [= <-]. constructor; [exact Hc|constructor].
  - intros [= <-]. constructor; [exact Hc|constructor].
Qed.

Lemma for_gates_not_cnot (rule : Gate -> result (list Gate)) :
  (forall g emitted, rule g = Ok emitted -> Forall not_cnot emitted) ->
  forall gs out r,
    for_gates rule gs out = Ok r -> Forall not_cnot out -> Forall not_cnot r.
Proof.
  intros Hrule. induction gs as [|g tl IH]; intros out r; cbn [for_gates].
  - intros [= <-]. auto.
  - destruct (rule g) as [emitted|e] eqn:E; cbn [bind]; [|discriminate].
    intros H Hout. eapply IH; [exact H|].
    apply Forall_app. split; [exact Hout|]. eapply Hrule; exact E.
Qed.

(** The gates [resolve_gates] puts aside in [qc_temp.gates] are phases. *)
Lemma resolve_loop_phases (gs : list Gate) (b1 b2 : list string) :
  forall q t q' t',
    resolve_loop gs b1 b2 q t = Ok (q', t') ->
    Forall not_cnot q -> Forall not_cnot q'.
Proof.
  induction gs as [|g tl IH]; intros q t q' t'; cbn [resolve_loop].
  - intros [= <- _]. auto.
  - destruct (inb (name g) ["X"; "Y"; "Z"]);
      (destruct (_resolve_to_universal _ b1 b2) as [emitted|e];
       [|destruct e; discriminate]);
      intros H Hq; (eapply IH; [exact H|]); [|exact Hq].
    apply Forall_app. split; [exact Hq|]. not_cnot_list.
Qed.

Lemma final_1q_stage_not_cnot (b1 : list string) (gs : list Gate) :
  Forall not_cnot gs -> Forall not_cnot (final_1q_stage b1 gs).
Proof.
  intros H. unfold final_1q_stage.
  destruct (Nat.eqb (List.length b1) 2); [|exact H].
  induction H as [|g tl Hg _ IH]; cbn [flat_map]; [constructor|].
  apply Forall_app. split; [|exact IH].
  unfold final_1q_gate.
  repeat match goal with
         | |- context [if ?c then _ else _] => destruct c
         end;
    try not_cnot_list.
  constructor; [exact Hg|constructor].
Qed.

(** X9.  When the request names CSIGN, ISWAP, SQRTSWAP or SQRTISWAP, the circuit
    [resolve_gates] returns holds no CNOT: the CNOT gates of the program and
    those the rules introduce are all rewritten. *)
Theorem resolve_gates_transformer_removes_cnot (qc : QubitCircuit)
    (basis : BasisArg) (b1 b2 : list string) (u : string) (out : list Gate) :
  resolve_gates qc basis = Ok out ->
  parse_basis basis = Ok (b1, b2) ->
  basis_unit_match b2 = Some u ->
  Forall (fun g => name g <> "CNOT") out.
Proof.
  unfold resolve_gates.
  destruct (0 <? num_measurements (gates qc))%nat; [discriminate|].
  intros H Hparse Hu. rewrite Hparse in H. cbn [bind] in H.
  unfold resolve_body in H.
  destruct (resolve_loop _ b1 b2 [] []) as [[q t]|e] eqn:Hloop;
    [|discriminate].
  cbn [bind] in H. unfold resolve_2q_stage in H. rewrite Hu in H.
  destruct (_resolve_2q_basis u q t) as [mid|e] eqn:Hmid; [|discriminate].
  cbn [bind] in H. injection H as <-.
  apply final_1q_stage_not_cnot.
  assert (Hq : Forall not_cnot q).
  { eapply resolve_loop_phases; [exact Hloop|constructor]. }
  unfold _resolve_2q_basis in Hmid.
  repeat match type of Hmid with
         | (if ?c then _ else _) = _ =>
             destruct c;
             [eapply for_gates_not_cnot; [|exact Hmid|exact Hq];
              apply basis_rule_not_cnot; cbn; tauto|]
         end.
  discriminate.
Qed.

Lemma resolve_gates_transformer_removes_cnot_witness :
  exists out,
    resolve_gates
      (Build_QubitCircuit 2 0 [G (mkGate "SWAP" (Some [0; 1]) None None)])
      (BasisName "SQRTISWAP") = Ok out /\
    Forall (fun g => name g <> "CNOT") out.
Proof.
  eexists. split; [reflexivity|].
  apply (resolve_gates_transformer_removes_cnot
           (Build_QubitCircuit 2 0 [G (mkGate "SWAP" (Some [0; 1]) None None)])
           (BasisName "SQRTISWAP") ["RX"; "RY"; "RZ"] ["SQRTISWAP"]
           "SQRTISWAP");
    reflexivity.
Defined.

(** *** Exactness on a one-qubit register *)

Ltac by_components :=
  repeat match goal with
         | m : C2.M2 |- _ => destruct m as [[? ?] [? ?] [? ?] [? ?]]
         | c : C2.C |- _ => destruct c as [? ?]
         end;
  apply M2_eq; apply C_eq; cbn; ring.

Lemma mmul_I2_r (m : C2.M2) : C2.mmul m C2.I2 = m.
Proof. by_components. Qed.

Lemma mmul_I2_l (m : C2.M2) : C2.mmul C2.I2 m = m.
Proof. by_components. Qed.

Lemma mmul_assoc (a b c : C2.M2) :
  C2.mmul a (C2.mmul b c) = C2.mmul (C2.mmul a b) c.
Proof. by_components. Qed.

Lemma mmul_scalar_comm (c : C2.C) (m : C2.M2) :
  C2.mmul m (C2.mscale c C2.I2) = C2.mmul (C2.mscale c C2.I2) m.
Proof. by_components. Qed.

Lemma then_assoc (a b c : option C2.M2) :
  then_ (then_ a b) c = then_ a (then_ b c).
Proof.
  destruct a, b, c; cbn [then_]; try reflexivity.
  now rewrite mmul_assoc.
Qed.

Lemma then_I2_l (a : option C2.M2) : then_ (Some C2.I2) a = a.
Proof. destruct a; cbn [then_]; [now rewrite mmul_I2_r|reflexivity]. Qed.

Lemma then_I2_r (a : option C2.M2) : then_ a (Some C2.I2) = a.
Proof. destruct a; cbn [then_]; [now rewrite mmul_I2_l|reflexivity]. Qed.

Lemma then_scalar_comm (s a : option C2.M2) :
  scalar s -> then_ s a = then_ a s.
Proof.
  intros (c & ->). destruct a; cbn [then_]; [|reflexivity].
  now rewrite mmul_scalar_comm.
Qed.

Lemma scalar_then (s1 s2 : option C2.M2) :
  scalar s1 -> scalar s2 -> scalar (then_ s1 s2).
Proof.
  intros (c1 & ->) (c2 & ->). exists (C2.Cmul c2 c1). cbn [then_]. f_equal.
  by_components.
Qed.

Lemma sequence_product_acc (gs : list Gate) :
  forall acc : C2.M2,
    C2.sequence_product gs acc = then_ (Some acc) (C2.compute_unitary gs).
Proof.
  unfold C2.compute_unitary.
  induction gs as [|g tl IH]; intros acc; cbn [C2.sequence_product].
  - cbn [then_]. now rewrite mmul_I2_l.
  - destruct (C2.gate_matrix g) as [m|]; [|reflexivity].
    rewrite (IH (C2.mmul m acc)), (IH (C2.mmul m C2.I2)).
    destruct (C2.sequence_product tl C2.I2) as [y|]; cbn [then_];
      [|reflexivity].
    now rewrite mmul_I2_r, mmul_assoc.
Qed.

Lemma compute_unitary_cons (g : Gate) (tl : list Gate) :
  C2.compute_unitary (g :: tl)
  = then_ (C2.gate_matrix g) (C2.compute_unitary tl).
Proof.
  unfold C2.compute_unitary at 1. cbn [C2.sequence_product].
  destruct (C2.gate_matrix g) as [m|]; [|reflexivity].
  now rewrite sequence_product_acc, mmul_I2_r.
Qed.

Lemma compute_unitary_app (l1 l2 : list Gate) :
  C2.compute_unitary (l1 ++ l2)
  = then_ (C2.compute_unitary l1) (C2.compute_unitary l2).
Proof.
  induction l1 as [|g tl IH]; cbn [app].
  - change (C2.compute_unitary []) with (Some C2.I2).
    now rewrite then_I2_l.
  - now rewrite !compute_unitary_cons, IH, then_assoc.
Qed.

Lemma compute_unitary_single (g : Gate) :
  C2.compute_unitary [g] = C2.gate_matrix g.
Proof.
  rewrite compute_unitary_cons.
  change (C2.compute_unitary []) with (Some C2.I2). apply then_I2_r.
Qed.

(** The matrix of a gate depends on its name and its angle only. *)
Lemma gate_matrix_name (g : Gate) (nm : string) :
  name g = nm ->
  C2.gate_matrix g = C2.gate_matrix (mkGate nm None None (arg_value g)).
Proof. intros <-. reflexivity. Qed.

Lemma not_in_basis_2q (nm : string) (b2 : list string) :
  Forall (fun s => In s basis_2q_valid) b2 ->
  ~ In nm basis_2q_valid ->
  inb nm b2 = false.
Proof.
  intros Hv Hnm. destruct (inb nm b2) eqn:E; [|reflexivity].
  apply inb_In in E. rewrite Forall_forall in Hv. destruct (Hnm (Hv _ E)).
Qed.

Ltac not_listed :=
  cbn [In basis_2q_valid];
  intros H;
  repeat match type of H with
         | _ \/ _ => destruct H as [H|H]
         end; (discriminate || contradiction).

Ltac plain_list :=
  repeat (apply Forall_cons; [unfold plain; cbn; tauto|]);
  apply Forall_nil.

(** The rule of a gate other than X, Y and Z emits rotations and phases
    whose product is the matrix of the gate. *)
Lemma resolve_to_universal_exact (g : Gate) (b1 b2 : list string)
    (emitted : list Gate) :
  Forall (fun s => In s basis_2q_valid) b2 ->
  In (name g) exact_names ->
  _resolve_to_universal g b1 b2 = Ok emitted ->
  C2.compute_unitary emitted = C2.compute_unitary [g] /\
  Forall plain emitted.
Proof.
  intros Hv Hnm. unfold _resolve_to_universal.
  rewrite compute_unitary_single.
  cbn [In exact_names] in Hnm.
  destruct Hnm as [E|[E|[E|[E|[E|[E|[E|[]]]]]]]];
    rewrite (gate_matrix_name g _ (eq_sym E)); rewrite <- E;
    (rewrite (not_in_basis_2q _ b2 Hv) by not_listed);
    cbn [String.eqb Ascii.eqb Bool.eqb andb gate_method inb existsb orb bind].
  - intros H. split.
    + rewrite (snot_rule_exact g _ H). reflexivity.
    + injection H as <-. plain_list.
  - intros H. split.
    + rewrite (sqrtnot_rule_exact g _ H). reflexivity.
    + injection H as <-. plain_list.
  - destruct (arg_value g) as [a|] eqn:Ha.
    + intros H. split.
      * rewrite (phasegate_rule_exact g a _ Ha H). reflexivity.
      * unfold _gate_PHASEGATE in H. rewrite Ha in H. injection H as <-.
        plain_list.
    + unfold _gate_PHASEGATE. rewrite Ha. discriminate.
  - intros [= <-]. split.
    + rewrite compute_unitary_single. apply gate_matrix_name. now symmetry.
    + apply Forall_cons; [|apply Forall_nil].
      unfold plain. rewrite <- E. cbn. tauto.
  - intros [= <-]. split.
    + rewrite compute_unitary_single. apply gate_matrix_name. now symmetry.
    + apply Forall_cons; [|apply Forall_nil].
      unfold plain. rewrite <- E. cbn. tauto.
  - intros [= <-]. split.
    + rewrite compute_unitary_single. apply gate_matrix_name. now symmetry.
    + apply Forall_cons; [|apply Forall_nil].
      unfold plain. rewrite <- E. cbn. tauto.
  - intros [= <-]. split.
    + rewrite compute_unitary_single. rewrite <- E. reflexivity.
    + apply Forall_cons; [|apply Forall_nil].
      unfold plain. rewrite <- E. cbn. tauto.
Qed.

(** The phase and the rotation that replace X, Y or Z multiply out to the
    matrix of the gate. *)
Lemma pauli_with_phase (g : Gate) :
  In (name g) pauli_names ->
  then_ (C2.compute_unitary [GLOBALPHASE (PI / 2)%R])
        (C2.compute_unitary
           [mkGate (String.append "R" (name g)) (targets g) None (Some PI)])
  = C2.compute_unitary [g].
Proof.
  intros Hnm. rewrite !compute_unitary_single.
  cbn [In pauli_names] in Hnm.
  destruct Hnm as [E|[E|[E|[]]]];
    rewrite (gate_matrix_name g _ (eq_sym E)); rewrite <- E;
    cbn; f_equal;
    apply M2_eq; apply C_eq; cbn;
    replace (- PI / 2)%R with (- (PI / 2))%R by lra;
    rewrite ?cos_neg, ?sin_neg, ?cos_PI2, ?sin_PI2; lra.
Qed.

Lemma phase_scalar (a : R) : scalar (C2.compute_unitary [GLOBALPHASE a]).
Proof.
  exists (C2.Cexp a). rewrite compute_unitary_single. reflexivity.
Qed.

(** The final pass replaces a rotation by three rotations with the same
    matrix. *)
Lemma final_1q_gate_exact (b1 : list string) (g : Gate) :
  C2.compute_unitary (final_1q_gate b1 g) = C2.compute_unitary [g].
Proof.
  unfold final_1q_gate.
  destruct (String.eqb (name g) "RX" && negb (inb "RX" b1)) eqn:Ex;
    [|destruct (String.eqb (name g) "RY" && negb (inb "RY" b1)) eqn:Ey;
      [|destruct (String.eqb (name g) "RZ" && negb (inb "RZ" b1)) eqn:Ez;
        [|reflexivity]]];
    match goal with
    | E : (String.eqb (name g) ?nm && _)%bool = true |- _ =>
        apply andb_true_iff in E; destruct E as [E _];
        apply String.eqb_eq in E;
        rewrite (compute_unitary_single g), (gate_matrix_name g nm E)
    end;
    (destruct (arg_value g) as [a|]; [|reflexivity]).
  - exact (proj1 (euler_substitution_exact a)).
  - exact (proj1 (proj2 (euler_substitution_exact a))).
  - exact (proj2 (proj2 (euler_substitution_exact a))).
Qed.

Lemma final_1q_stage_exact (b1 : list string) (gs : list Gate) :
  C2.compute_unitary (final_1q_stage b1 gs) = C2.compute_unitary gs.
Proof.
  unfold final_1q_stage.
  destruct (Nat.eqb (List.length b1) 2); [|reflexivity].
  induction gs as [|g tl IH]; cbn [flat_map]; [reflexivity|].
  rewrite compute_unitary_app, IH, final_1q_gate_exact.
  now rewrite <- compute_unitary_app.
Qed.

(** The transformer hands rotations and phases on. *)
Lemma for_gates_plain (rule : Gate -> result (list Gate)) (gs : list Gate) :
  (forall g, plain g -> rule g = Ok [g]) ->
  Forall plain gs ->
  forall out, for_gates rule gs out = Ok (out ++ gs).
Proof.
  intros Hrule. induction 1 as [|g tl Hg _ IH]; intros out;
    cbn [for_gates].
  - now rewrite app_nil_r.
  - rewrite (Hrule g Hg). cbn [bind]. rewrite IH, <- app_assoc. reflexivity.
Qed.

Lemma resolve_2q_basis_plain (u : string) (q t out : list Gate) :
  Forall plain t ->
  _resolve_2q_basis u q t = Ok out -> out = q ++ t.
Proof.
  intros Ht. unfold _resolve_2q_basis.
  assert (Hne : forall g s, plain g -> In s ["CNOT"; "SWAP"] ->
                            String.eqb (name g) s = false).
  { intros g s Hg Hs. apply String.eqb_neq. intros E. unfold plain in Hg.
    rewrite E in Hg. cbn [In] in Hg, Hs.
    destruct Hs as [<-|[<-|[]]];
      repeat match type of Hg with
             | _ \/ _ => destruct Hg as [Hg|Hg]
             end; (discriminate || contradiction). }
  repeat match goal with
         | |- (if ?c then _ else _) = _ -> _ =>
             destruct c;
             [rewrite for_gates_plain;
              [intros [= <-]; reflexivity| |exact Ht];
              intros g Hg;
              unfold _basis_CSIGN_gate, _basis_ISWAP_gate,
                _basis_SQRTSWAP_gate, _basis_SQRTISWAP_gate;
              rewrite ?(Hne g "CNOT" Hg), ?(Hne g "SWAP" Hg);
                try reflexivity; cbn; tauto|]
         end.
  discriminate.
Qed.

Lemma exact_not_pauli (g : Gate) :
  In (name g) exact_names -> inb (name g) ["X"; "Y"; "Z"] = false.
Proof.
  intros H. destruct (inb (name g) ["X"; "Y"; "Z"]) eqn:E; [|reflexivity].
  apply inb_In in E. revert H E. generalize (name g). intros s.
  cbn [In exact_names]. intros H E.
  repeat match type of H with
         | _ \/ _ => destruct H as [H|H]
         end; try contradiction; subst s;
    repeat match type of E with
           | _ \/ _ => destruct E as [E|E]
           end; (discriminate || contradiction).
Qed.

(** The per-gate loop on a one-qubit program: the phases set aside and the
    rotations emitted multiply out to the product of the program. *)
Lemma resolve_loop_exact (b1 b2 : list string) (gs : list Gate) :
  Forall (fun s => In s basis_2q_valid) b2 ->
  Forall (fun g => In (name g) (pauli_names ++ exact_names)) gs ->
  forall q t q' t',
    resolve_loop gs b1 b2 q t = Ok (q', t') ->
    scalar (C2.compute_unitary q) -> Forall plain t ->
    scalar (C2.compute_unitary q') /\ Forall plain t' /\
    then_ (C2.compute_unitary q') (C2.compute_unitary t')
    = then_ (C2.compute_unitary q)
            (then_ (C2.compute_unitary t) (C2.compute_unitary gs)) /\
    (Forall (fun g => In (name g) exact_names) gs -> q' = q).
Proof.
  intros Hv. induction 1 as [|g tl Hg _ IH]; intros q t q' t';
    cbn [resolve_loop].
  - intros [= <- <-] Hq Ht. split; [exact Hq|]. split; [exact Ht|].
    split; [|reflexivity].
    change (C2.compute_unitary []) with (Some C2.I2).
    now rewrite then_I2_r.
  - apply in_app_or in Hg. destruct Hg as [Hp|He].
    + pose proof (In_inb _ _ Hp) as Hpi. unfold pauli_names in Hpi.
      rewrite Hpi.
      assert (Hr : _resolve_to_universal
                     (mkGate (String.append "R" (name g)) (targets g) None
                        (Some PI)) b1 b2
                   = Ok [mkGate (String.append "R" (name g)) (targets g) None
                           (Some PI)]).
      { unfold _resolve_to_universal. cbn [In pauli_names] in Hp.
        destruct Hp as [E|[E|[E|[]]]]; rewrite <- E;
          cbn [String.append name mkGate];
          (rewrite (not_in_basis_2q _ b2 Hv) by not_listed);
          reflexivity. }
      rewrite Hr. intros H Hq Ht.
      apply IH in H.
      * destruct H as (H1 & H2 & H3 & H4).
        split; [exact H1|]. split; [exact H2|]. split.
        -- rewrite H3, !compute_unitary_app, (compute_unitary_cons g tl).
           rewrite <- (compute_unitary_single g), <- (pauli_with_phase g Hp).
           set (S := C2.compute_unitary [GLOBALPHASE (PI / 2)%R]).
           assert (HS : scalar S) by apply phase_scalar.
           rewrite !then_assoc.
           f_equal.
           rewrite <- (then_assoc S).
           rewrite (then_scalar_comm S (C2.compute_unitary t) HS).
           rewrite !then_assoc. reflexivity.
        -- intros Hall. inversion Hall as [|? ? Hx _]; subst.
           apply exact_not_pauli in Hx. rewrite Hpi in Hx. discriminate.
      * rewrite compute_unitary_app. apply scalar_then;
          [exact Hq|apply phase_scalar].
      * apply Forall_app. split; [exact Ht|].
        apply Forall_cons; [|apply Forall_nil].
        unfold plain. cbn [In pauli_names] in Hp.
        destruct Hp as [E|[E|[E|[]]]]; rewrite <- E; cbn; tauto.
    + rewrite (exact_not_pauli g He).
      destruct (_resolve_to_universal g b1 b2) as [emitted|e] eqn:E;
        [|destruct e; discriminate].
      destruct (resolve_to_universal_exact g b1 b2 emitted Hv He E)
        as (Hcu & Hpl).
      intros H Hq Ht. apply IH in H.
      * destruct H as (H1 & H2 & H3 & H4).
        split; [exact H1|]. split; [exact H2|]. split.
        -- rewrite H3, compute_unitary_app, Hcu, (compute_unitary_cons g tl).
           rewrite compute_unitary_single, !then_assoc. reflexivity.
        -- intros Hall. inversion Hall; subst. auto.
      * exact Hq.
      * apply Forall_app. split; assumption.
Qed.

Lemma resolve_gates_inv (qc : QubitCircuit) (basis : BasisArg)
    (out : list Gate) :
  resolve_gates qc basis = Ok out ->
  exists b1 b2 q t mid,
    parse_basis basis = Ok (b1, b2) /\
    resolve_loop (gates_of (gates qc)) b1 b2 [] [] = Ok (q, t) /\
    resolve_2q_stage b2 q t = Ok mid /\
    out = final_1q_stage b1 mid.
Proof.
  unfold resolve_gates.
  destruct (0 <? num_measurements (gates qc))%nat; [discriminate|].
  destruct (parse_basis basis) as [[b1 b2]|e]; cbn [bind]; [|discriminate].
  unfold resolve_body.
  destruct (resolve_loop _ b1 b2 [] []) as [[q t]|e] eqn:El; cbn [bind];
    [|discriminate].
  destruct (resolve_2q_stage b2 q t) as [mid|e] eqn:E; cbn [bind];
    [|discriminate].
  intros [= <-]. exists b1, b2, q, t, mid. repeat split; assumption.
Qed.

Lemma scalar_nil : scalar (C2.compute_unitary []).
Proof.
  exists C2.C1. unfold C2.compute_unitary. cbn [C2.sequence_product].
  f_equal. apply M2_eq; apply C_eq; cbn; ring.
Qed.

(** X10.  Whatever the accepted request, [resolve_gates] keeps the matrix of a
    program on a one-qubit register that is built of Hadamard gates, square
    roots of NOT, phase gates, rotations and global phases: the product of
    the returned gates is the product of the program, phases included. *)
Theorem resolve_gates_one_qubit_exact (qc : QubitCircuit) (basis : BasisArg)
    (out : list Gate) :
  N qc = 1 ->
  Forall (fun g => In (name g) exact_names) (gates_of (gates qc)) ->
  resolve_gates qc basis = Ok out ->
  C2.compute_unitary out = C2.compute_unitary (gates_of (gates qc)).
Proof.
  intros _ Hall H.
  destruct (resolve_gates_inv qc basis out H)
    as (b1 & b2 & q & t & mid & Hparse & Hloop & Hmid & ->).
  pose proof (parse_basis_2q_valid basis b1 b2 Hparse) as Hv.
  assert (Hall' : Forall (fun g => In (name g) (pauli_names ++ exact_names))
                    (gates_of (gates qc))).
  { eapply Forall_impl; [|exact Hall]. intros g Hg. apply in_or_app. now right. }
  destruct (resolve_loop_exact b1 b2 _ Hv Hall' [] [] q t Hloop scalar_nil
              (Forall_nil _)) as (_ & Hpl & Heq & Hq).
  rewrite (Hq Hall) in Heq.
  change (C2.compute_unitary []) with (Some C2.I2) in Heq.
  rewrite !then_I2_l in Heq.
  rewrite final_1q_stage_exact.
  unfold resolve_2q_stage in Hmid.
  destruct (basis_unit_match b2) as [u|].
  - rewrite (resolve_2q_basis_plain u q t mid Hpl Hmid), (Hq Hall).
    exact Heq.
  - injection Hmid as <-. exact Heq.
Qed.

Lemma resolve_gates_one_qubit_exact_witness :
  exists out,
    resolve_gates
      (Build_QubitCircuit 1 0
         [G (mkGate "SNOT" (Some [0]) None None);
          G (mkGate "PHASEGATE" (Some [0]) None (Some 1%R))])
      default_basis = Ok out /\
    C2.compute_unitary out
    = C2.compute_unitary
        [mkGate "SNOT" (Some [0]) None None;
         mkGate "PHASEGATE" (Some [0]) None (Some 1%R)].
Proof.
  eexists. split; [reflexivity|].
  apply (resolve_gates_one_qubit_exact
           (Build_QubitCircuit 1 0
              [G (mkGate "SNOT" (Some [0]) None None);
               G (mkGate "PHASEGATE" (Some [0]) None (Some 1%R))])
           default_basis).
  - reflexivity.
  - repeat (apply Forall_cons; [cbn; tauto|]). apply Forall_nil.
  - reflexivity.
Defined.

(** X11.  When the request names CSIGN, ISWAP, SQRTSWAP or SQRTISWAP, the phases
    set aside for X, Y and Z stay in the returned circuit: [resolve_gates]
    then keeps the matrix of every program on a one-qubit register built of
    X, Y, Z, Hadamard gates, square roots of NOT, phase gates, rotations and
    global phases. *)
Theorem resolve_gates_transformer_keeps_phase (qc : QubitCircuit)
    (basis : BasisArg) (b1 b2 : list string) (u : string)
    (out : list Gate) :
  N qc = 1 ->
  Forall (fun g => In (name g) (pauli_names ++ exact_names))
         (gates_of (gates qc)) ->
  parse_basis basis = Ok (b1, b2) ->
  basis_unit_match b2 = Some u ->
  resolve_gates qc basis = Ok out ->
  C2.compute_unitary out = C2.compute_unitary (gates_of (gates qc)).
Proof.
  intros _ Hall Hparse Hu H.
  destruct (resolve_gates_inv qc basis out H)
    as (c1 & c2 & q & t & mid & Hparse' & Hloop & Hmid & ->).
  rewrite Hparse in Hparse'. injection Hparse' as <- <-.
  pose proof (parse_basis_2q_valid basis b1 b2 Hparse) as Hv.
  destruct (resolve_loop_exact b1 b2 _ Hv Hall [] [] q t Hloop scalar_nil
              (Forall_nil _)) as (_ & Hpl & Heq & _).
  change (C2.compute_unitary []) with (Some C2.I2) in Heq.
  rewrite !then_I2_l in Heq.
  rewrite final_1q_stage_exact.
  unfold resolve_2q_stage in Hmid. rewrite Hu in Hmid.
  rewrite (resolve_2q_basis_plain u q t mid Hpl Hmid), compute_unitary_app.
  exact Heq.
Qed.

Lemma resolve_gates_transformer_keeps_phase_witness :
  exists out,
    resolve_gates
      (Build_QubitCircuit 1 0
         [G (mkGate "X" (Some [0]) None None);
          G (mkGate "SNOT" (Some [0]) None None);
          G (mkGate "Z" (Some [0]) None None)])
      (BasisList ["CSIGN"; "RX"; "RY"]) = Ok out /\
    C2.compute_unitary out
    = C2.compute_unitary
        [mkGate "X" (Some [0]) None None;
         mkGate "SNOT" (Some [0]) None None;
         mkGate "Z" (Some [0]) None None].
Proof.
  eexists. split; [reflexivity|].
  apply (resolve_gates_transformer_keeps_phase
           (Build_QubitCircuit 1 0
              [G (mkGate "X" (Some [0]) None None);
               G (mkGate "SNOT" (Some [0]) None None);
               G (mkGate "Z" (Some [0]) None None)])
           (BasisList ["CSIGN"; "RX"; "RY"]) ["RX"; "RY"] ["CSIGN"] "CSIGN").
  - reflexivity.
  - repeat (apply Forall_cons; [cbn; tauto|]). apply Forall_nil.
  - reflexivity.
  - reflexivity.
  - reflexivity.
Defined.

(** ** More on the simulator *)

Lemma list_set_length {A : Type} (l : list A) (n : nat) (v : A) :
  List.length (list_set l n v) = List.length l.
Proof.
  revert n. induction l as [|h t IH]; intros [|n]; cbn; auto.
Qed.

Lemma py_setitem_length {A : Type} (l l' : list A) (i : Z) (v : A) :
  py_setitem l i v = Ok l' -> List.length l' = List.length l.
Proof.
  unfold py_setitem.
  destruct (_ || _); [discriminate|].
  intros [= <-]. apply list_set_length.
Qed.

Ltac case_in H :=
  match type of H with
  | context [match ?x with _ => _ end] =>
      lazymatch x with
      | context [match _ with _ => _ end] => fail
      | _ => destruct x eqn:?
      end
  end.

Section SimulatorMoreFacts.

Context {Qobj P Rng : Type} {LA : LinAlg Qobj P Rng}.

Local Notation "'Sim'" := (CircuitSimulator Qobj P).
Local Notation "'Res'" := (CircuitResult Qobj P).

Lemma evolve_state_frame (sim sim' : Sim) (U : Qobj) :
  _evolve_state sim U = Ok sim' ->
  sim' = set_state sim (state sim').
Proof.
  unfold _evolve_state, _evolve_ket, _evolve_dm.
  intros H. repeat case_in H; try discriminate;
    injection H as <-; reflexivity.
Qed.

Lemma step_frame (sim sim' : Sim) (rng rng' : Rng) :
  step sim rng = Ok (sim', rng') ->
  step_frame_of sim sim' /\ op_index sim' = op_index sim + 1.
Proof.
  unfold step, step_frame_of. intros H.
  destruct (py_index (ops sim) (op_index sim)) as [op|e]; cbn [bind] in H;
    [|discriminate].
  destruct op as [m|operation U|U].
  - unfold _apply_measurement in H.
    destruct (measurement_comp_basis m (state sim)) as [[states probs]|e];
      cbn [bind] in H; [|discriminate].
    destruct (String.eqb (mode sim) "state_vector_simulator").
    + destruct (truthy (measure_results sim)).
      * destruct (subscript (measure_results sim) (measure_ind sim));
          cbn [bind] in H; [|discriminate].
        destruct (py_int a) as [i|e]; cbn [bind] in H; [|discriminate].
        destruct (py_index probs i); cbn [bind] in H; [|discriminate].
        destruct (py_index states i); cbn [bind] in H; [|discriminate].
        destruct (classical_store m) as [store|].
        -- cbn [cbits set_state set_probability set_measure_ind] in H.
           destruct (cbits sim) as [l|] eqn:Hcb; [|discriminate].
           destruct (py_setitem l store i) as [l'|e] eqn:Hset;
             cbn [bind] in H; [|discriminate].
           injection H as <- <-. cbn.
           rewrite (py_setitem_length _ _ _ _ Hset). repeat split.
        -- cbn [bind] in H. injection H as <- <-. cbn. repeat split.
      * destruct (random_choice rng _) as [[i g]|e]; cbn [bind] in H;
          [|discriminate].
        destruct (py_index _ i); cbn [bind] in H; [|discriminate].
        destruct (py_index states i); cbn [bind] in H; [|discriminate].
        destruct (classical_store m) as [store|].
        -- cbn [cbits set_state set_probability set_measure_ind] in H.
           destruct (cbits sim) as [l|] eqn:Hcb; [|discriminate].
           destruct (py_setitem l store i) as [l'|e] eqn:Hset;
             cbn [bind] in H; [|discriminate].
           injection H as <- <-. cbn.
           rewrite (py_setitem_length _ _ _ _ Hset). repeat split.
        -- cbn [bind] in H. injection H as <- <-. cbn. repeat split.
    + destruct (String.eqb (mode sim) "density_matrix_simulator");
        cbn [bind] in H; [|discriminate].
      injection H as <- <-. cbn. repeat split.
  - destruct (classical_control_holds sim operation) as [[|]|e];
      cbn [bind] in H; [| |discriminate].
    + destruct (_evolve_state sim _) as [s1|e] eqn:E; cbn [bind] in H;
        [|discriminate].
      injection H as <- <-. rewrite (evolve_state_frame _ _ _ E). cbn.
      repeat split.
    + injection H as <- <-. cbn. repeat split.
  - destruct (_evolve_state sim U) as [s1|e] eqn:E; cbn [bind] in H;
      [|discriminate].
    injection H as <- <-. rewrite (evolve_state_frame _ _ _ E). cbn.
    repeat split.
Qed.

Lemma step_frame_refl (sim : Sim) : step_frame_of sim sim.
Proof. unfold step_frame_of. repeat split. Qed.

Lemma step_frame_trans (s1 s2 s3 : Sim) :
  step_frame_of s1 s2 -> step_frame_of s2 s3 -> step_frame_of s1 s3.
Proof.
  unfold step_frame_of.
  intros (A1 & A2 & A3 & A4 & A5 & A6 & A7) (B1 & B2 & B3 & B4 & B5 & B6 & B7).
  repeat split; congruence.
Qed.

Lemma run_loop_frame (n : nat) :
  forall (sim sim' : Sim) (rng rng' : Rng),
    run_loop n sim rng = Ok (sim', rng') -> step_frame_of sim sim'.
Proof.
  induction n as [|n IH]; intros sim sim' rng rng'; cbn [run_loop].
  - intros [= <- _]. apply step_frame_refl.
  - destruct (step sim rng) as [[s1 g1]|e] eqn:E; cbn [bind]; [|discriminate].
    apply step_frame in E. destruct E as [E _].
    destruct (is_none (state s1)).
    + intros [= <- _]. exact E.
    + intros H. apply IH in H. eapply step_frame_trans; eassumption.
Qed.

(** What [run] leaves in the session. *)
Lemma run_frame (sim sim' : Sim) (st : option Qobj) (cb : option (list Z))
    (mr : option (list Tok)) (rng rng' : Rng) (r : Res) :
  run sim st cb mr rng = Ok (r, sim', rng') ->
  step_frame_of (initialize sim st cb mr) sim' /\
  final_states r = [state sim'] /\
  probabilities r = [probability sim'].
Proof.
  unfold run.
  destruct (run_loop _ _ rng) as [[s1 g1]|e] eqn:E; cbn [bind];
    [|discriminate].
  apply run_loop_frame in E.
  unfold CircuitResult_one.
  destruct (state s1) eqn:Hs; cbn [bind]; try discriminate;
    intros [= <- <- _]; cbn; rewrite ?Hs; auto.
Qed.

End SimulatorMoreFacts.

(** ** [run_statistics] and the caller's classical bits *)

Lemma py_index_In {A : Type} (l : list A) (i : Z) (x : A) :
  py_index l i = Ok x -> In x l.
Proof.
  unfold py_index. destruct (_ || _); [discriminate|].
  destruct (nth_error l _) eqn:E; [|discriminate].
  intros [= <-]. eapply nth_error_In. exact E.
Qed.

Lemma map_result_length {A B : Type} (f : A -> result B) (l : list A) :
  forall out, map_result f l = Ok out -> List.length out = List.length l.
Proof.
  induction l as [|x tl IH]; intros out; cbn [map_result].
  - intros [= <-]. reflexivity.
  - destruct (f x); cbn [bind]; [|discriminate].
    destruct (map_result f tl); cbn [bind]; [|discriminate].
    intros [= <-]. cbn [List.length]. f_equal. now apply IH.
Qed.

Lemma map_result_py_index_In {A : Type} (l : list A) (inds : list Z) :
  forall out, map_result (py_index l) inds = Ok out ->
              Forall (fun x => In x l) out.
Proof.
  induction inds as [|i tl IH]; intros out; cbn [map_result].
  - intros [= <-]. constructor.
  - destruct (py_index l i) eqn:E; cbn [bind]; [|discriminate].
    destruct (map_result (py_index l) tl); cbn [bind]; [|discriminate].
    intros [= <-]. constructor; [eapply py_index_In; exact E|now apply IH].
Qed.

Lemma Forall_eq_repeat {A : Type} (x : A) (l : list A) :
  Forall (fun y => y = x) l -> l = repeat x (List.length l).
Proof.
  induction 1 as [|y tl Hy _ IH]; [reflexivity|].
  cbn [List.length repeat]. now rewrite Hy, <- IH.
Qed.

Section SharedCbits.

Context {Qobj P Rng : Type} {LA : LinAlg Qobj P Rng}.

Local Notation "'Sim'" := (CircuitSimulator Qobj P).
Local Notation "'Res'" := (CircuitResult Qobj P).

Lemma initialize_adopts (sim : Sim) (st : option Qobj) (cb : option (list Z))
    (mr : option (list Tok)) :
  adoptable cb (num_cbits (qc sim)) ->
  cbits (initialize sim st cb mr) = cb /\
  cbits_shared (initialize sim st cb mr) = true /\
  qc (initialize sim st cb mr) = qc sim.
Proof.
  intros [Ht Hl]. unfold initialize.
  destruct cb as [l|]; [|contradiction].
  rewrite Ht. apply Z.eqb_eq in Hl. rewrite Hl. cbn. auto.
Qed.

Lemma adoptable_same_length (c1 c2 : option (list Z)) (n : Z) :
  adoptable c1 n ->
  option_map (@List.length Z) c2 = option_map (@List.length Z) c1 ->
  adoptable c2 n.
Proof.
  unfold adoptable. intros [Ht Hl] H.
  destruct c1 as [[|x l]|]; try discriminate.
  destruct c2 as [[|y l']|]; try discriminate.
  cbn in H. injection H as H. cbn [truthy List.length] in *.
  split; [reflexivity|]. now rewrite H.
Qed.

(** When the caller's list is adopted, the session that [run] leaves still
    holds that list. *)
Lemma run_adopted (sim sim' : Sim) (st : option Qobj) (cb : option (list Z))
    (mr : option (list Tok)) (rng rng' : Rng) (r : Res) :
  adoptable cb (num_cbits (qc sim)) ->
  run sim st cb mr rng = Ok (r, sim', rng') ->
  cbits_shared sim' = true /\
  qc sim' = qc sim /\
  adoptable (cbits sim') (num_cbits (qc sim')).
Proof.
  intros Had H. apply run_frame in H.
  destruct H as ((Hq & _ & _ & _ & Hsh & _ & Hlen) & _).
  destruct (initialize_adopts sim st cb mr Had) as (Hc & Hs & Hq0).
  rewrite Hsh, Hs, Hq, Hq0.
  split; [reflexivity|]. split; [reflexivity|].
  eapply adoptable_same_length; [exact Had|].
  now rewrite Hlen, Hc.
Qed.

Lemma run_statistics_loop_shared (combos : list (list Tok))
    (st : option Qobj) :
  forall a a' : StatAcc,
    adoptable (acc_caller a) (num_cbits (qc (acc_sim a))) ->
    Forall (fun c => c = RefCaller) (acc_cbits_results a) ->
    run_statistics_loop combos st a = Ok a' ->
    Forall (fun c => c = RefCaller) (acc_cbits_results a') /\
    (List.length (acc_cbits_results a')
     = List.length (acc_cbits_results a) + List.length combos)%nat /\
    (combos <> [] -> acc_caller a' = cbits (acc_sim a')).
Proof.
  induction combos as [|results tl IH]; intros a a' Had Hall;
    cbn [run_statistics_loop].
  - intros [= <-]. split; [exact Hall|]. split; [cbn; lia|congruence].
  - destruct (run (acc_sim a) st (acc_caller a) (Some results) (acc_rng a))
      as [[[r s1] g1]|e] eqn:Hrun; cbn [bind]; [|discriminate].
    destruct (py_index (final_states r) 0) as [s|e]; cbn [bind];
      [|discriminate].
    destruct (py_index (probabilities r) 0) as [p|e]; cbn [bind];
      [|discriminate].
    destruct (run_adopted _ _ _ _ _ _ _ _ Had Hrun) as (Hsh & Hq & Had1).
    rewrite Hsh. intros H.
    assert (Hall1 : Forall (fun c => c = RefCaller)
                      (acc_cbits_results a ++ [RefCaller])).
    { apply Forall_app. split; [exact Hall|repeat constructor]. }
    destruct (IH _ _ (Had1 : adoptable (acc_caller (Build_StatAcc s1 (cbits s1)
                                 g1 (acc_states a ++ [s])
                                 (acc_probabilities a ++ [p])
                                 (acc_cbits_results a ++ [RefCaller]))) _)
                Hall1 H) as (H1 & H2 & H3).
    cbn [acc_cbits_results] in H2.
    split; [exact H1|].
    split; [rewrite H2, length_app; cbn [List.length]; lia|].
    intros _. destruct tl as [|w tl']; [|apply H3; discriminate].
    cbn [run_statistics_loop] in H. injection H as <-. reflexivity.
Qed.

(** X12.  When [run_statistics] is given a list of classical bits that the
    simulator adopts (not empty, of the length of the classical register),
    every branch of the result carries that one list: all the entries of
    its classical bits are equal, and they are the bits that the last replay
    left. *)
Theorem run_statistics_shares_cbits (sim sim' : Sim) (st : option Qobj)
    (cb : option (list Z)) (rng rng' : Rng) (r : Res) :
  adoptable cb (num_cbits (qc sim)) ->
  run_statistics sim st cb rng = Ok (r, sim', rng') ->
  result_cbits r
  = Some (repeat (cbits sim') (List.length (final_states r))).
Proof.
  intros Had. unfold run_statistics.
  destruct (run_statistics_loop _ st _) as [a|e] eqn:Hloop; cbn [bind];
    [|discriminate].
  destruct (run_statistics_loop_shared _ st
              (Build_StatAcc sim cb rng [] [] []) a Had (Forall_nil _) Hloop)
    as (Hall & Hlen & Hlink).
  cbn [acc_cbits_results List.length Nat.add] in Hlen.
  specialize (Hlink (product01_not_nil _)).
  unfold CircuitResult_many.
  destruct (map_result (py_index (acc_states a)) _) as [fs|e] eqn:Hfs;
    cbn [bind]; [|discriminate].
  destruct (map_result (py_index (acc_probabilities a)) _) as [ps|e];
    cbn [bind]; [|discriminate].
  destruct (acc_cbits_results a) as [|c refs] eqn:Hrefs.
  - cbn [List.length] in Hlen. symmetry in Hlen.
    apply length_zero_iff_nil in Hlen.
    destruct (product01_not_nil _ Hlen).
  - cbn [map].
    change (deref (acc_caller a) c :: map (deref (acc_caller a)) refs)
      with (map (deref (acc_caller a)) (c :: refs)).
    destruct (map_result (py_index (map (deref (acc_caller a)) (c :: refs))) _)
      as [cs|e] eqn:Hcs; cbn [bind]; [|discriminate].
    intros [= <- <- _]. cbn [result_cbits final_states].
    f_equal.
    rewrite (Forall_eq_repeat (cbits (acc_sim a)) cs).
    + f_equal. apply map_result_length in Hcs, Hfs. congruence.
    + apply map_result_py_index_In in Hcs.
      eapply Forall_impl; [|exact Hcs].
      intros x Hin. apply in_map_iff in Hin.
      destruct Hin as (ref & <- & Hin).
      rewrite Forall_forall in Hall. rewrite (Hall _ Hin).
      cbn [deref]. exact Hlink.
Qed.

End SharedCbits.

(** ** Steps that read no measurement outcome *)

Section OutcomeBlind.

Context {Qobj P Rng : Type} {LA : LinAlg Qobj P Rng}.

Local Notation "'Sim'" := (CircuitSimulator Qobj P).
Local Notation "'Res'" := (CircuitResult Qobj P).

Lemma py_sum_states_not_none (l : list Qobj) :
  py_sum_states l <> SNone.
Proof.
  unfold py_sum_states.
  assert (H : forall acc : PyState Qobj, acc <> SNone ->
            fold_left (fun acc x => match acc with
                                    | SObj a => SObj (qadd a x)
                                    | _ => SObj x
                                    end) l acc <> SNone).
  { induction l as [|x tl IH]; intros acc Hacc; cbn [fold_left];
      [exact Hacc|].
    apply IH. destruct acc; discriminate. }
  apply H. discriminate.
Qed.

Lemma evolve_keeps (sim sim' : Sim) (U : Qobj) :
  _evolve_state sim U = Ok sim' ->
  exists x, sim' = set_state sim (SObj x).
Proof.
  unfold _evolve_state, _evolve_ket, _evolve_dm.
  destruct (String.eqb (mode sim) "state_vector_simulator");
    [|destruct (String.eqb (mode sim) "density_matrix_simulator");
      [|discriminate]];
    (destruct (state sim); [discriminate| |]; intros [= <-]; eauto).
Qed.

Lemma evolve_set_measure_results (sim : Sim) (mr : option (list Tok))
    (U : Qobj) :
  _evolve_state (set_measure_results sim mr) U
  = match _evolve_state sim U with
    | Ok s => Ok (set_measure_results s mr)
    | Raise e => Raise e
    end.
Proof.
  unfold _evolve_state, _evolve_ket, _evolve_dm.
  cbn [set_measure_results mode state].
  destruct (String.eqb (mode sim) "state_vector_simulator");
    [|destruct (String.eqb (mode sim) "density_matrix_simulator");
      [|reflexivity]];
    destruct (state sim); reflexivity.
Qed.

Lemma blind_measurement (sim : Sim) (m : Measurement) :
  outcome_blind sim ->
  py_index (ops sim) (op_index sim) = Ok (OpMeasure m) ->
  mode sim = "density_matrix_simulator".
Proof.
  intros [Hm|Hno] Hop; [exact Hm|].
  apply py_index_In in Hop. rewrite Forall_forall in Hno.
  specialize (Hno _ Hop). discriminate.
Qed.

(** Such a step leaves the classical bits, the probability and the random
    source as they were, and a state that is not [None] stays so. *)
Lemma step_blind_keeps (sim sim' : Sim) (rng rng' : Rng) :
  outcome_blind sim ->
  step sim rng = Ok (sim', rng') ->
  cbits sim' = cbits sim /\ probability sim' = probability sim /\
  rng' = rng /\ (state sim <> SNone -> state sim' <> SNone).
Proof.
  intros Hb. unfold step.
  destruct (py_index (ops sim) (op_index sim)) as [op|e] eqn:Hop;
    cbn [bind]; [|discriminate].
  destruct op as [m|operation U|U].
  - pose proof (blind_measurement sim m Hb Hop) as Hm.
    unfold _apply_measurement.
    destruct (measurement_comp_basis m (state sim)) as [[states probs]|e];
      cbn [bind]; [|discriminate].
    rewrite Hm. cbn [String.eqb Ascii.eqb Bool.eqb bind].
    intros [= <- <-]. cbn. repeat split.
    intros _. apply py_sum_states_not_none.
  - destruct (classical_control_holds sim operation) as [[|]|e];
      cbn [bind]; [| |discriminate].
    + destruct (_evolve_state sim _) as [s1|e] eqn:E; cbn [bind];
        [|discriminate].
      destruct (evolve_keeps _ _ _ E) as (x & ->).
      intros [= <- <-]. cbn. repeat split. discriminate.
    + intros [= <- <-]. cbn. repeat split. auto.
  - destruct (_evolve_state sim U) as [s1|e] eqn:E; cbn [bind];
      [|discriminate].
    destruct (evolve_keeps _ _ _ E) as (x & ->).
    intros [= <- <-]. cbn. repeat split. discriminate.
Qed.

(** Such a step reads neither the forced outcomes nor the random source. *)
Lemma step_blind (sim : Sim) (mr : option (list Tok)) (rng rng0 : Rng) :
  outcome_blind sim ->
  step (set_measure_results sim mr) rng
  = reforced_step mr rng (step sim rng0).
Proof.
  intros Hb. unfold step.
  cbn [set_measure_results ops op_index].
  destruct (py_index (ops sim) (op_index sim)) as [op|e] eqn:Hop;
    cbn [bind]; [|reflexivity].
  destruct op as [m|operation U|U].
  - pose proof (blind_measurement sim m Hb Hop) as Hm.
    unfold _apply_measurement.
    cbn [set_measure_results state mode].
    destruct (measurement_comp_basis m (state sim)) as [[states probs]|e];
      cbn [bind]; [|reflexivity].
    rewrite Hm. cbn [String.eqb Ascii.eqb Bool.eqb bind]. reflexivity.
  - unfold classical_control_holds.
    cbn [set_measure_results cbits].
    destruct (classical_controls operation) as [cc|]; [|reflexivity].
    destruct (map_result (subscript (cbits sim)) cc) as [bits|e];
      cbn [bind]; [|reflexivity].
    destruct (forallb _ bits); [|reflexivity].
    change (precompute_unitary (set_measure_results sim mr))
      with (precompute_unitary sim).
    change (qc (set_measure_results sim mr)) with (qc sim).
    rewrite evolve_set_measure_results.
    destruct (_evolve_state sim _); reflexivity.
  - rewrite evolve_set_measure_results.
    destruct (_evolve_state sim U); reflexivity.
Qed.

Lemma blind_frame (sim sim' : Sim) :
  step_frame_of sim sim' -> outcome_blind sim -> outcome_blind sim'.
Proof.
  intros (_ & Hm & _ & Hops & _). unfold outcome_blind.
  rewrite Hm, Hops. auto.
Qed.

Lemma run_loop_blind (n : nat) :
  forall (sim : Sim) (mr : option (list Tok)) (rng rng0 : Rng),
    outcome_blind sim ->
    run_loop n (set_measure_results sim mr) rng
    = reforced_step mr rng (run_loop n sim rng0).
Proof.
  induction n as [|n IH]; intros sim mr rng rng0 Hb; cbn [run_loop];
    [reflexivity|].
  rewrite (step_blind sim mr rng rng0 Hb).
  destruct (step sim rng0) as [[s1 g1]|e] eqn:E;
    cbn [bind reforced_step]; [|reflexivity].
  cbn [set_measure_results state].
  destruct (is_none (state s1)); [reflexivity|].
  pose proof (step_blind_keeps _ _ _ _ Hb E) as (_ & _ & -> & _).
  apply step_frame in E. destruct E as (Hf & _).
  apply IH. exact (blind_frame _ _ Hf Hb).
Qed.

Lemma run_loop_blind_keeps (n : nat) :
  forall (sim sim' : Sim) (rng rng' : Rng),
    outcome_blind sim ->
    run_loop n sim rng = Ok (sim', rng') ->
    cbits sim' = cbits sim /\ probability sim' = probability sim /\
    rng' = rng /\ (state sim <> SNone -> state sim' <> SNone).
Proof.
  induction n as [|n IH]; intros sim sim' rng rng' Hb; cbn [run_loop].
  - intros [= <- <-]. auto.
  - destruct (step sim rng) as [[s1 g1]|e] eqn:E; cbn [bind];
      [|discriminate].
    pose proof (step_blind_keeps _ _ _ _ Hb E) as (H1 & H2 & H3 & H4).
    apply step_frame in E. destruct E as (Hf & _).
    destruct (is_none (state s1)).
    + intros [= <- <-]. auto.
    + intros H. apply IH in H; [|exact (blind_frame _ _ Hf Hb)].
      destruct H as (K1 & K2 & K3 & K4).
      repeat split; try congruence. auto.
Qed.

Lemma initialize_set_measure_results (sim : Sim) (st : option Qobj)
    (cb : option (list Z)) (mr mr0 : option (list Tok)) :
  initialize sim st cb mr
  = set_measure_results (initialize sim st cb mr0) mr.
Proof.
  unfold initialize.
  destruct cb as [l|];
    repeat match goal with
           | |- context [if ?c then _ else _] => destruct c
           end; reflexivity.
Qed.

Lemma initialize_mode (sim : Sim) (st : option Qobj) (cb : option (list Z))
    (mr : option (list Tok)) :
  mode (initialize sim st cb mr) = mode sim /\
  ops (initialize sim st cb mr) = ops sim /\
  probability (initialize sim st cb mr) = p_of_Z 1.
Proof.
  unfold initialize.
  destruct cb as [l|];
    repeat match goal with
           | |- context [if ?c then _ else _] => destruct c
           end; repeat split.
Qed.

Lemma initialize_blind (sim : Sim) (st : option Qobj) (cb : option (list Z))
    (mr : option (list Tok)) :
  outcome_blind sim -> outcome_blind (initialize sim st cb mr).
Proof.
  destruct (initialize_mode sim st cb mr) as (Hm & Hops & _).
  unfold outcome_blind. rewrite Hm, Hops. auto.
Qed.

(** [run] on such a session is the same computation whatever the forced
    outcomes and the random source. *)
Lemma run_blind (sim : Sim) (st : option Qobj) (cb : option (list Z))
    (mr mr0 : option (list Tok)) (rng rng0 : Rng) :
  outcome_blind sim ->
  run sim st cb mr rng = reforced mr rng (run sim st cb mr0 rng0).
Proof.
  intros Hb. unfold run.
  rewrite (initialize_set_measure_results sim st cb mr mr0).
  cbn [set_measure_results ops].
  rewrite (run_loop_blind _ _ mr rng rng0)
    by (apply initialize_blind; exact Hb).
  destruct (run_loop _ (initialize sim st cb mr0) rng0) as [[s1 g1]|e];
    cbn [bind reforced_step]; [|reflexivity].
  cbn [set_measure_results state probability cbits].
  destruct (CircuitResult_one _ _ _); reflexivity.
Qed.

End OutcomeBlind.

Section DensityStatistics.

Context {Qobj P Rng : Type} {LA : LinAlg Qobj P Rng}.

Local Notation "'Sim'" := (CircuitSimulator Qobj P).
Local Notation "'Res'" := (CircuitResult Qobj P).

Lemma run_same_program (s1 s2 : Sim) (st : option Qobj)
    (cb : option (list Z)) (mr : option (list Tok)) (rng : Rng) :
  same_program s1 s2 -> run s1 st cb mr rng = run s2 st cb mr rng.
Proof.
  intros H. unfold run. now rewrite (initialize_same_program s1 s2 st cb mr H).
Qed.

(** A session that shares its classical bits holds the list it was
    given. *)
Lemma initialize_shared (sim : Sim) (st : option Qobj) (cb : option (list Z))
    (mr : option (list Tok)) :
  cbits_shared (initialize sim st cb mr) = true ->
  cbits (initialize sim st cb mr) = cb.
Proof.
  unfold initialize.
  destruct cb as [l|];
    repeat match goal with
           | |- context [if ?c then _ else _] => destruct c
           end; cbn; congruence.
Qed.

(** What [run] returns in density-matrix mode from a given state. *)
Lemma run_density_keeps (sim sim' : Sim) (q : Qobj) (cb : option (list Z))
    (mr : option (list Tok)) (rng rng' : Rng) (r : Res) :
  mode sim = "density_matrix_simulator" ->
  run sim (Some q) cb mr rng = Ok (r, sim', rng') ->
  rng' = rng /\
  same_program sim' sim /\
  (cbits_shared sim' = true -> cbits sim' = cb) /\
  exists x, final_states r = [SObj x] /\ probabilities r = [p_of_Z 1].
Proof.
  intros Hm H. pose proof (run_frame _ _ _ _ _ _ _ _ H) as (Hf & Hs & Hp).
  unfold run in H.
  destruct (run_loop _ _ rng) as [[s1 g1]|e] eqn:E; cbn [bind] in H;
    [|discriminate].
  destruct (initialize_mode sim (Some q) cb mr) as (Hm0 & Hops & Hp0).
  apply run_loop_blind_keeps in E;
    [|apply initialize_blind; left; exact Hm].
  destruct E as (Hc & Hpr & -> & Hst).
  destruct (CircuitResult_one _ _ _) as [r1|e] eqn:Hr; cbn [bind] in H;
    [|discriminate].
  injection H as <- <- <-.
  destruct Hf as (F1 & F2 & F3 & F4 & F5 & _).
  split; [reflexivity|].
  split.
  { unfold same_program. rewrite F1, F2, F3, F4. unfold initialize.
    destruct cb as [l|];
      repeat match goal with
             | |- context [if ?c then _ else _] => destruct c
             end; repeat split. }
  split.
  { intros Hsh. rewrite Hc. apply initialize_shared. congruence. }
  assert (Hne : state s1 <> SNone).
  { apply Hst. unfold initialize.
    destruct cb as [l|];
      repeat match goal with
             | |- context [if ?c then _ else _] => destruct c
             end; discriminate. }
  unfold CircuitResult_one in Hr.
  destruct (state s1) as [| |x] eqn:Hx; [contradiction|discriminate|].
  exists x. rewrite Hs, Hp, Hpr, Hp0, ?Hx. auto.
Qed.

Lemma replay_all_density (sim0 : Sim) (q : Qobj) (cb : option (list Z))
    (rng : Rng) (x : Qobj) :
  mode sim0 = "density_matrix_simulator" ->
  forall (combos : list (list Tok)) (sim1 : Sim) bs sim' caller' rng',
    same_program sim1 sim0 ->
    (forall w r s g, run sim0 (Some q) cb (Some w) rng = Ok (r, s, g) ->
                     final_states r = [SObj x]) ->
    replay_all combos (Some q) sim1 cb rng = Ok (bs, sim', caller', rng') ->
    rng' = rng /\
    List.length bs = List.length combos /\
    Forall (fun b => branch_state b = SObj x /\
                     branch_probability b = p_of_Z 1) bs.
Proof.
  intros Hm. induction combos as [|w tl IH];
    intros sim1 bs sim' caller' rng' Hsp Hx; cbn [replay_all].
  - intros [= <- _ _ <-]. repeat split. constructor.
  - rewrite (run_same_program sim1 sim0 _ _ _ _ Hsp).
    destruct (run sim0 (Some q) cb (Some w) rng) as [[[r s1] g1]|e] eqn:E;
      cbn [bind]; [|discriminate].
    pose proof (Hx _ _ _ _ E) as Hfs.
    destruct (run_density_keeps _ _ _ _ _ _ _ _ Hm E)
      as (-> & Hsp1 & Hsh & y & Hy & Hp).
    rewrite Hfs, Hp. cbn [py_index List.length Z.of_nat Z.ltb Z.compare
                           Z.leb orb nth_error Z.to_nat bind].
    change (py_index [SObj x] 0) with (@Ok (PyState Qobj) (SObj x)).
    change (py_index [p_of_Z 1] 0) with (@Ok P (p_of_Z 1)).
    cbn [bind].
    assert (Hcaller : (if cbits_shared s1 then cbits s1 else cb) = cb).
    { destruct (cbits_shared s1); [now apply Hsh|reflexivity]. }
    rewrite Hcaller.
    destruct (replay_all tl (Some q) s1 cb rng)
      as [[[[bs1 s2] c2] g2]|e] eqn:E2; cbn [bind]; [|discriminate].
    intros [= <- _ _ <-].
    destruct (IH _ _ _ _ _ Hsp1 Hx E2) as (-> & Hlen & Hall).
    split; [reflexivity|]. split; [cbn [List.length]; now rewrite Hlen|].
    constructor; [split; reflexivity|exact Hall].
Qed.

Lemma filter_all {A : Type} (f : A -> bool) (l : list A) :
  Forall (fun a => f a = true) l -> filter f l = l.
Proof.
  induction 1 as [|a tl Ha _ IH]; cbn [filter]; [reflexivity|].
  now rewrite Ha, IH.
Qed.

Lemma map_constant {A B : Type} (f : A -> B) (y : B) (l : list A) :
  Forall (fun a => f a = y) l -> map f l = repeat y (List.length l).
Proof.
  induction 1 as [|a tl Ha _ IH]; cbn [map List.length repeat];
    [reflexivity|].
  now rewrite Ha, IH.
Qed.

(** X13.  In density-matrix mode [run_statistics] does not enumerate anything:
    for a program with M measurements it returns 2^M copies of one and the
    same state, the mixed state that [run] computes, each with probability 1,
    and it consumes no randomness. *)
Theorem run_statistics_density_copies (sim sim' : Sim) (q : Qobj)
    (cb : option (list Z)) (rng rng' : Rng) (r : Res) :
  mode sim = "density_matrix_simulator" ->
  run_statistics sim (Some q) cb rng = Ok (r, sim', rng') ->
  exists (x : Qobj) (r0 : Res) (s0 : Sim),
    run sim (Some q) cb None rng = Ok (r0, s0, rng) /\
    final_states r0 = [SObj x] /\
    final_states r
    = repeat (SObj x) (2 ^ num_measurements (gates (qc sim))) /\
    probabilities r
    = repeat (p_of_Z 1) (2 ^ num_measurements (gates (qc sim))) /\
    rng' = rng.
Proof.
  intros Hm. unfold run_statistics.
  rewrite run_statistics_loop_replays.
  cbn [acc_sim acc_caller acc_rng acc_states acc_probabilities
       acc_cbits_results app].
  destruct (replay_all _ (Some q) sim cb rng)
    as [[[[bs s1] c1] g1]|e] eqn:E; cbn [bind]; [|discriminate].
  cbn [acc_sim acc_caller acc_rng acc_states acc_probabilities
       acc_cbits_results].
  assert (Hne : bs <> []).
  { intros ->. apply replay_all_length in E. cbn [List.length] in E.
    symmetry in E. apply length_zero_iff_nil in E.
    exact (product01_not_nil _ E). }
  rewrite (CircuitResult_many_prunes bs c1 Hne). cbn [bind].
  intros [= <- <- <-].
  (* the reference run *)
  destruct (run sim (Some q) cb None rng) as [[[r0 s0] g0]|e] eqn:E0.
  - destruct (run_density_keeps _ _ _ _ _ _ _ _ Hm E0)
      as (-> & _ & _ & x & Hx & Hp).
    assert (Hall : forall w r s g,
               run sim (Some q) cb (Some w) rng = Ok (r, s, g) ->
               final_states r = [SObj x]).
    { intros w r s g. rewrite (run_blind sim _ cb (Some w) None rng rng (or_introl Hm)).
      rewrite E0. cbn [reforced]. intros [= <- _ _]. exact Hx. }
    destruct (replay_all_density sim q cb rng x Hm _ sim _ _ _ _
                (conj eq_refl (conj eq_refl (conj eq_refl eq_refl))) Hall E)
      as (-> & Hlen & Hbs).
    exists x, r0, s0. split; [reflexivity|]. split; [exact Hx|].
    cbn [final_states probabilities].
    rewrite filter_all.
    + rewrite product01_length in Hlen. rewrite <- Hlen.
      split; [|split; [|reflexivity]]; apply map_constant;
        (eapply Forall_impl; [|exact Hbs]); intros b [H1 H2]; assumption.
    + eapply Forall_impl; [|exact Hbs]. intros b [-> _]. reflexivity.
  - exfalso.
    pose proof (product01_not_nil (num_measurements (gates (qc sim)))) as Hp.
    destruct (product01 _) as [|w tl]; [contradiction|].
    cbn [replay_all] in E.
    rewrite (run_blind sim _ cb (Some w) None rng rng (or_introl Hm)), E0 in E.
    discriminate.
Qed.

End DensityStatistics.

(** ** [run_statistics] without a list of the caller *)

Lemma filter_map_comm {A B : Type} (f : B -> bool) (g : A -> B) (l : list A) :
  filter f (map g l) = map g (filter (fun a => f (g a)) l).
Proof.
  induction l as [|a tl IH]; cbn [map filter]; [reflexivity|].
  destruct (f (g a)); cbn [map]; now rewrite IH.
Qed.

Section OwnCbits.

Context {Qobj P Rng : Type} {LA : LinAlg Qobj P Rng}.

Local Notation "'Sim'" := (CircuitSimulator Qobj P).
Local Notation "'Res'" := (CircuitResult Qobj P).

Lemma initialize_not_adopted (sim : Sim) (st : option Qobj)
    (cb : option (list Z)) (mr : option (list Tok)) :
  ~ adoptable cb (num_cbits (qc sim)) ->
  cbits_shared (initialize sim st cb mr) = false.
Proof.
  intros Hna. unfold initialize.
  destruct cb as [l|].
  - destruct (truthy (Some l)) eqn:Ht; cbn [andb].
    + destruct (Z.eqb_spec (Z.of_nat (List.length l)) (num_cbits (qc sim)))
        as [E|E].
      * destruct Hna. split; assumption.
      * destruct (0 <? num_cbits (qc sim)); reflexivity.
    + destruct (0 <? num_cbits (qc sim)); reflexivity.
  - destruct (0 <? num_cbits (qc sim)); reflexivity.
Qed.

(** When the list of the caller is not adopted, the loop of the code is the
    list of independent replays of the specification. *)
Lemma replay_all_independent (sim0 : Sim) (st : option Qobj)
    (cb : option (list Z)) :
  ~ adoptable cb (num_cbits (qc sim0)) ->
  forall (combos : list (list Tok)) (sim1 : Sim) (rng : Rng),
    same_program sim1 sim0 ->
    match replay_all combos st sim1 cb rng with
    | Ok (bs, _, caller', rng') =>
        caller' = cb /\
        independent_replays combos st sim0 cb rng
        = Ok (map (outcome_of cb) bs, rng')
    | Raise e => independent_replays combos st sim0 cb rng = Raise e
    end.
Proof.
  intros Hna. induction combos as [|w tl IH]; intros sim1 rng Hsp;
    cbn [replay_all independent_replays].
  - split; reflexivity.
  - rewrite (run_same_program sim1 sim0 _ _ _ _ Hsp).
    destruct (run sim0 st cb (Some w) rng) as [[[r s1] g1]|e] eqn:E;
      cbn [bind]; [|reflexivity].
    destruct (py_index (final_states r) 0) as [s|e]; cbn [bind];
      [|reflexivity].
    destruct (py_index (probabilities r) 0) as [p|e]; cbn [bind];
      [|reflexivity].
    destruct (run_frame _ _ _ _ _ _ _ _ E)
      as ((F1 & F2 & F3 & F4 & F5 & _) & _).
    rewrite (initialize_not_adopted sim0 st cb (Some w) Hna) in F5.
    rewrite F5.
    assert (Hsp1 : same_program s1 sim0).
    { unfold same_program. rewrite F1, F2, F3, F4. unfold initialize.
      destruct cb as [l|];
        repeat match goal with
               | |- context [if ?c then _ else _] => destruct c
               end; repeat split. }
    specialize (IH s1 g1 Hsp1).
    destruct (replay_all tl st s1 cb g1) as [[[[bs s2] c2] g2]|e];
      cbn [bind].
    + destruct IH as [-> IH]. rewrite IH. cbn [bind map].
      split; reflexivity.
    + rewrite IH. reflexivity.
Qed.

(** When [initialize] does not adopt the list of the caller ([cbits] is
    [None], empty or of another length than the classical register),
    [run_statistics] returns, or raises, what the specification describes:
    the branches of the 2^M independent replays, each with its own
    classical bits, those of a null state dropped. *)
Lemma run_statistics_own_cbits (sim : Sim) (st : option Qobj)
    (cb : option (list Z)) (rng : Rng) :
  ~ adoptable cb (num_cbits (qc sim)) ->
  run_statistics_spec sim st cb rng
  = ('(r, _, rng') <- run_statistics sim st cb rng ;; Ok (r, rng')).
Proof.
  intros Hna. unfold run_statistics, run_statistics_spec.
  rewrite run_statistics_loop_replays.
  cbn [acc_sim acc_caller acc_rng acc_states acc_probabilities
       acc_cbits_results app].
  pose proof (replay_all_independent sim st cb Hna
                (product01 (num_measurements (gates (qc sim)))) sim rng
                (conj eq_refl (conj eq_refl (conj eq_refl eq_refl)))) as H.
  destruct (replay_all _ st sim cb rng) as [[[[bs s1] c1] g1]|e] eqn:E;
    cbn [bind].
  - destruct H as [-> H]. rewrite H. cbn [bind].
    cbn [acc_sim acc_caller acc_rng acc_states acc_probabilities
         acc_cbits_results].
    rewrite CircuitResult_many_prunes.
    + cbn [bind]. rewrite filter_map_comm, !map_map. reflexivity.
    + intros ->. apply replay_all_length in E. cbn [List.length] in E.
      symmetry in E. apply length_zero_iff_nil in E.
      exact (product01_not_nil _ E).
  - rewrite H. reflexivity.
Qed.

End OwnCbits.

(** *** On the rational engine *)

Lemma run_statistics_shares_cbits_witness :
  exists r s g,
    run_statistics (Examples.sim_measure_vec (Some 0)) (Some QEngine.ket34)
      (Some [0]) (@nil Q) = Ok (r, s, g) /\
    result_cbits r = Some (repeat (cbits s) (List.length (final_states r))) /\
    result_cbits r = Some [Some [1]; Some [1]].
Proof.
  destruct (run_statistics (Examples.sim_measure_vec (Some 0))
              (Some QEngine.ket34) (Some [0]) (@nil Q))
    as [[[r s] g]|e] eqn:E.
  - exists r, s, g. split; [reflexivity|]. split.
    + apply (run_statistics_shares_cbits (Examples.sim_measure_vec (Some 0))
               s (Some QEngine.ket34) (Some [0]) (@nil Q) g r);
        [split; reflexivity|exact E].
    + vm_compute in E. injection E as <- _ _. reflexivity.
  - vm_compute in E. discriminate.
Defined.

Lemma run_statistics_density_copies_witness :
  exists r s g x,
    run_statistics Examples.sim_measure_dm (Some QEngine.ket34) None (@nil Q)
    = Ok (r, s, g) /\
    final_states r = [SObj x; SObj x] /\
    probabilities r = [1%Q; 1%Q].
Proof.
  destruct (run_statistics Examples.sim_measure_dm (Some QEngine.ket34) None
              (@nil Q)) as [[[r s] g]|e] eqn:E.
  - destruct (run_statistics_density_copies Examples.sim_measure_dm s
                QEngine.ket34 None (@nil Q) g r eq_refl E)
      as (x & r0 & s0 & _ & _ & Hf & Hp & _).
    exists r, s, g, x. split; [reflexivity|]. split; [exact Hf|exact Hp].
  - vm_compute in E. discriminate.
Defined.

(** ** Programs without measurement *)

Section MeasurementFree.

Context {Qobj P Rng : Type} {LA : LinAlg Qobj P Rng}.

Local Notation "'Sim'" := (CircuitSimulator Qobj P).
Local Notation "'Res'" := (CircuitResult Qobj P).

Lemma process_ops_length (gs : list CircuitOp) (U_list : list Qobj) :
  forall (i : Z) (os : list (Op Qobj)),
    _process_ops gs U_list i = Ok os ->
    List.length os = List.length gs /\
    (num_measurements gs = 0%nat ->
     Forall (fun o => is_measure_op o = false) os).
Proof.
  induction gs as [|[g|m] tl IH]; intros i os; cbn [_process_ops].
  - intros [= <-]. split; [reflexivity|]. intros _. constructor.
  - destruct (py_index U_list i) as [U|e]; cbn [bind]; [|discriminate].
    destruct (_process_ops tl U_list (i + 1)) as [rest|e] eqn:E;
      cbn [bind]; [|discriminate].
    intros [= <-]. destruct (IH _ _ E) as (Hl & Hm).
    split; [cbn [List.length]; now rewrite Hl|].
    intros H0. constructor; [now destruct (truthy _)|apply Hm; exact H0].
  - destruct (_process_ops tl U_list i) as [rest|e] eqn:E; cbn [bind];
      [|discriminate].
    intros [= <-]. destruct (IH _ _ E) as (Hl & _).
    split; [cbn [List.length]; now rewrite Hl|]. discriminate.
Qed.

Lemma init_measurement_free (c : QubitCircuit) (st0 : option Qobj)
    (cb0 : option (list Z)) (U_list : list Qobj) (mr0 : option (list Tok))
    (md : string) (sim : Sim) :
  num_measurements (gates c) = 0%nat ->
  CircuitSimulator_init c st0 cb0 U_list mr0 md = Ok sim ->
  outcome_blind sim.
Proof.
  intros H0. unfold CircuitSimulator_init.
  destruct (_process_ops (gates c) U_list 0) as [os|e] eqn:E; cbn [bind];
    [|discriminate].
  intros [= <-]. right.
  rewrite (proj1 (proj2 (initialize_mode _ st0 cb0 mr0))).
  cbn [ops]. exact (proj2 (process_ops_length _ _ _ _ E) H0).
Qed.

(** X14.  A simulator built for a program without measurement runs it without
    chance: [run] consumes no randomness, reports the probability 1, leaves
    the classical bits as [initialize] set them, and returns the same
    result whatever the forced outcomes and the random source. *)
Theorem run_measurement_free (c : QubitCircuit) (st0 st : option Qobj)
    (cb0 cb : option (list Z)) (U_list : list Qobj)
    (mr0 mr : option (list Tok)) (md : string) (sim sim' : Sim)
    (rng rng' : Rng) (r : Res) :
  num_measurements (gates c) = 0%nat ->
  CircuitSimulator_init c st0 cb0 U_list mr0 md = Ok sim ->
  run sim st cb mr rng = Ok (r, sim', rng') ->
  rng' = rng /\
  probabilities r = [p_of_Z 1] /\
  cbits sim' = cbits (initialize sim st cb mr) /\
  forall (mr2 : option (list Tok)) (rng2 : Rng),
    run sim st cb mr2 rng2 = Ok (r, set_measure_results sim' mr2, rng2).
Proof.
  intros H0 Hinit Hrun.
  pose proof (init_measurement_free _ _ _ _ _ _ _ H0 Hinit) as Hb.
  pose proof (run_frame _ _ _ _ _ _ _ _ Hrun) as (_ & _ & Hp).
  assert (Hk : rng' = rng /\ probability sim' = p_of_Z 1 /\
               cbits sim' = cbits (initialize sim st cb mr)).
  { unfold run in Hrun.
    destruct (run_loop _ _ rng) as [[s1 g1]|e] eqn:E; cbn [bind] in Hrun;
      [|discriminate].
    apply run_loop_blind_keeps in E; [|apply initialize_blind; exact Hb].
    destruct E as (Hc & Hpr & -> & _).
    destruct (CircuitResult_one _ _ _) as [r1|e]; cbn [bind] in Hrun;
      [|discriminate].
    injection Hrun as _ <- <-.
    rewrite Hpr, (proj2 (proj2 (initialize_mode sim st cb mr))). auto. }
  destruct Hk as (-> & Hpr & Hc).
  split; [reflexivity|]. split; [now rewrite Hp, Hpr|]. split; [exact Hc|].
  intros mr2 rng2.
  rewrite (run_blind sim st cb mr2 mr rng2 rng Hb), Hrun. reflexivity.
Qed.

End MeasurementFree.

Lemma run_measurement_free_witness :
  exists r s,
    run Examples.sim_ctrl (Some QEngine.ket0) (Some [1]) None (@nil Q)
    = Ok (r, s, @nil Q) /\
    probabilities r = [1%Q].
Proof.
  destruct (run Examples.sim_ctrl (Some QEngine.ket0) (Some [1]) None
              (@nil Q)) as [[[r s] g]|e] eqn:E.
  - destruct (run_measurement_free Examples.qc_ctrl None
                (Some QEngine.ket0) None (Some [1]) [QEngine.X_mat] None None
                "state_vector_simulator" Examples.sim_ctrl s (@nil Q) g r
                eq_refl eq_refl E) as (-> & Hp & _).
    exists r, s. split; [reflexivity|exact Hp].
  - vm_compute in E. discriminate.
Defined.

(** ** The entry points of [QubitCircuit] *)

Section CircuitRunFacts.

Context {Qobj P Rng : Type} {LA : LinAlg Qobj P Rng}.

Variable isoper : Qobj -> bool.
Variable propagators : QubitCircuit -> result (list Qobj).

Local Notation "'Sim'" := (CircuitSimulator Qobj P).

(** Simulators built with different forced outcomes are compiled from the
    same program. *)
Lemma simulator_new_same_program (c : QubitCircuit) (st : option Qobj)
    (cb : option (list Z)) (U_list : option (list Qobj))
    (mr1 mr2 : option (list Tok)) (md : string) :
  match CircuitSimulator_new propagators c st cb U_list mr1 md,
        CircuitSimulator_new propagators c st cb U_list mr2 md with
  | Ok s1, Ok s2 => same_program s1 s2
  | Raise e1, Raise e2 => e1 = e2
  | _, _ => False
  end.
Proof.
  unfold CircuitSimulator_new, CircuitSimulator_init.
  destruct (match U_list with
            | Some (U :: tl) => Ok (U :: tl)
            | _ => propagators c
            end) as [Us|e]; cbn [bind]; [|reflexivity].
  destruct (_process_ops (gates c) Us 0) as [os|e]; cbn [bind];
    [|reflexivity].
  unfold same_program, initialize.
  destruct cb as [l|];
    repeat match goal with
           | |- context [if ?c then _ else _] => destruct c
           end; repeat split.
Qed.

(** X15.  [QubitCircuit.run] does not use its argument [measure_results]: the
    simulator it builds receives the forced outcomes, but the call of [run]
    on that simulator passes none and resets them.  The measurements of the
    program are drawn from the random source whatever was requested. *)
Theorem circuit_run_ignores_measure_results (c : QubitCircuit)
    (state : Qobj) (cb : option (list Z)) (U_list : option (list Qobj))
    (mr : option (list Tok)) (rng : Rng) :
  QubitCircuit_run isoper propagators c state cb U_list mr rng
  = QubitCircuit_run isoper propagators c state cb U_list None rng.
Proof.
  unfold QubitCircuit_run.
  destruct (mode_of_state isoper state) as [md|e]; cbn [bind];
    [|reflexivity].
  pose proof (simulator_new_same_program c (Some state) cb U_list mr None md)
    as H.
  destruct (CircuitSimulator_new propagators c (Some state) cb U_list mr md)
    as [s1|e1];
    destruct (CircuitSimulator_new propagators c (Some state) cb U_list None
                md) as [s2|e2]; cbn [bind]; try contradiction.
  - now rewrite (run_same_program s1 s2 _ _ _ _ H).
  - now rewrite H.
Qed.

End CircuitRunFacts.

(** On the rational engine: outcome 1 is requested for the measurement of
    [(3|0> + 4|1>) / 5], the sample 0 of the random source selects outcome
    0, and the state returned is |0>. *)
Example circuit_run_request_has_no_effect :
  QubitCircuit_run (fun _ => false) (fun _ => Ok [])
    (Examples.qc_measure None) QEngine.ket34 None None (Some [TInt 1]) [0%Q]
  = Ok (SObj QEngine.ket0, []).
Proof. vm_compute. reflexivity. Qed.

(** ** The circuit builder *)

Lemma py_pop_middle {A : Type} (pre post : list A) (x : A) (i : Z) :
  i = Z.of_nat (List.length pre) ->
  py_pop (pre ++ x :: post) i = Done (pre ++ post).
Proof.
  intros ->. unfold py_pop.
  destruct (Z.ltb_spec (Z.of_nat (List.length pre)) 0); [lia|].
  rewrite length_app. cbn [List.length].
  destruct (Z.ltb_spec (Z.of_nat (List.length pre)) 0); [lia|].
  destruct (Z.leb_spec (Z.of_nat (List.length pre + S (List.length post)))
              (Z.of_nat (List.length pre))); [lia|].
  cbn [orb]. rewrite Nat2Z.id. f_equal.
  rewrite firstn_app, Nat.sub_diag, firstn_all. cbn [firstn].
  rewrite app_nil_r. f_equal.
  rewrite skipn_app, skipn_all2 by lia.
  replace (S (List.length pre) - List.length pre)%nat with 1%nat by lia.
  reflexivity.
Qed.

Lemma py_pop_end {A : Type} (l : list A) (i : Z) :
  Z.of_nat (List.length l) <= i -> py_pop l i = Fails (ExPy IndexError).
Proof.
  intros H. unfold py_pop.
  destruct (Z.ltb_spec i 0); [lia|].
  destruct (Z.ltb_spec i 0); [lia|].
  destruct (Z.leb_spec (Z.of_nat (List.length l)) i); [|lia].
  reflexivity.
Qed.

(** The pops of the range form, started at the element behind [pre]. *)
Lemma pop_each_alternates (index : Z) (k : nat) :
  forall (pre l : list CircuitOp) (j : nat),
    Z.of_nat (List.length pre) = index + Z.of_nat j ->
    pop_each (pre ++ l) index (map Z.of_nat (seq j k))
    = if (2 * k - 1 <=? List.length l)%nat
      then Done (pre ++ drop_alternate k l)
      else Fails (ExPy IndexError).
Proof.
  induction k as [|k IH]; intros pre l j Hpre; cbn [seq map pop_each].
  - reflexivity.
  - destruct l as [|x [|y tl]].
    + rewrite app_nil_r, py_pop_end by lia. cbn [and_then List.length].
      destruct (Nat.leb_spec (2 * S k - 1) 0); [lia|reflexivity].
    + rewrite (py_pop_middle pre [] x) by lia. cbn [and_then].
      rewrite app_nil_r. destruct k as [|k].
      * cbn. now rewrite app_nil_r.
      * cbn [seq map pop_each]. rewrite py_pop_end by lia.
        cbn [and_then List.length].
        destruct (Nat.leb_spec (2 * S (S k) - 1) 1); [lia|reflexivity].
    + rewrite (py_pop_middle pre (y :: tl) x) by lia. cbn [and_then].
      change (pre ++ y :: tl) with (pre ++ [y] ++ tl).
      rewrite app_assoc.
      rewrite (IH (pre ++ [y]) tl (S j))
        by (rewrite length_app; cbn [List.length]; lia).
      cbn [List.length drop_alternate].
      destruct (Nat.leb_spec (2 * k - 1) (List.length tl));
        destruct (Nat.leb_spec (2 * S k - 1) (S (S (List.length tl))));
        try lia; [|reflexivity].
      now rewrite <- app_assoc.
Qed.

(** X16.  Removing the range of positions from [index] up to [end], both within
    the program, does not remove that range: the pops run over a list that
    shrinks under them, so every other entry from [index] on goes, and the
    last pops fall off the end ([IndexError]) as soon as the range holds
    more than half of what follows [index], rounded up. *)
Theorem remove_range_alternates (eqb : CircuitOp -> CircuitOp -> bool)
    (qc : QubitCircuit) (index e : Z) (nm : option string)
    (remove : string) :
  0 <= index -> index <= e -> e <= Z.of_nat (List.length (gates qc)) ->
  remove_gate_or_measurement eqb qc (Some index) (Some e) nm remove
  = if 2 * e <=? Z.of_nat (List.length (gates qc)) + index + 1
    then Done (firstn (Z.to_nat index) (gates qc)
               ++ drop_alternate (Z.to_nat (e - index))
                    (skipn (Z.to_nat index) (gates qc)))
    else Fails (ExPy IndexError).
Proof.
  intros H0 Hie Hlen. unfold remove_gate_or_measurement.
  destruct (Z.ltb_spec (Z.of_nat (List.length (gates qc))) index); [lia|].
  destruct (Z.leb_spec e (Z.of_nat (List.length (gates qc)))); [|lia].
  unfold py_range.
  rewrite <- (firstn_skipn (Z.to_nat index) (gates qc)) at 1.
  rewrite (pop_each_alternates index (Z.to_nat (e - index)) _ _ 0%nat)
    by (rewrite length_firstn; lia).
  rewrite length_skipn.
  destruct (Nat.leb_spec (2 * Z.to_nat (e - index) - 1)
              (List.length (gates qc) - Z.to_nat index));
    destruct (Z.leb_spec (2 * e)
                (Z.of_nat (List.length (gates qc)) + index + 1));
    try lia; reflexivity.
Qed.

Lemma remove_range_alternates_witness :
  remove_gate_or_measurement (fun _ _ => false)
    (Build_QubitCircuit 1 0
       [G (mkGate "A" (Some [0]) None None);
        G (mkGate "B" (Some [0]) None None);
        G (mkGate "C" (Some [0]) None None);
        G (mkGate "D" (Some [0]) None None)])
    (Some 0) (Some 2) None "first"
  = Done [G (mkGate "B" (Some [0]) None None);
          G (mkGate "D" (Some [0]) None None)].
Proof.
  apply (remove_range_alternates (fun _ _ => false)
           (Build_QubitCircuit 1 0
              [G (mkGate "A" (Some [0]) None None);
               G (mkGate "B" (Some [0]) None None);
               G (mkGate "C" (Some [0]) None None);
               G (mkGate "D" (Some [0]) None None)])
           0 2 None "first"); cbn; lia.
Defined.

Lemma rev_range_succ (n : nat) :
  rev (py_range (Z.of_nat (S n))) = Z.of_nat n :: rev (py_range (Z.of_nat n)).
Proof.
  unfold py_range. rewrite !Nat2Z.id, seq_S, map_app, rev_app_distr.
  reflexivity.
Qed.

Lemma remove_all_filter (nm : string) (pre : list CircuitOp) :
  forall post : list CircuitOp,
    remove_all nm (rev (py_range (Z.of_nat (List.length pre)))) (pre ++ post)
    = Done (filter (fun o => negb (String.eqb nm (op_name o))) pre ++ post).
Proof.
  induction pre as [|o pre IH] using rev_ind; intros post.
  - reflexivity.
  - rewrite length_app. cbn [List.length]. rewrite Nat.add_1_r.
    rewrite rev_range_succ. cbn [remove_all].
    rewrite <- app_assoc. cbn [app].
    rewrite py_index_middle. cbn [lift and_then].
    rewrite filter_app. cbn [filter].
    destruct (String.eqb nm (op_name o)); cbn [negb].
    + rewrite py_pop_middle by reflexivity. cbn [and_then].
      rewrite IH, app_nil_r. reflexivity.
    + rewrite IH, <- app_assoc. reflexivity.
Qed.

Lemma remove_last_spec (nm : string) (pre : list CircuitOp) :
  forall post : list CircuitOp,
    remove_last nm (rev (py_range (Z.of_nat (List.length pre)))) (pre ++ post)
    = Done (rev (list_remove (fun o _ => String.eqb nm (op_name o))
                   (G (mkGate "" None None None)) (rev pre)) ++ post).
Proof.
  induction pre as [|o pre IH] using rev_ind; intros post.
  - reflexivity.
  - rewrite length_app. cbn [List.length]. rewrite Nat.add_1_r.
    rewrite rev_range_succ. cbn [remove_last].
    rewrite <- app_assoc. cbn [app].
    rewrite py_index_middle. cbn [lift and_then].
    rewrite rev_app_distr. cbn [rev app list_remove].
    destruct (String.eqb nm (op_name o)).
    + rewrite py_pop_middle by reflexivity. now rewrite rev_involutive.
    + rewrite IH. cbn [rev]. now rewrite <- app_assoc.
Qed.

(** X17.  Removal by name: [remove="all"] leaves exactly the entries of another
    name, in their order, and never fails; [remove="last"] removes the last
    entry of that name, if there is one. *)
Theorem remove_by_name (eqb : CircuitOp -> CircuitOp -> bool)
    (qc : QubitCircuit) (nm : string) :
  remove_gate_or_measurement eqb qc None None (Some nm) "all"
  = Done (filter (fun o => negb (String.eqb nm (op_name o))) (gates qc)) /\
  (forall pre post o,
     gates qc = pre ++ o :: post ->
     op_name o = nm ->
     Forall (fun o' => op_name o' <> nm) post ->
     remove_gate_or_measurement eqb qc None None (Some nm) "last"
     = Done (pre ++ post)) /\
  (Forall (fun o' => op_name o' <> nm) (gates qc) ->
   remove_gate_or_measurement eqb qc None None (Some nm) "last"
   = Done (gates qc)).
Proof.
  unfold remove_gate_or_measurement.
  cbn [String.eqb Ascii.eqb Bool.eqb].
  pose proof (remove_all_filter nm (gates qc) []) as Hall.
  pose proof (remove_last_spec nm (gates qc) []) as Hlast.
  rewrite !app_nil_r in Hall, Hlast.
  split; [exact Hall|].
  assert (Hkeep : forall l : list CircuitOp,
             Forall (fun o' => op_name o' <> nm) l ->
             list_remove (fun o _ => String.eqb nm (op_name o))
               (G (mkGate "" None None None)) (rev l) = rev l).
  { intros l Hl. apply Forall_rev in Hl.
    induction Hl as [|o' tl Ho _ IH]; cbn [list_remove]; [reflexivity|].
    destruct (String.eqb_spec nm (op_name o')); [congruence|].
    now rewrite IH. }
  split.
  - intros pre post o Hg Ho Hpost. rewrite Hlast, Hg. f_equal.
    rewrite rev_app_distr. cbn [rev]. rewrite <- app_assoc. cbn [app].
    assert (Hrm : forall l tl : list CircuitOp,
               Forall (fun o' => op_name o' <> nm) l ->
               list_remove (fun o _ => String.eqb nm (op_name o))
                 (G (mkGate "" None None None)) (rev l ++ o :: tl)
               = rev l ++ tl).
    { intros l tl Hl. apply Forall_rev in Hl.
      induction Hl as [|o' l' Ho' _ IH]; cbn [list_remove app].
      - rewrite Ho, String.eqb_refl. reflexivity.
      - destruct (String.eqb_spec nm (op_name o')); [congruence|].
        now rewrite IH. }
    rewrite Hrm by exact Hpost.
    rewrite rev_app_distr, !rev_involutive. reflexivity.
  - intros Hnone. rewrite Hlast, (Hkeep _ Hnone), rev_involutive.
    reflexivity.
Qed.

Lemma remove_by_name_witness :
  remove_gate_or_measurement (fun _ _ => false)
    (Build_QubitCircuit 1 0
       [G (mkGate "A" (Some [0]) None None);
        G (mkGate "B" (Some [0]) None None);
        G (mkGate "A" (Some [0]) None None);
        G (mkGate "C" (Some [0]) None None)])
    None None (Some "A") "last"
  = Done [G (mkGate "A" (Some [0]) None None);
          G (mkGate "B" (Some [0]) None None);
          G (mkGate "C" (Some [0]) None None)].
Proof.
  apply (proj1 (proj2 (remove_by_name (fun _ _ => false)
           (Build_QubitCircuit 1 0
              [G (mkGate "A" (Some [0]) None None);
               G (mkGate "B" (Some [0]) None None);
               G (mkGate "A" (Some [0]) None None);
               G (mkGate "C" (Some [0]) None None)]) "A"))
           [G (mkGate "A" (Some [0]) None None);
            G (mkGate "B" (Some [0]) None None)]
           [G (mkGate "C" (Some [0]) None None)]
           (G (mkGate "A" (Some [0]) None None))).
  - reflexivity.
  - reflexivity.
  - repeat constructor. cbn. discriminate.
Defined.

(** *** Insertion at given positions *)

Lemma insert_sorted_length (z : Z) (l : list Z) :
  List.length (insert_sorted z l) = S (List.length l).
Proof.
  induction l as [|y tl IH]; cbn [insert_sorted]; [reflexivity|].
  destruct (z <=? y); cbn [List.length]; [reflexivity|now rewrite IH].
Qed.

Lemma np_sort_length (l : list Z) : List.length (np_sort l) = List.length l.
Proof.
  induction l as [|z tl IH]; cbn [np_sort fold_right]; [reflexivity|].
  fold (np_sort tl). now rewrite insert_sorted_length, IH.
Qed.

Lemma insert_sorted_Forall (P : Z -> Prop) (z : Z) (l : list Z) :
  P z -> Forall P l -> Forall P (insert_sorted z l).
Proof.
  intros Hz. induction 1 as [|y tl Hy Htl IH]; cbn [insert_sorted].
  - constructor; [exact Hz|constructor].
  - destruct (z <=? y); repeat constructor; assumption.
Qed.

Lemma np_sort_Forall (P : Z -> Prop) (l : list Z) :
  Forall P l -> Forall P (np_sort l).
Proof.
  induction 1 as [|z tl Hz _ IH]; cbn [np_sort fold_right]; [constructor|].
  apply insert_sorted_Forall; assumption.
Qed.

Lemma insert_sorted_ascending (b z : Z) (l : list Z) :
  b <= z -> ascending_from b l -> ascending_from b (insert_sorted z l).
Proof.
  revert b. induction l as [|y tl IH]; intros b Hb Hl;
    cbn [insert_sorted ascending_from] in *.
  - auto.
  - destruct Hl as [Hy Htl]. destruct (Z.leb_spec z y);
      cbn [ascending_from].
    + repeat split; auto.
    + split; [exact Hy|]. apply IH; [lia|exact Htl].
Qed.

Lemma np_sort_ascending (b : Z) (l : list Z) :
  Forall (fun p => b <= p) l -> ascending_from b (np_sort l).
Proof.
  induction 1 as [|z tl Hz _ IH]; cbn [np_sort fold_right ascending_from];
    [exact I|].
  apply insert_sorted_ascending; assumption.
Qed.

Lemma py_insert_middle {A : Type} (pre rest : list A) (x : A) (i : Z)
    (d : nat) :
  i = Z.of_nat (List.length pre) + Z.of_nat d ->
  (d <= List.length rest)%nat ->
  py_insert (pre ++ rest) i x
  = (pre ++ firstn d rest) ++ x :: skipn d rest.
Proof.
  intros -> Hd. unfold py_insert. rewrite length_app.
  destruct (Z.ltb_spec (Z.of_nat (List.length pre) + Z.of_nat d) 0); [lia|].
  rewrite Z.min_l by lia.
  replace (Z.to_nat (Z.of_nat (List.length pre) + Z.of_nat d))
    with (List.length pre + d)%nat by lia.
  rewrite firstn_app, skipn_app.
  rewrite firstn_all2 by lia. rewrite skipn_all2 by lia.
  replace (List.length pre + d - List.length pre)%nat with d by lia.
  reflexivity.
Qed.

Lemma ascending_from_head (base : Z) (ps : list Z) :
  ascending_from base ps -> Forall (fun p => base <= p) ps.
Proof.
  revert base. induction ps as [|p tl IH]; intros base; cbn [ascending_from];
    [constructor|].
  intros [Hp Htl]. constructor; [exact Hp|].
  eapply Forall_impl; [|exact (IH _ Htl)]. cbn. intros q Hq. lia.
Qed.

(** The shifted insertions, started behind [pre] with [j] copies already
    in. *)
Lemma insert_each_weave {A : Type} (x : A) (ps : list Z) :
  forall (pre rest : list A) (base : Z) (j : nat),
    0 <= base ->
    ascending_from base ps ->
    Forall (fun p => p <= base + Z.of_nat (List.length rest)) ps ->
    Z.of_nat (List.length pre) = base + Z.of_nat j ->
    insert_each (pre ++ rest) x
      (map (fun pk => fst pk + snd pk)
           (combine ps (map Z.of_nat (seq j (List.length ps)))))
    = pre ++ weave x rest base ps.
Proof.
  induction ps as [|p tl IH]; intros pre rest base j Hb Hasc Hle Hpre;
    cbn [List.length seq map combine insert_each weave fst snd].
  - reflexivity.
  - cbn [ascending_from] in Hasc. destruct Hasc as [Hp Htl].
    inversion Hle as [|? ? Hp2 Hle2]; subst.
    rewrite (py_insert_middle pre rest x _ (Z.to_nat (p - base)))
      by lia.
    replace ((pre ++ firstn (Z.to_nat (p - base)) rest)
               ++ x :: skipn (Z.to_nat (p - base)) rest)
      with ((pre ++ firstn (Z.to_nat (p - base)) rest ++ [x])
              ++ skipn (Z.to_nat (p - base)) rest)
      by (rewrite <- !app_assoc; reflexivity).
    rewrite (IH _ _ p (S j)).
    + rewrite <- !app_assoc. reflexivity.
    + lia.
    + exact Htl.
    + eapply Forall_impl; [|exact Hle2]. cbn. intros q Hq.
      rewrite length_skipn. lia.
    + rewrite !length_app, length_firstn. cbn [List.length]. lia.
Qed.

(** X18.  [add_gate] with a list of positions within the program puts one copy
    of the gate immediately in front of the entry that stood at each
    requested position (at the end for the position just past the last
    entry), whatever the order in which the positions are given; the
    entries of the program keep their order. *)
Theorem add_gate_places_before (gs : list CircuitOp) (gate : Gate)
    (index : list Z) :
  Forall (fun p => 0 <= p <= Z.of_nat (List.length gs)) index ->
  add_gate gs gate (Some index) = weave (G gate) gs 0 (np_sort index).
Proof.
  intros Hin. unfold add_gate, shifted_inds, py_range.
  rewrite Nat2Z.id, <- (np_sort_length index).
  apply (insert_each_weave (G gate) (np_sort index) [] gs 0 0%nat).
  - lia.
  - apply np_sort_ascending. eapply Forall_impl; [|exact Hin].
    cbn. intros p Hp. lia.
  - apply np_sort_Forall. eapply Forall_impl; [|exact Hin].
    cbn. intros p Hp. lia.
  - reflexivity.
Qed.

Lemma add_gate_places_before_witness :
  add_gate
    [G (mkGate "A" (Some [0]) None None);
     G (mkGate "B" (Some [0]) None None);
     G (mkGate "C" (Some [0]) None None)]
    (mkGate "X" (Some [0]) None None) (Some [3; 1; 1])
  = [G (mkGate "A" (Some [0]) None None);
     G (mkGate "X" (Some [0]) None None);
     G (mkGate "X" (Some [0]) None None);
     G (mkGate "B" (Some [0]) None None);
     G (mkGate "C" (Some [0]) None None);
     G (mkGate "X" (Some [0]) None None)].
Proof.
  apply (add_gate_places_before
           [G (mkGate "A" (Some [0]) None None);
            G (mkGate "B" (Some [0]) None None);
            G (mkGate "C" (Some [0]) None None)]
           (mkGate "X" (Some [0]) None None) [3; 1; 1]).
  repeat (apply Forall_cons; [cbn; lia|]). apply Forall_nil.
Defined.

(** *** One-qubit gates on a list of qubits *)

Section OneQubitGateFacts.

Variable gate_class_map : string -> option (Z -> GateArgs -> outcome Gate).

Lemma add_1q_loop_inv (nm : string) (target : Z -> result Z)
    (args : GateArgs) (indices : list Z) :
  forall gs out : list CircuitOp,
    add_1q_loop gate_class_map nm target args indices gs = Done out ->
    exists (ts : list Z) (new : list Gate),
      map_result target indices = Ok ts /\
      Forall2 (fun t g => exists cls, gate_class_map nm = Some cls /\
                                      cls t args = Done g) ts new /\
      out = gs ++ map G new.
Proof.
  induction indices as [|i tl IH]; intros gs out;
    cbn [add_1q_loop map_result].
  - intros [= <-]. exists [], []. cbn. rewrite app_nil_r. auto.
  - destruct (gate_class_map nm) as [cls|] eqn:Hcls; [|discriminate].
    destruct (target i) as [t|e]; cbn [lift and_then bind]; [|discriminate].
    destruct (cls t args) as [g|e] eqn:Hg; cbn [and_then]; [|discriminate].
    intros H. destruct (IH _ _ H) as (ts & new & Hts & Hall & ->).
    exists (t :: ts), (g :: new). rewrite Hts. cbn [bind map].
    split; [reflexivity|]. split.
    + constructor; [|exact Hall]. exists cls. auto.
    + rewrite <- app_assoc. reflexivity.
Qed.

Lemma map_result_py_index_range {A : Type} (l : list A) (indices : list Z)
    (out : list A) :
  map_result (py_index l) indices = Ok out ->
  Forall (fun q => - Z.of_nat (List.length l) <= q < Z.of_nat (List.length l))
         indices.
Proof.
  revert out. induction indices as [|i tl IH]; intros out; cbn [map_result].
  - constructor.
  - destruct (py_index l i) as [a|e] eqn:E; cbn [bind]; [|discriminate].
    destruct (map_result (py_index l) tl) as [rest|e] eqn:E2; cbn [bind];
      [|discriminate].
    intros _. constructor; [|eapply IH; reflexivity].
    unfold py_index in E.
    destruct (Z.ltb_spec i 0);
      destruct (Z.ltb_spec (i + Z.of_nat (List.length l)) 0);
      destruct (Z.leb_spec (Z.of_nat (List.length l))
                  (i + Z.of_nat (List.length l)));
      destruct (Z.ltb_spec i 0);
      destruct (Z.leb_spec (Z.of_nat (List.length l)) i);
      cbn [orb] in E; try discriminate; lia.
Qed.

(** X19.  [add_1q_gate] with a list [qubits] does not put the gate on the listed
    qubits: each listed number is used as a position in the list itself, and
    the gate goes on the qubit found there.  The call succeeds only if
    every listed number is a valid position of the list, and the gates it
    appends are those the gate class builds for [qubits[q]], [q] running
    over the list. *)
Theorem add_1q_gate_indexes_qubits (qc : QubitCircuit) (nm : string)
    (start : Z) (e : option Z) (qubits : list Z) (args : GateArgs)
    (out : list CircuitOp) :
  add_1q_gate gate_class_map qc nm start e (Some qubits) args = Done out ->
  Forall (fun q => - Z.of_nat (List.length qubits) <= q
                   < Z.of_nat (List.length qubits)) qubits /\
  exists (ts : list Z) (new : list Gate),
    map_result (py_index qubits) qubits = Ok ts /\
    Forall2 (fun t g => exists cls, gate_class_map nm = Some cls /\
                                    cls t args = Done g) ts new /\
    out = gates qc ++ map G new.
Proof.
  unfold add_1q_gate. intros H.
  destruct (add_1q_loop_inv nm (py_index qubits) args qubits _ _ H)
    as (ts & new & Hts & Hall & ->).
  split; [eapply map_result_py_index_range; exact Hts|].
  exists ts, new. auto.
Qed.

End OneQubitGateFacts.

Lemma add_1q_gate_indexes_qubits_witness :
  add_1q_gate (fun nm => Some (plain_class nm))
    (Build_QubitCircuit 2 0 []) "SNOT" 0 None (Some [1; 0])
    (Build_GateArgs None None None None)
  = Done [G (mkGate "SNOT" (Some [0]) None None);
          G (mkGate "SNOT" (Some [1]) None None)] /\
  Forall (fun q => -2 <= q < 2) [1; 0].
Proof.
  split; [reflexivity|].
  exact (proj1 (add_1q_gate_indexes_qubits (fun nm => Some (plain_class nm))
                  (Build_QubitCircuit 2 0 []) "SNOT" 0 None [1; 0]
                  (Build_GateArgs None None None None) _ eq_refl)).
Defined.

(** *** Reversal *)

Section Reversal.

Variable GateFunction : Type.

Local Notation "'Circuit'" := (Whole.QubitCircuit GateFunction).

Lemma handed_over_index_free (o : Whole.CircuitOp) :
  Whole.handed_over o = o <-> Whole.index_free o.
Proof.
  destruct o as [g|[nm tg ix cs]]; cbn; [tauto|].
  split; [intros [= <-]; reflexivity|intros ->; reflexivity].
Qed.

Lemma handed_over_twice (o : Whole.CircuitOp) :
  Whole.handed_over (Whole.handed_over o) = Whole.handed_over o.
Proof. destruct o as [g|m]; reflexivity. Qed.

Lemma map_handed_over_fixed (l : list Whole.CircuitOp) :
  map Whole.handed_over l = l <-> Forall Whole.index_free l.
Proof.
  induction l as [|o tl IH]; cbn [map].
  - split; [constructor|reflexivity].
  - split.
    + intros [= Ho Htl]. constructor; [now apply handed_over_index_free|].
      now apply IH.
    + intros H. inversion H as [|? ? Ho Htl]; subst.
      f_equal; [now apply handed_over_index_free|now apply IH].
Qed.

Lemma reverse_loop (l : list Whole.CircuitOp) :
  forall temp : Circuit,
    fold_left (fun temp circuit_op =>
                 match circuit_op with
                 | Whole.G g => Whole.add_gate temp g
                 | Whole.M m => Whole.add_measurement temp m
                 end) l temp
    = Whole.Build_QubitCircuit (Whole.N temp) (Whole.reverse_states temp)
        (Whole.gates temp ++ map Whole.handed_over l) (Whole.dims temp)
        (Whole.num_cbits temp) (Whole.input_states temp)
        (Whole.output_states temp) (Whole.user_gates temp).
Proof.
  induction l as [|[g|m] tl IH]; intros temp; cbn [fold_left map].
  - rewrite app_nil_r. destruct temp. reflexivity.
  - rewrite IH. cbn. now rewrite <- app_assoc.
  - rewrite IH. cbn. now rewrite <- app_assoc.
Qed.

Lemma labels_or_default_twice (n : Z) (l : list (option string)) :
  Whole.labels_or_default n (Whole.labels_or_default n l)
  = Whole.labels_or_default n l.
Proof.
  destruct l as [|x tl]; [|reflexivity].
  cbn [Whole.labels_or_default].
  destruct (repeat None (Z.to_nat n)) eqn:E; [|reflexivity].
  cbn [Whole.labels_or_default]. exact E.
Qed.

Lemma reverse_circuit_value (qc : Circuit) :
  Whole.reverse_circuit qc
  = Whole.Build_QubitCircuit (Whole.N qc) (Whole.reverse_states qc)
      (map Whole.handed_over (rev (Whole.gates qc)))
      (repeat 2 (Z.to_nat (Whole.N qc))) (Whole.num_cbits qc)
      (Whole.labels_or_default (Whole.N qc + Whole.num_cbits qc)
         (Whole.input_states qc))
      (Whole.labels_or_default (Whole.N qc + Whole.num_cbits qc)
         (Whole.output_states qc))
      [].
Proof.
  unfold Whole.reverse_circuit. rewrite reverse_loop.
  unfold Whole.QubitCircuit_init, Whole.labels_or_default.
  cbn [Whole.N Whole.reverse_states Whole.gates Whole.dims Whole.num_cbits
       Whole.input_states Whole.output_states Whole.user_gates app].
  destruct (Whole.input_states qc), (Whole.output_states qc); reflexivity.
Qed.

(** X20.  [reverse_circuit] returns a circuit on the same registers whose entries
    are those of the program in reverse order, a gate as it is and a
    measurement without its [index]; its [dims] are those of qubits and it
    has no user gate.  Reversing twice gives the program rebuilt in this
    way, which is the program itself exactly when no measurement holds an
    [index], its [dims] are those of qubits, it has no user gate and its
    lists of labels are not empty or those of a new circuit. *)
Theorem reverse_circuit_twice (qc : Circuit) :
  Whole.gates (Whole.reverse_circuit qc)
    = map Whole.handed_over (rev (Whole.gates qc)) /\
  Whole.N (Whole.reverse_circuit qc) = Whole.N qc /\
  Whole.num_cbits (Whole.reverse_circuit qc) = Whole.num_cbits qc /\
  Whole.reverse_states (Whole.reverse_circuit qc) = Whole.reverse_states qc /\
  Whole.dims (Whole.reverse_circuit qc) = repeat 2 (Z.to_nat (Whole.N qc)) /\
  Whole.user_gates (Whole.reverse_circuit qc) = [] /\
  Whole.reverse_circuit (Whole.reverse_circuit qc) = Whole.rebuilt qc /\
  (Whole.reverse_circuit (Whole.reverse_circuit qc) = qc <->
     Forall Whole.index_free (Whole.gates qc) /\
     Whole.dims qc = repeat 2 (Z.to_nat (Whole.N qc)) /\
     Whole.user_gates qc = [] /\
     Whole.labels_or_default (Whole.N qc + Whole.num_cbits qc)
       (Whole.input_states qc) = Whole.input_states qc /\
     Whole.labels_or_default (Whole.N qc + Whole.num_cbits qc)
       (Whole.output_states qc) = Whole.output_states qc).
Proof.
  assert (Htwice : Whole.reverse_circuit (Whole.reverse_circuit qc)
                   = Whole.rebuilt qc).
  { rewrite (reverse_circuit_value (Whole.reverse_circuit qc)).
    rewrite (reverse_circuit_value qc).
    cbn [Whole.N Whole.reverse_states Whole.gates Whole.dims Whole.num_cbits
         Whole.input_states Whole.output_states Whole.user_gates].
    unfold Whole.rebuilt.
    rewrite !labels_or_default_twice.
    rewrite !map_rev, rev_involutive, map_map.
    f_equal. apply map_ext. intros o. apply handed_over_twice. }
  rewrite Htwice, (reverse_circuit_value qc).
  cbn [Whole.N Whole.reverse_states Whole.gates Whole.dims Whole.num_cbits
       Whole.input_states Whole.output_states Whole.user_gates].
  repeat (split; [reflexivity|]).
  unfold Whole.rebuilt. destruct qc as [n rs gs ds nc ins outs ug].
  cbn [Whole.N Whole.reverse_states Whole.gates Whole.dims Whole.num_cbits
       Whole.input_states Whole.output_states Whole.user_gates].
  split.
  - intros [= Hg Hd Hi Ho Hu].
    split; [now apply map_handed_over_fixed|]. auto.
  - intros (Hg & Hd & Hu & Hi & Ho).
    apply map_handed_over_fixed in Hg.
    rewrite Hg, Hi, Ho, <- Hd, Hu. reflexivity.
Qed.

End Reversal.

(** A circuit of one qutrit with a measurement that holds an [index]: the
    second reversal does not give it back. *)
Example reverse_circuit_twice_differs :
  let m := Whole.Build_Measurement "M0" (Some [0]) (Some [0]) None in
  let qc := Whole.Build_QubitCircuit (GateFunction := unit) 1 true
              [Whole.M m] [3] 0 [None] [None] [] in
  Whole.reverse_circuit (Whole.reverse_circuit qc)
  = Whole.Build_QubitCircuit 1 true
      [Whole.M (Whole.Build_Measurement "M0" (Some [0]) None None)]
      [2] 0 [None] [None] [] /\
  Whole.reverse_circuit (Whole.reverse_circuit qc) <> qc.
Proof.
  split; [reflexivity|]. cbn. intros H. discriminate H.
Qed.

(** ** Linearizing, then resolving *)

Lemma adjacent_ctrl_loop_names (P : Gate -> Prop) (fuel : nat)
    (gname : string) (ctrl start end_ : Z) :
  (forall g, named_or_swap gname g -> P g) ->
  forall (i : Z) (out r : list Gate),
    adjacent_ctrl_loop fuel gname ctrl start end_ i out = Some r ->
    Forall P out -> Forall P r.
Proof.
  intros HP.
  induction fuel as [|fuel IH]; intros i out r; cbn [adjacent_ctrl_loop];
    [discriminate|].
  destruct (i <? end_); [|intros [= <-]; auto].
  destruct ((start + end_ - i - i =? 1) && ((end_ - start + 1) mod 2 =? 0));
    [|destruct ((start + end_ - i - i =? 2)
                && ((end_ - start + 1) mod 2 =? 1))];
    intros H Hout; try destruct (end_ =? ctrl);
    (eapply IH; [exact H|]);
    (apply Forall_app; split; [exact Hout|]);
    repeat (apply Forall_cons;
            [apply HP; first [left; reflexivity|right; reflexivity]|]);
    apply Forall_nil.
Qed.

Lemma adjacent_swap_loop_names (P : Gate -> Prop) (fuel : nat)
    (gname : string) (start end_ : Z) :
  (forall g, named_or_swap gname g -> P g) ->
  forall (i : Z) (out r : list Gate),
    adjacent_swap_loop fuel gname start end_ i out = Some r ->
    Forall P out -> Forall P r.
Proof.
  intros HP.
  induction fuel as [|fuel IH]; intros i out r; cbn [adjacent_swap_loop];
    [discriminate|].
  destruct (i <? end_); [|intros [= <-]; auto].
  destruct ((start + end_ - i - i =? 1) && ((end_ - start + 1) mod 2 =? 0));
    [|destruct ((start + end_ - i - i =? 2)
                && ((end_ - start + 1) mod 2 =? 1))];
    intros H Hout;
    (eapply IH; [exact H|]);
    (apply Forall_app; split; [exact Hout|]);
    repeat (apply Forall_cons;
            [apply HP; first [left; reflexivity|right; reflexivity]|]);
    apply Forall_nil.
Qed.

(** The pass emits gates of the names of the program, and SWAP. *)
Lemma adjacent_loop_names (P : Gate -> Prop) (gs : list Gate) :
  Forall (fun g => forall h, named_or_swap (name g) h -> P h) gs ->
  forall out r, adjacent_loop gs out = Some (Ok r) ->
                Forall P out -> Forall P r.
Proof.
  induction 1 as [|g tl Hg _ IH]; intros out r; cbn [adjacent_loop].
  - intros [= <-]. auto.
  - destruct (adjacent_gate g out) as [[out'|e]|] eqn:E; try discriminate.
    intros H Hout. eapply IH; [exact H|].
    destruct (adjacent_gate_ok_inv g out out' E)
      as (a & b & _ & [[Hn Hloop]|(_ & Hn & Hloop)]).
    + eapply adjacent_ctrl_loop_names; eassumption.
    + eapply adjacent_swap_loop_names; eassumption.
Qed.

Lemma settled_cnot_or_swap (g : Gate) :
  settled g -> name g = "CNOT" \/ name g = "SWAP" ->
  neighbour_cnot g \/
  exists a, g = mkGate "SWAP" (Some [a; a + 1]) None None.
Proof.
  intros [(t & c & Hn & Hg & Habs)|(a & Hn & Hg)] [Hname|Hname];
    rewrite Hname in *.
  - left. exists t, c. auto.
  - discriminate.
  - discriminate.
  - right. exists a. exact Hg.
Qed.

(** In the default basis the resolver keeps a CNOT and turns a SWAP of two
    neighbours into three CNOTs on the same two qubits. *)
Lemma resolve_loop_neighbours (gs : list Gate) :
  Forall (fun g => neighbour_cnot g \/
                   exists a, g = mkGate "SWAP" (Some [a; a + 1]) None None)
         gs ->
  forall q t : list Gate,
    Forall neighbour_cnot t ->
    exists t',
      resolve_loop gs ["RX"; "RY"; "RZ"] ["CNOT"] q t = Ok (q, t') /\
      Forall neighbour_cnot t'.
Proof.
  induction 1 as [|g tl Hg _ IH]; intros q t Ht; cbn [resolve_loop].
  - exists t. auto.
  - destruct Hg as [(a & b & -> & Hab)|(a & ->)].
    + cbn [name cnot mkGate inb existsb String.eqb Ascii.eqb Bool.eqb orb].
      unfold _resolve_to_universal.
      cbn [name cnot mkGate inb existsb String.eqb Ascii.eqb Bool.eqb orb].
      unfold _gate_IGNORED.
      apply IH. apply Forall_app. split; [exact Ht|].
      constructor; [|constructor]. exists a, b. auto.
    + cbn [name mkGate inb existsb String.eqb Ascii.eqb Bool.eqb orb].
      unfold _resolve_to_universal.
      cbn [name mkGate inb existsb String.eqb Ascii.eqb Bool.eqb orb andb
           gate_method bind].
      unfold _gate_SWAP. cbn [targets mkGate subscript].
      change (py_index [a; a + 1] 0) with (Ok a).
      change (py_index [a; a + 1] 1) with (Ok (a + 1)).
      cbn [bind].
      apply IH. apply Forall_app. split; [exact Ht|].
      repeat (apply Forall_cons;
              [first [exists a, (a + 1); split; [reflexivity|lia]
                     |exists (a + 1), a; split; [reflexivity|lia]]|]).
      apply Forall_nil.
Qed.



(** ** Precomputed operations *)

Lemma firstn_plus {A : Type} (l : list A) (a b : nat) :
  firstn a l ++ firstn b (skipn a l) = firstn (a + b) l.
Proof.
  revert l. induction a as [|a IH]; intros l; [reflexivity|].
  destruct l as [|x tl]; cbn [firstn skipn app Nat.add].
  - now rewrite firstn_nil.
  - now rewrite IH.
Qed.

Lemma firstn_slice {A : Type} (l : list A) (a b : Z) :
  0 <= a <= b ->
  firstn (Z.to_nat a) l ++ py_slice l a b = firstn (Z.to_nat b) l.
Proof.
  intros H. unfold py_slice. rewrite firstn_plus. f_equal. lia.
Qed.

Lemma firstn_succ_nth {A : Type} (l : list A) (n : nat) (x : A) :
  nth_error l n = Some x -> firstn n l ++ [x] = firstn (S n) l.
Proof.
  revert n. induction l as [|y tl IH]; intros [|n]; cbn [nth_error];
    try discriminate.
  - intros [= ->]. reflexivity.
  - intros H. cbn [firstn app]. now rewrite (IH n H).
Qed.

Lemma py_index_firstn {A : Type} (l : list A) (i : Z) (x : A) :
  0 <= i -> py_index l i = Ok x ->
  firstn (Z.to_nat i) l ++ [x] = firstn (Z.to_nat (i + 1)) l.
Proof.
  intros Hi. unfold py_index.
  destruct (Z.ltb_spec i 0); [lia|].
  destruct ((i <? 0) || (Z.of_nat (List.length l) <=? i)); [discriminate|].
  destruct (nth_error l (Z.to_nat i)) as [y|] eqn:E; [|discriminate].
  intros [= ->]. replace (Z.to_nat (i + 1)) with (S (Z.to_nat i)) by lia.
  now apply firstn_succ_nth.
Qed.

Lemma gates_of_app (a b : list CircuitOp) :
  gates_of (a ++ b) = gates_of a ++ gates_of b.
Proof.
  induction a as [|[g|m] tl IH]; cbn [app gates_of]; [reflexivity| |exact IH].
  now rewrite IH.
Qed.

Lemma measurements_of_app (a b : list CircuitOp) :
  measurements_of (a ++ b) = measurements_of a ++ measurements_of b.
Proof.
  induction a as [|[g|m] tl IH]; cbn [app measurements_of];
    [reflexivity|exact IH|].
  now rewrite IH.
Qed.

Section PrecomputeFacts.

Context {Qobj P Rng : Type} {LA : LinAlg Qobj P Rng}.

Variable gate_sequence_product :
  list Qobj -> list (list Z) -> result (Qobj * list Z).

Local Notation "'realized'" := (realizes gate_sequence_product).

(** After the pending group is closed, the entries made so far use the
    unitaries up to [U_list_index]. *)
Lemma flush_group_inv (n : Z) (U_list : list Qobj) (inds : list (list Z))
    (prev idx : Z) (ops ops1 : list (Op Qobj)) (prev1 : Z)
    (segs : list (Segment Qobj)) :
  0 <= prev <= idx -> idx <= Z.of_nat (List.length inds) ->
  Forall2 (realized n) segs ops ->
  flat_map segment_unitaries segs = firstn (Z.to_nat prev) U_list ->
  flat_map segment_inds segs = firstn (Z.to_nat prev) inds ->
  flush_group gate_sequence_product n U_list inds prev idx ops
  = Ok (ops1, prev1) ->
  prev1 = idx /\
  exists segs1,
    Forall2 (realized n) segs1 ops1 /\
    flat_map segment_unitaries segs1 = firstn (Z.to_nat idx) U_list /\
    flat_map segment_inds segs1 = firstn (Z.to_nat idx) inds /\
    flat_map segment_measurements segs1
    = flat_map segment_measurements segs.
Proof.
  intros Hp Hlen Hall HU Hinds. unfold flush_group.
  destruct (Z.ltb_spec prev idx).
  - destruct (_compute_unitary gate_sequence_product n _ _) as [U|e] eqn:E;
      cbn [bind]; [|discriminate].
    intros [= <- <-]. split; [reflexivity|].
    exists (segs ++ [SegGroup (py_slice U_list prev idx)
                       (py_slice inds prev idx)]).
    split; [|split; [|split]].
    + apply Forall2_app; [exact Hall|].
      constructor; [|constructor]. cbn [realizes]. split; [|eauto].
      intros Hnil. apply (f_equal (@List.length _)) in Hnil.
      unfold py_slice in Hnil.
      rewrite length_firstn, length_skipn in Hnil. cbn [List.length] in Hnil.
      lia.
    + rewrite flat_map_app, HU. cbn [flat_map segment_unitaries].
      rewrite app_nil_r. apply firstn_slice. lia.
    + rewrite flat_map_app, Hinds. cbn [flat_map segment_inds].
      rewrite app_nil_r. apply firstn_slice. lia.
    + rewrite flat_map_app. cbn [flat_map segment_measurements].
      now rewrite app_nil_r.
  - intros [= <- <-]. assert (prev = idx) by lia. subst prev.
    split; [reflexivity|]. exists segs. auto.
Qed.

Lemma precompute_loop_inv (n : Z) (U_list : list Qobj)
    (inds : list (list Z)) (gs : list CircuitOp) :
  forall (done : list CircuitOp) (prev idx : Z) (ops : list (Op Qobj))
         (segs : list (Segment Qobj)) ops' prev' idx',
    inds = map get_all_qubits (gates_of (done ++ gs)) ->
    0 <= prev <= idx ->
    idx = Z.of_nat (List.length (gates_of done)) ->
    Forall2 (realized n) segs ops ->
    flat_map segment_unitaries segs = firstn (Z.to_nat prev) U_list ->
    flat_map segment_inds segs = firstn (Z.to_nat prev) inds ->
    flat_map segment_measurements segs = measurements_of done ->
    precompute_loop gate_sequence_product n gs U_list inds prev idx ops
    = Ok (ops', prev', idx') ->
    0 <= prev' <= idx' /\
    idx' = Z.of_nat (List.length (gates_of (done ++ gs))) /\
    exists segs',
      Forall2 (realized n) segs' ops' /\
      flat_map segment_unitaries segs' = firstn (Z.to_nat prev') U_list /\
      flat_map segment_inds segs' = firstn (Z.to_nat prev') inds /\
      flat_map segment_measurements segs' = measurements_of (done ++ gs).
Proof.
  induction gs as [|op tl IH];
    intros done prev idx ops segs ops' prev' idx' Hinds Hp Hidx Hall HU Hi Hm;
    cbn [precompute_loop].
  - intros [= <- <- <-]. rewrite app_nil_r. split; [exact Hp|].
    split; [exact Hidx|]. exists segs. auto.
  - assert (Hlen : idx <= Z.of_nat (List.length inds)).
    { rewrite Hinds, length_map, gates_of_app, length_app. lia. }
    replace (done ++ op :: tl) with ((done ++ [op]) ++ tl) in *
      by (rewrite <- app_assoc; reflexivity).
    destruct op as [g|m].
    + destruct (truthy (classical_controls g)) eqn:Hcc.
      * destruct (flush_group gate_sequence_product n U_list inds prev idx ops)
          as [[ops1 prev1]|e] eqn:Hf; cbn [bind]; [|discriminate].
        destruct (flush_group_inv n U_list inds prev idx ops ops1 prev1 segs
                    Hp Hlen Hall HU Hi Hf)
          as (-> & segs1 & Hall1 & HU1 & Hi1 & Hm1).
        destruct (py_index U_list idx) as [U|e] eqn:HUi; cbn [bind];
          [|discriminate].
        intros H.
        refine (IH (done ++ [G g]) (idx + 1) (idx + 1) _
                  (segs1 ++ [SegCtrl g U]) _ _ _ Hinds _ _ _ _ _ _ H).
        -- lia.
        -- rewrite gates_of_app, length_app. cbn [gates_of List.length]. lia.
        -- apply Forall2_app; [exact Hall1|].
           constructor; [|constructor]. cbn [realizes]. auto.
        -- rewrite flat_map_app, HU1. cbn [flat_map segment_unitaries].
           rewrite app_nil_r. apply py_index_firstn; [lia|exact HUi].
        -- rewrite flat_map_app, Hi1. cbn [flat_map segment_inds].
           rewrite app_nil_r.
           replace (Z.to_nat (idx + 1)) with (S (Z.to_nat idx)) by lia.
           apply firstn_succ_nth.
           rewrite Hinds, !gates_of_app, !map_app. cbn [gates_of map].
           rewrite <- app_assoc. cbn [app].
           rewrite nth_error_app2 by (rewrite length_map; lia).
           rewrite length_map.
           replace (Z.to_nat idx - List.length (gates_of done))%nat
             with 0%nat by lia.
           reflexivity.
        -- rewrite flat_map_app, Hm1, Hm, measurements_of_app.
           cbn [flat_map segment_measurements measurements_of].
           reflexivity.
      * intros H.
        refine (IH (done ++ [G g]) prev (idx + 1) _ segs _ _ _ Hinds
                  _ _ Hall HU Hi _ H).
        -- lia.
        -- rewrite gates_of_app, length_app. cbn [gates_of List.length]. lia.
        -- rewrite Hm, measurements_of_app.
           cbn [measurements_of]. now rewrite app_nil_r.
    + destruct (flush_group gate_sequence_product n U_list inds prev idx ops)
        as [[ops1 prev1]|e] eqn:Hf; cbn [bind]; [|discriminate].
      destruct (flush_group_inv n U_list inds prev idx ops ops1 prev1 segs
                  Hp Hlen Hall HU Hi Hf)
        as (-> & segs1 & Hall1 & HU1 & Hi1 & Hm1).
      intros H.
      refine (IH (done ++ [M m]) idx idx _ (segs1 ++ [SegMeasure m])
                _ _ _ Hinds _ _ _ _ _ _ H).
      * lia.
      * rewrite gates_of_app, length_app. cbn [gates_of List.length]. lia.
      * apply Forall2_app; [exact Hall1|].
        constructor; [|constructor]. reflexivity.
      * rewrite flat_map_app, HU1. cbn [flat_map segment_unitaries].
        now rewrite !app_nil_r.
      * rewrite flat_map_app, Hi1. cbn [flat_map segment_inds].
        now rewrite !app_nil_r.
      * rewrite flat_map_app, Hm1, Hm, measurements_of_app.
        cbn [flat_map segment_measurements measurements_of].
        reflexivity.
Qed.


End PrecomputeFacts.

